(** * A chess rules engine and its fixed-depth search

    Shallow embedding of the rules core (board.h / board.cpp), the human
    move handler (human.cpp), the static evaluator (evaluation.cpp) and the
    search engine (engine.cpp).

    Conventions of the embedding.
    - [char], [int] and array indices are modelled as [Z]; the scores the
      program computes stay far inside the range of [int] (see
      [evaluate_range]), so no wrap-around is written out.
    - [char board[8][8]] is a row-major list of 64 cells; the [bool] arrays
      are lists of booleans; [can_castle_*[2]] is a pair (index 0, index 1).
    - Every array access goes through a checked read or write.  An access
      outside the array, or the use of a variable that was never assigned,
      is undefined behaviour in the source and is [None] here: all
      operations live in the [option] monad. *)

From Stdlib Require Import ZArith Lia Bool Ascii String.
From stdpp Require Import base option list strings pretty sorting.

Local Open Scope Z_scope.

(** ** board.h: sides, pieces, move patterns *)

Inductive side := WHITE | BLACK.

Definition EMPTY : Z := 0.
Definition WHITE_PAWN : Z := 1.
Definition WHITE_KNIGHT : Z := 2.
Definition WHITE_BISHOP : Z := 3.
Definition WHITE_ROOK : Z := 4.
Definition WHITE_QUEEN : Z := 5.
Definition WHITE_KING : Z := 6.
Definition BLACK_PAWN : Z := -1.
Definition BLACK_KNIGHT : Z := -2.
Definition BLACK_BISHOP : Z := -3.
Definition BLACK_ROOK : Z := -4.
Definition BLACK_QUEEN : Z := -5.
Definition BLACK_KING : Z := -6.

Definition WHITE_PAWN_STARTING_ROWN : Z := 6.
Definition BLACK_PAWN_STARTING_ROWN : Z := 1.

Definition knight_move : list (Z * Z) :=
  [(-1, -2); (-1, 2); (1, -2); (1, 2); (-2, -1); (-2, 1); (2, -1); (2, 1)].
Definition bishop_direction : list (Z * Z) :=
  [(1, 1); (-1, 1); (1, -1); (-1, -1)].
Definition rook_direction : list (Z * Z) :=
  [(1, 0); (-1, 0); (0, 1); (0, -1)].
Definition every_direction : list (Z * Z) :=
  [(1, 1); (-1, 1); (1, -1); (-1, -1); (0, 1); (1, 0); (-1, 0); (0, -1)].

Record board_state := mk_state {
  board : list Z;
  pawn_two_squares_black : list bool;
  pawn_two_squares_white : list bool;
  can_castle_white : bool * bool;
  can_castle_black : bool * bool
}.

Definition with_board (p : board_state) (b : list Z) : board_state :=
  mk_state b (pawn_two_squares_black p) (pawn_two_squares_white p)
           (can_castle_white p) (can_castle_black p).
Definition with_two_black (p : board_state) (f : list bool) : board_state :=
  mk_state (board p) f (pawn_two_squares_white p)
           (can_castle_white p) (can_castle_black p).
Definition with_two_white (p : board_state) (f : list bool) : board_state :=
  mk_state (board p) (pawn_two_squares_black p) f
           (can_castle_white p) (can_castle_black p).
Definition with_castle_white (p : board_state) (c : bool * bool) : board_state :=
  mk_state (board p) (pawn_two_squares_black p) (pawn_two_squares_white p)
           c (can_castle_black p).
Definition with_castle_black (p : board_state) (c : bool * bool) : board_state :=
  mk_state (board p) (pawn_two_squares_black p) (pawn_two_squares_white p)
           (can_castle_white p) c.

(** The position a [Board] object is constructed with. *)
Definition initial_position : board_state :=
  mk_state
    [ -4; -2; -3; -5; -6; -3; -2; -4;
      -1; -1; -1; -1; -1; -1; -1; -1;
       0;  0;  0;  0;  0;  0;  0;  0;
       0;  0;  0;  0;  0;  0;  0;  0;
       0;  0;  0;  0;  0;  0;  0;  0;
       0;  0;  0;  0;  0;  0;  0;  0;
       1;  1;  1;  1;  1;  1;  1;  1;
       4;  2;  3;  5;  6;  3;  2;  4 ]
    (replicate 8 false) (replicate 8 false) (true, true) (true, true).

(** ** Checked array accesses *)

Definition in_board (i j : Z) : bool :=
  (0 <=? i) && (i <? 8) && (0 <=? j) && (j <? 8).

Definition cell_index (i j : Z) : nat := Z.to_nat (8 * i + j).

(** [board[i][j]] as an rvalue. *)
Definition get (b : list Z) (i j : Z) : option Z :=
  if in_board i j then b !! cell_index i j else None.

(** [board[i][j] = v]. *)
Definition put (b : list Z) (i j v : Z) : option (list Z) :=
  if in_board i j && (cell_index i j <? length b)%nat
  then Some (<[cell_index i j := v]> b) else None.

Definition in_file (j : Z) : bool := (0 <=? j) && (j <? 8).

(** [flags[j]] as an rvalue, for the [bool[8]] arrays. *)
Definition flag (f : list bool) (j : Z) : option bool :=
  if in_file j then f !! Z.to_nat j else None.

(** [flags[j] = v]. *)
Definition set_flag (f : list bool) (j : Z) (v : bool) : option (list bool) :=
  if in_file j && (Z.to_nat j <? length f)%nat
  then Some (<[Z.to_nat j := v]> f) else None.

(** A sequence of cell assignments, in program order. *)
Fixpoint puts (b : list Z) (edits : list (Z * Z * Z)) : option (list Z) :=
  match edits with
  | [] => Some b
  | (i, j, v) :: rest => b' ← put b i j v; puts b' rest
  end.

(** Loop indices [0 .. 7] and the row-major scan [for m { for n { } }]. *)
Definition range8 : list Z := [0; 1; 2; 3; 4; 5; 6; 7].
Definition squares : list (Z * Z) :=
  flat_map (λ m, map (λ n, (m, n)) range8) range8.

(** Short-circuit [a || b] and [a && b] on fallible operands: the right
    operand is evaluated only when the left one does not decide. *)
Abbreviation orM x y :=
  (match x with
   | Some true => Some true
   | Some false => y
   | None => None
   end) (only parsing).
Abbreviation andM x y :=
  (match x with
   | Some true => y
   | Some false => Some false
   | None => None
   end) (only parsing).
Definition notM (x : option bool) : option bool := negb <$> x.

(** The early-exit scan "return true at the first hit". *)
Fixpoint anyM {A} (f : A → option bool) (l : list A) : option bool :=
  match l with
  | [] => Some false
  | a :: l' => orM (f a) (anyM f l')
  end.

(** ** board.cpp: occupancy *)

Definition square_occupied_by_opponent (b : list Z) (i j : Z) (s : side)
  : option bool :=
  c ← get b i j;
  Some (match s with WHITE => c <? 0 | BLACK => 0 <? c end).

Definition move_piece (pos : board_state) (si sj di dj : Z)
  : option board_state :=
  c ← get (board pos) si sj;
  b ← puts (board pos) [(di, dj, c); (si, sj, 0)];
  Some (with_board pos b).

Definition reset_en_passant (pos : board_state) (s : side) : board_state :=
  match s with
  | WHITE => with_two_white pos (replicate 8 false)
  | BLACK => with_two_black pos (replicate 8 false)
  end.

(** ** board.cpp: attack predicates *)

Definition under_pawn_control (b : list Z) (si sj ti tj : Z) : option bool :=
  c ← get b si sj;
  let dir := if c <? 0 then -1 else 1 in
  Some (((ti + dir =? si) && (sj =? tj + 1))
        || ((ti + dir =? si) && (sj =? tj - 1))).

Definition under_knight_control (si sj ti tj : Z) : bool :=
  existsb (λ d, (ti =? si + d.1) && (tj =? sj + d.2)) knight_move.

Definition under_king_control (si sj ti tj : Z) : bool :=
  existsb (λ d, (ti =? si + d.1) && (tj =? sj + d.2)) every_direction.

(** One [while] loop of the sliding predicates: walk from (pi, pj) in
    direction [d] while on the board; stop with [true] on the target,
    with [false] behind the first occupied square.  Eight steps always
    leave the board, so the fuel never runs out. *)
Fixpoint path_reaches (b : list Z) (d : Z * Z) (ti tj : Z)
    (fuel : nat) (pi pj : Z) : option bool :=
  match fuel with
  | O => Some false
  | S fuel' =>
    if in_board pi pj then
      if (pi =? ti) && (pj =? tj) then Some true
      else
        c ← get b pi pj;
        if c =? 0 then path_reaches b d ti tj fuel' (pi + d.1) (pj + d.2)
        else Some false
    else Some false
  end.

Definition slides_to (dirs : list (Z * Z)) (b : list Z) (si sj ti tj : Z)
  : option bool :=
  anyM (λ d, path_reaches b d ti tj 8 (si + d.1) (sj + d.2)) dirs.

Definition under_bishop_control := slides_to bishop_direction.
Definition under_rook_control := slides_to rook_direction.
Definition under_queen_control := slides_to every_direction.

Definition pawn_of (s : side) : Z :=
  match s with WHITE => WHITE_PAWN | BLACK => BLACK_PAWN end.
Definition knight_of (s : side) : Z :=
  match s with WHITE => WHITE_KNIGHT | BLACK => BLACK_KNIGHT end.
Definition bishop_of (s : side) : Z :=
  match s with WHITE => WHITE_BISHOP | BLACK => BLACK_BISHOP end.
Definition rook_of (s : side) : Z :=
  match s with WHITE => WHITE_ROOK | BLACK => BLACK_ROOK end.
Definition queen_of (s : side) : Z :=
  match s with WHITE => WHITE_QUEEN | BLACK => BLACK_QUEEN end.
Definition king_of (s : side) : Z :=
  match s with WHITE => WHITE_KING | BLACK => BLACK_KING end.
Definition opponent_of (s : side) : side :=
  match s with WHITE => BLACK | BLACK => WHITE end.

(** [cond && call]: the call is only made when the test holds. *)
Abbreviation guard c x := (if c then x else Some false) (only parsing).

Definition under_control (b : list Z) (i j : Z) (s : side) : option bool :=
  anyM (λ '(m, n),
    c ← get b m n;
    orM (guard (c =? pawn_of s) (under_pawn_control b m n i j))
   (orM (guard (c =? knight_of s) (Some (under_knight_control m n i j)))
   (orM (guard (c =? bishop_of s) (under_bishop_control b m n i j))
   (orM (guard (c =? rook_of s) (under_rook_control b m n i j))
   (orM (guard (c =? queen_of s) (under_queen_control b m n i j))
        (guard (c =? king_of s) (Some (under_king_control m n i j))))))))
    squares.

Definition king_is_in_check (b : list Z) (s : side) : option bool :=
  anyM (λ '(m, n),
    c ← get b m n;
    guard (c =? king_of s) (under_control b m n (opponent_of s)))
    squares.

(** ** board.cpp: checkmate *)

(** The body shared by every attempt of [is_checkmate]: copy the board,
    apply the assignments, and report whether the king of [s] is safe
    (in which case the source returns [false]). *)
Definition escapes (b : list Z) (s : side) (edits : list (Z * Z * Z))
  : option bool :=
  b' ← puts b edits; notM (king_is_in_check b' s).

(** [square_occupied_by_opponent(..) || board[i][j] == 0]. *)
Definition free_or_opponent (b : list Z) (i j : Z) (s : side) : option bool :=
  orM (square_occupied_by_opponent b i j s)
      (c ← get b i j; Some (c =? 0)).

(** King and knight attempts: one fixed offset each. *)
Definition step_escapes (b : list Z) (s : side) (piece m n : Z) (d : Z * Z)
  : option bool :=
  let i := m + d.1 in
  let j := n + d.2 in
  if in_board i j then
    andM (free_or_opponent b i j s)
         (escapes b s [(m, n, 0); (i, j, piece)])
  else Some false.

(** Rook, bishop and queen attempts along one direction. *)
Fixpoint slide_escapes (b : list Z) (s : side) (piece m n : Z) (d : Z * Z)
    (fuel : nat) (i j : Z) : option bool :=
  match fuel with
  | O => Some false
  | S fuel' =>
    if in_board i j then
      orM (andM (free_or_opponent b i j s)
                (escapes b s [(m, n, 0); (i, j, piece)]))
          (c ← get b i j;
           if negb (c =? 0) then Some false
           else slide_escapes b s piece m n d fuel' (i + d.1) (j + d.2))
    else Some false
  end.

Definition slider_escapes (dirs : list (Z * Z)) (b : list Z) (s : side)
    (piece m n : Z) : option bool :=
  anyM (λ d, slide_escapes b s piece m n d 8 (m + d.1) (n + d.2)) dirs.

(** The flags a pawn of [s] consults to capture en passant. *)
Definition en_passant_flags (p : board_state) (s : side) : list bool :=
  match s with
  | WHITE => pawn_two_squares_black p
  | BLACK => pawn_two_squares_white p
  end.

Definition pawn_escapes (p : board_state) (s : side) (m n : Z) : option bool :=
  let b := board p in
  let dir := match s with WHITE => -1 | BLACK => 1 end in
  let startingRank := match s with WHITE => 6 | BLACK => 1 end in
  let enPassantRank := match s with WHITE => 3 | BLACK => 4 end in
  let en_passant := en_passant_flags p s in
  let pawn := pawn_of s in
  (* one step forward *)
  orM (andM (c ← get b (m + dir) n; Some (c =? 0))
            (escapes b s [(m, n, 0); (m + dir, n, pawn)]))
  (* two steps from starting position *)
 (orM (andM (guard (startingRank =? m)
              (andM (c ← get b (m + dir) n; Some (c =? 0))
                    (c ← get b (m + 2 * dir) n; Some (c =? 0))))
            (escapes b s [(m, n, 0); (m + 2 * dir, n, pawn)]))
  (* capture left *)
 (orM (andM (guard (negb (n =? 0))
              (square_occupied_by_opponent b (m + dir) (n - 1) s))
            (escapes b s [(m, n, 0); (m + dir, n - 1, pawn)]))
  (* capture right *)
 (orM (andM (guard (negb (n =? 7))
              (square_occupied_by_opponent b (m + dir) (n + 1) s))
            (escapes b s [(m, n, 0); (m + dir, n + 1, pawn)]))
  (* en passant left *)
 (orM (andM (guard (negb (n =? 0) && (m =? enPassantRank))
              (flag en_passant (n - 1)))
            (escapes b s [(m, n, 0); (m, n - 1, 0); (m + dir, n - 1, pawn)]))
  (* en passant right *)
      (andM (guard (negb (n =? 7) && (m =? enPassantRank))
              (flag en_passant (n + 1)))
            (escapes b s [(m, n, 0); (m, n + 1, 0); (m + dir, n + 1, pawn)])))))).

(** Does some attempted move starting on (m, n) leave the king safe? *)
Definition square_escapes (p : board_state) (s : side) (m n : Z) : option bool :=
  let b := board p in
  c ← get b m n;
  orM (guard (c =? king_of s)
         (anyM (step_escapes b s (king_of s) m n) every_direction))
 (orM (guard (c =? pawn_of s) (pawn_escapes p s m n))
 (orM (guard (c =? knight_of s)
         (anyM (step_escapes b s (knight_of s) m n) knight_move))
 (orM (guard (c =? rook_of s)
         (slider_escapes rook_direction b s (rook_of s) m n))
 (orM (guard (c =? bishop_of s)
         (slider_escapes bishop_direction b s (bishop_of s) m n))
      (guard (c =? queen_of s)
         (slider_escapes every_direction b s (queen_of s) m n)))))).

Definition is_checkmate (p : board_state) (s : side) : option bool :=
  notM (anyM (λ '(m, n), square_escapes p s m n) squares).

(** ** board.cpp: stalemate *)

Definition step_is_free (b : list Z) (s : side) (m n : Z) (d : Z * Z)
  : option bool :=
  let i := m + d.1 in
  let j := n + d.2 in
  if in_board i j then free_or_opponent b i j s else Some false.

Definition king_step_is_free (b : list Z) (s : side) (m n : Z) (d : Z * Z)
  : option bool :=
  let i := m + d.1 in
  let j := n + d.2 in
  if in_board i j then
    andM (free_or_opponent b i j s)
         (notM (under_control b i j (opponent_of s)))
  else Some false.

Fixpoint slide_is_free (b : list Z) (s : side) (d : Z * Z)
    (fuel : nat) (i j : Z) : option bool :=
  match fuel with
  | O => Some false
  | S fuel' =>
    if in_board i j then
      orM (free_or_opponent b i j s)
          (c ← get b i j;
           if negb (c =? 0) then Some false
           else slide_is_free b s d fuel' (i + d.1) (j + d.2))
    else Some false
  end.

Definition slider_is_free (dirs : list (Z * Z)) (b : list Z) (s : side)
    (m n : Z) : option bool :=
  anyM (λ d, slide_is_free b s d 8 (m + d.1) (n + d.2)) dirs.

Definition pawn_is_free (p : board_state) (s : side) (m n : Z) : option bool :=
  let b := board p in
  let dir := match s with WHITE => -1 | BLACK => 1 end in
  let enPassantRank := match s with WHITE => 3 | BLACK => 4 end in
  let en_passant := en_passant_flags p s in
  orM (c ← get b (m + dir) n; Some (c =? 0))
 (orM (guard (negb (n =? 0))
         (square_occupied_by_opponent b (m + dir) (n - 1) s))
 (orM (guard (negb (n =? 7))
         (square_occupied_by_opponent b (m + dir) (n + 1) s))
 (orM (guard (negb (n =? 0) && (m =? enPassantRank))
         (flag en_passant (n - 1)))
      (guard (negb (n =? 7) && (m =? enPassantRank))
         (flag en_passant (n + 1)))))).

(** Does the scan of [is_stalemate] find a move on (m, n)? *)
Definition square_is_free (p : board_state) (s : side) (m n : Z) : option bool :=
  let b := board p in
  c ← get b m n;
  orM (guard (c =? king_of s) (anyM (king_step_is_free b s m n) every_direction))
 (orM (guard (c =? pawn_of s) (pawn_is_free p s m n))
 (orM (guard (c =? knight_of s) (anyM (step_is_free b s m n) knight_move))
 (orM (guard (c =? rook_of s) (slider_is_free rook_direction b s m n))
 (orM (guard (c =? bishop_of s) (slider_is_free bishop_direction b s m n))
      (guard (c =? queen_of s) (slider_is_free every_direction b s m n)))))).

Definition is_stalemate (p : board_state) (s : side) : option bool :=
  chk ← king_is_in_check (board p) s;
  if chk : bool then Some false
  else notM (anyM (λ '(m, n), square_is_free p s m n) squares).

(** ** board.cpp: move notation *)

Definition file_letter (j : Z) : string :=
  String (Ascii.ascii_of_nat (Z.to_nat (97 + j))) EmptyString.

Definition piece_letter (piece : Z) : string :=
  if piece =? 2 then "N" else if piece =? 3 then "B"
  else if piece =? 4 then "R" else if piece =? 5 then "Q"
  else if piece =? 6 then "K" else "".

(** [Board::generate_move_notation], on the position the [Board] holds. *)
Definition generate_move_notation (position : board_state)
    (from_i from_j to_i to_j : Z) (player : side) : option string :=
  c ← get (board position) from_i from_j;
  let piece := Z.abs c in
  target ← get (board position) to_i to_j;
  let is_capture := negb (target =? 0) in
  if (piece =? 6) && (from_j =? 4) && (to_j =? 6) then Some "O-O"
  else if (piece =? 6) && (from_j =? 4) && (to_j =? 2) then Some "O-O-O"
  else
    let notation :=
      piece_letter piece
      +:+ (if (piece =? 1) && is_capture then file_letter from_j else "")
      +:+ (if is_capture then "x" else "")
      +:+ file_letter to_j +:+ pretty (8 - to_i) in
    tb ← puts (board position) [(to_i, to_j, c); (from_i, from_j, 0)];
    let temp := with_board position tb in
    let opponent := opponent_of player in
    check ← king_is_in_check tb opponent;
    mate ← andM (Some check) (is_checkmate temp opponent);
    Some (notation +:+ (if mate : bool then "#" else if check : bool then "+" else "")).

(** ** board.cpp: validated white moves *)

(** What [pawn_move] leaves behind besides its verdict: the members
    [promote_pawn] and [en_passant_index] of the [Board]. *)
Record pawn_verdict := mk_verdict {
  pawn_ok : bool;
  promote_pawn : bool;
  en_passant_index : Z
}.

Definition square_occupied (position : board_state) (i j : Z) : option bool :=
  c ← get (board position) i j; Some (negb (c =? 0)).
Definition square_occupied_by_black (position : board_state) (i j : Z)
  : option bool :=
  c ← get (board position) i j; Some (c <? 0).
Definition square_occupied_by_white (position : board_state) (i j : Z)
  : option bool :=
  c ← get (board position) i j; Some (0 <? c).

Definition pawn_move (position : board_state) (si sj ti tj : Z)
  : option pawn_verdict :=
  (* one square forward *)
  one ← guard ((ti =? si - 1) && (sj =? tj)) (notM (square_occupied position ti tj));
  if one : bool then Some (mk_verdict true (ti =? 0) (-1))
  else
  (* two squares forward from the starting row *)
  two ← guard ((si =? WHITE_PAWN_STARTING_ROWN) && (si - 2 =? ti) && (sj =? tj))
          (andM (notM (square_occupied position (ti + 1) tj))
                (notM (square_occupied position ti tj)));
  if two : bool then Some (mk_verdict true false tj)
  else
  (* en passant capture *)
  ep ← guard ((si =? 3) && (ti =? 2) && ((tj =? sj - 1) || (tj =? sj + 1)))
         (flag (pawn_two_squares_black position) tj);
  if ep : bool then Some (mk_verdict true false (-1))
  else
  (* diagonal captures, direction = 1 then -1 *)
  d1 ← guard ((si - 1 =? ti) && (tj + 1 =? sj)) (square_occupied_by_black position ti tj);
  if d1 : bool then Some (mk_verdict true (ti =? 0) (-1))
  else
  d2 ← guard ((si - 1 =? ti) && (tj + -1 =? sj)) (square_occupied_by_black position ti tj);
  if d2 : bool then Some (mk_verdict true (ti =? 0) (-1))
  else Some (mk_verdict false false (-1)).

(** The candidate built by the [switch] of [handle_white_move]: [None]
    inside the monad when [move_is_legal] stays false. *)
Definition white_castle_kingside (position possible : board_state)
    (si sj ti tj : Z) : option (option board_state) :=
  let b := board position in
  ok ← guard ((si =? 7) && (sj =? 4) && (ti =? 7) && (tj =? 6))
         (andM (c ← get b 7 5; Some (c =? 0))
         (andM (c ← get b 7 6; Some (c =? 0))
         (andM (notM (under_control b 7 4 BLACK))
         (andM (notM (under_control b 7 5 BLACK))
         (andM (notM (under_control b 7 6 BLACK))
               (Some (can_castle_white position).2))))));
  if ok : bool then
    k ← get (board possible) si sj;
    pb ← puts (board possible) [(ti, tj, k); (si, sj, 0); (7, 7, 0); (7, 5, WHITE_ROOK)];
    Some (Some (with_castle_white (with_board possible pb) (false, false)))
  else Some None.

Definition white_castle_queenside (position possible : board_state)
    (si sj ti tj : Z) : option (option board_state) :=
  let b := board position in
  ok ← guard ((si =? 7) && (sj =? 4) && (ti =? 7) && (tj =? 2))
         (andM (c ← get b 7 1; Some (c =? 0))
         (andM (c ← get b 7 2; Some (c =? 0))
         (andM (c ← get b 7 3; Some (c =? 0))
         (andM (notM (under_control b 7 2 BLACK))
         (andM (notM (under_control b 7 3 BLACK))
         (andM (notM (under_control b 7 4 BLACK))
               (Some (can_castle_white position).1)))))));
  if ok : bool then
    k ← get (board possible) si sj;
    pb ← puts (board possible) [(ti, tj, k); (si, sj, 0); (7, 0, 0); (7, 3, WHITE_ROOK)];
    Some (Some (with_castle_white (with_board possible pb) (false, false)))
  else Some None.

Definition white_candidate (position : board_state) (si sj ti tj : Z)
  : option (option (board_state * pawn_verdict)) :=
  let none := mk_verdict false false (-1) in
  c ← get (board position) si sj;
  if c =? WHITE_PAWN then
    v ← pawn_move position si sj ti tj;
    if pawn_ok v then
      pp ← move_piece position si sj ti tj;
      ep ← guard ((si =? 3) && (ti =? 2) && (Z.abs (tj - sj) =? 1))
             (andM (x ← get (board position) si tj; Some (x =? BLACK_PAWN))
                   (flag (pawn_two_squares_black position) tj));
      if ep : bool then
        pb ← put (board pp) si tj 0; Some (Some (with_board pp pb, v))
      else Some (Some (pp, v))
    else Some None
  else if c =? WHITE_KNIGHT then
    if under_knight_control si sj ti tj then
      pp ← move_piece position si sj ti tj; Some (Some (pp, none))
    else Some None
  else if c =? WHITE_BISHOP then
    ok ← under_bishop_control (board position) si sj ti tj;
    if ok : bool then pp ← move_piece position si sj ti tj; Some (Some (pp, none))
    else Some None
  else if c =? WHITE_ROOK then
    ok ← under_rook_control (board position) si sj ti tj;
    if ok : bool then
      pp ← move_piece position si sj ti tj;
      let pp := if (si =? 7) && (sj =? 0)
                then with_castle_white pp (false, (can_castle_white pp).2) else pp in
      let pp := if (si =? 7) && (sj =? 7)
                then with_castle_white pp ((can_castle_white pp).1, false) else pp in
      Some (Some (pp, none))
    else Some None
  else if c =? WHITE_QUEEN then
    ok ← under_queen_control (board position) si sj ti tj;
    if ok : bool then pp ← move_piece position si sj ti tj; Some (Some (pp, none))
    else Some None
  else if c =? WHITE_KING then
    r1 ← (if under_king_control si sj ti tj then
            pp ← move_piece position si sj ti tj;
            Some (Some (with_castle_white pp (false, false)))
          else Some None);
    let possible := default position r1 in
    r2 ← white_castle_kingside position possible si sj ti tj;
    let possible := default possible r2 in
    r3 ← white_castle_queenside position possible si sj ti tj;
    Some ((λ pp, (pp, none)) <$> (r3 ∪ r2 ∪ r1))
  else Some None.

(** The piece a promotion answer of the GUI callback selects. *)
Definition promoted_piece (s : side) (answer : Ascii.ascii) : Z :=
  if Ascii.eqb answer "k"%char then knight_of s
  else if Ascii.eqb answer "b"%char then bishop_of s
  else if Ascii.eqb answer "r"%char then rook_of s
  else queen_of s.

(** [Board::handle_white_move] on the position of the [Board]; [answer] is
    what [gui_promotion_callback] returns when it is consulted.  The result
    is the notation and the position the [Board] holds afterwards. *)
Definition handle_white_move (position : board_state) (answer : Ascii.ascii)
    (si sj ti tj : Z) : option (string * board_state) :=
  t ← get (board position) ti tj;
  if 0 <? t then Some ("", position)
  else
    cand ← white_candidate position si sj ti tj;
    match cand with
    | None => Some ("", position)
    | Some (possible, v) =>
      chk ← king_is_in_check (board possible) WHITE;
      if chk : bool then Some ("", position)
      else
        move_string ← generate_move_notation position si sj ti tj WHITE;
        let white0 := replicate 8 false in
        white ← (if en_passant_index v =? -1 then Some white0
                 else set_flag white0 (en_passant_index v) true);
        b ← (if promote_pawn v
             then put (board possible) ti tj (promoted_piece WHITE answer)
             else Some (board possible));
        Some (move_string,
              mk_state b (pawn_two_squares_black possible) white
                       (can_castle_white possible) (can_castle_black possible))
    end.

(** ** board.cpp: validated black moves *)

Definition black_castle_kingside (position possible : board_state)
    (si sj ti tj : Z) : option (option board_state) :=
  let b := board position in
  ok ← guard ((si =? 0) && (sj =? 4) && (ti =? 0) && (tj =? 6))
         (andM (c ← get b 0 5; Some (c =? 0))
         (andM (c ← get b 0 6; Some (c =? 0))
         (andM (notM (under_control b 0 4 WHITE))
         (andM (notM (under_control b 0 5 WHITE))
         (andM (notM (under_control b 0 6 WHITE))
               (Some (can_castle_black position).2))))));
  if ok : bool then
    k ← get (board possible) si sj;
    pb ← puts (board possible) [(ti, tj, k); (si, sj, 0); (0, 7, 0); (0, 5, BLACK_ROOK)];
    Some (Some (with_castle_black (with_board possible pb) (false, false)))
  else Some None.

Definition black_castle_queenside (position possible : board_state)
    (si sj ti tj : Z) : option (option board_state) :=
  let b := board position in
  ok ← guard ((si =? 0) && (sj =? 4) && (ti =? 0) && (tj =? 2))
         (andM (c ← get b 0 1; Some (c =? 0))
         (andM (c ← get b 0 2; Some (c =? 0))
         (andM (c ← get b 0 3; Some (c =? 0))
         (andM (notM (under_control b 0 2 WHITE))
         (andM (notM (under_control b 0 3 WHITE))
         (andM (notM (under_control b 0 4 WHITE))
               (Some (can_castle_black position).1)))))));
  if ok : bool then
    k ← get (board possible) si sj;
    pb ← puts (board possible) [(ti, tj, k); (si, sj, 0); (0, 0, 0); (0, 3, BLACK_ROOK)];
    Some (Some (with_castle_black (with_board possible pb) (false, false)))
  else Some None.

(** The pawn branch of [is_black_move_legal]: the candidate and the local
    [en_passant_index]. *)
Definition black_pawn_candidate (position : board_state) (si sj ti tj : Z)
  : option (option (board_state * Z)) :=
  let b := board position in
  if (ti =? si + 1) && (tj =? sj) then
    c ← get b ti tj;
    if c =? 0 then pp ← move_piece position si sj ti tj; Some (Some (pp, -1))
    else Some None
  else if (si =? 1) && (ti =? si + 2) && (sj =? tj) then
    ok ← andM (c ← get b (ti - 1) tj; Some (c =? 0))
              (c ← get b ti tj; Some (c =? 0));
    if ok : bool then
      pp ← move_piece (with_two_black position (replicate 8 false)) si sj ti tj;
      f ← set_flag (pawn_two_squares_black pp) tj true;
      Some (Some (with_two_black pp f, tj))
    else Some None
  else
    ep ← guard ((si =? 4) && (ti =? 5) && ((tj =? sj - 1) || (tj =? sj + 1)))
           (flag (pawn_two_squares_white position) tj);
    if ep : bool then
      pp ← move_piece position si sj ti tj;
      pb ← put (board pp) 4 tj 0;
      Some (Some (with_board pp pb, -1))
    else
      cap ← guard ((ti =? si + 1) && ((tj =? sj - 1) || (tj =? sj + 1)))
              (c ← get b ti tj; Some (0 <? c));
      if cap : bool then pp ← move_piece position si sj ti tj; Some (Some (pp, -1))
      else Some None.

Definition black_candidate (position : board_state) (si sj ti tj : Z)
  : option (option (board_state * Z)) :=
  c ← get (board position) si sj;
  if c =? BLACK_PAWN then black_pawn_candidate position si sj ti tj
  else if c =? BLACK_KNIGHT then
    if under_knight_control si sj ti tj then
      pp ← move_piece position si sj ti tj; Some (Some (pp, -1))
    else Some None
  else if c =? BLACK_BISHOP then
    ok ← under_bishop_control (board position) si sj ti tj;
    if ok : bool then pp ← move_piece position si sj ti tj; Some (Some (pp, -1))
    else Some None
  else if c =? BLACK_ROOK then
    ok ← under_rook_control (board position) si sj ti tj;
    if ok : bool then
      pp ← move_piece position si sj ti tj;
      let pp := if (si =? 0) && (sj =? 0)
                then with_castle_black pp (false, (can_castle_black pp).2) else pp in
      let pp := if (si =? 0) && (sj =? 7)
                then with_castle_black pp ((can_castle_black pp).1, false) else pp in
      Some (Some (pp, -1))
    else Some None
  else if c =? BLACK_QUEEN then
    ok ← under_queen_control (board position) si sj ti tj;
    if ok : bool then pp ← move_piece position si sj ti tj; Some (Some (pp, -1))
    else Some None
  else if c =? BLACK_KING then
    r1 ← (if under_king_control si sj ti tj then
            pp ← move_piece position si sj ti tj;
            Some (Some (with_castle_black pp (false, false)))
          else Some None);
    let possible := default position r1 in
    r2 ← black_castle_kingside position possible si sj ti tj;
    r3 ← (match r2 with
          | Some _ => Some None
          | None => black_castle_queenside position possible si sj ti tj
          end);
    Some ((λ pp, (pp, -1)) <$> (r3 ∪ r2 ∪ r1))
  else Some None.

(** [Board::is_black_move_legal]: the verdict, the caller's [position]
    afterwards and the caller's [possible_position] afterwards. *)
Definition is_black_move_legal (position : board_state) (si sj ti tj : Z)
  : option (bool * board_state * board_state) :=
  cand ← black_candidate position si sj ti tj;
  match cand with
  | None => Some (false, position, position)
  | Some (possible, ep) =>
    chk ← king_is_in_check (board possible) BLACK;
    if chk : bool then Some (false, position, possible)
    else
      white ← (if ep =? -1 then Some (pawn_two_squares_white possible)
               else set_flag (pawn_two_squares_white possible) ep true);
      Some (true,
            mk_state (board possible) (pawn_two_squares_black possible) white
                     (can_castle_white possible) (can_castle_black possible),
            possible)
  end.

(** ** human.cpp *)

(** [Human::handle_black_move]; [answer] is [None] when no promotion
    callback is installed, otherwise what the callback returns. *)
Definition handle_black_move (position : board_state)
    (answer : option Ascii.ascii) (from_x from_y to_x to_y : Z)
  : option (string * board_state) :=
  move_string ← generate_move_notation position from_x from_y to_x to_y BLACK;
  t ← get (board position) to_x to_y;
  if t <? 0 then Some ("", position)
  else
    '(legal, position1, possible) ← is_black_move_legal position from_x from_y to_x to_y;
    if negb legal then Some ("", position1)
    else
      chk ← king_is_in_check (board possible) BLACK;
      if chk : bool then Some ("", position1)
      else
        c ← get (board possible) to_x to_y;
        b ← (if (c =? BLACK_PAWN) && (to_x =? 7)
             then put (board possible) to_x to_y
                      (promoted_piece BLACK (default "q"%char answer))
             else Some (board possible));
        Some (move_string, with_board possible b).

Definition game_is_over (position : board_state) : option bool :=
  orM (is_checkmate position WHITE)
 (orM (is_checkmate position BLACK)
 (orM (is_stalemate position WHITE)
      (is_stalemate position BLACK))).

(** ** evaluation.cpp *)

(** The piece-square tables as [initialize_piece_square_tables] leaves
    them (the [Engine] constructor runs it before any evaluation). *)
Definition PAWN_TABLE_WHITE : list Z :=
  [    0;    0;    0;    0;    0;    0;    0;    0;
      50;   50;   50;   50;   50;   50;   50;   50;
      10;   10;   20;   30;   30;   20;   10;   10;
       5;    5;   10;   25;   25;   10;    5;    5;
       0;    0;    0;   20;   20;    0;    0;    0;
       5;   -5;  -10;    0;    0;  -10;   -5;    5;
       5;   10;   10;  -20;  -20;   10;   10;    5;
       0;    0;    0;    0;    0;    0;    0;    0 ].

Definition KNIGHT_TABLE_WHITE : list Z :=
  [  -50;  -40;  -30;  -30;  -30;  -30;  -40;  -50;
     -40;  -20;    0;    0;    0;    0;  -20;  -40;
     -30;    0;   10;   15;   15;   10;    0;  -30;
     -30;    5;   15;   20;   20;   15;    5;  -30;
     -30;    0;   15;   20;   20;   15;    0;  -30;
     -30;    5;   10;   15;   15;   10;    5;  -30;
     -40;  -20;    0;    5;    5;    0;  -20;  -40;
     -50;  -40;  -30;  -30;  -30;  -30;  -40;  -50 ].

Definition BISHOP_TABLE_WHITE : list Z :=
  [  -20;  -10;  -10;  -10;  -10;  -10;  -10;  -20;
     -10;    0;    0;    0;    0;    0;    0;  -10;
     -10;    0;    5;   10;   10;    5;    0;  -10;
     -10;    5;    5;   10;   10;    5;    5;  -10;
     -10;    0;   10;   10;   10;   10;    0;  -10;
     -10;   10;   10;   10;   10;   10;   10;  -10;
     -10;    5;    0;    0;    0;    0;    5;  -10;
     -20;  -10;  -10;  -10;  -10;  -10;  -10;  -20 ].

Definition ROOK_TABLE_WHITE : list Z :=
  [    0;    0;    0;    0;    0;    0;    0;    0;
       5;   10;   10;   10;   10;   10;   10;    5;
      -5;    0;    0;    0;    0;    0;    0;   -5;
      -5;    0;    0;    0;    0;    0;    0;   -5;
      -5;    0;    0;    0;    0;    0;    0;   -5;
      -5;    0;    0;    0;    0;    0;    0;   -5;
      -5;    0;    0;    0;    0;    0;    0;   -5;
       0;    0;    0;    5;    5;    3;    0;    0 ].

Definition QUEEN_TABLE_WHITE : list Z :=
  [  -20;  -10;  -10;   -5;   -5;  -10;  -10;  -20;
     -10;    0;    0;    0;    0;    0;    0;  -10;
     -10;    0;    5;    5;    5;    5;    0;  -10;
      -5;    0;    5;    5;    5;    5;    0;   -5;
       0;    0;    5;    5;    5;    5;    0;   -5;
     -10;    5;    5;    5;    5;    5;    0;  -10;
     -10;    0;    5;    0;    0;    0;    0;  -10;
     -20;  -10;  -10;   -5;   -5;  -10;  -10;  -20 ].

Definition KING_MIDDLE_TABLE_WHITE : list Z :=
  [  -30;  -40;  -40;  -50;  -50;  -40;  -40;  -30;
     -30;  -40;  -40;  -50;  -50;  -40;  -40;  -30;
     -30;  -40;  -40;  -50;  -50;  -40;  -40;  -30;
     -30;  -40;  -40;  -50;  -50;  -40;  -40;  -30;
     -20;  -30;  -30;  -40;  -40;  -30;  -30;  -20;
     -10;  -20;  -20;  -20;  -20;  -20;  -20;  -10;
      20;   20;    0;    0;    0;    0;   20;   20;
      20;   30;   10;    0;    0;   10;   30;   20 ].

Definition KING_END_TABLE_WHITE : list Z :=
  [  -50;  -40;  -30;  -20;  -20;  -30;  -40;  -50;
     -30;  -20;  -10;    0;    0;  -10;  -20;  -30;
     -30;  -10;   20;   30;   30;   20;  -10;  -30;
     -30;  -10;   30;   40;   40;   30;  -10;  -30;
     -30;  -10;   30;   40;   40;   30;  -10;  -30;
     -30;  -10;   20;   30;   30;   20;  -10;  -30;
     -30;  -30;    0;    0;    0;    0;  -30;  -30;
     -50;  -30;  -30;  -30;  -30;  -30;  -30;  -50 ].

Definition PAWN_TABLE_BLACK : list Z :=
  [    0;    0;    0;    0;    0;    0;    0;    0;
       5;   10;   10;  -20;  -20;   10;   10;    5;
       5;   -5;  -10;    0;    0;  -10;   -5;    5;
       0;    0;    0;   20;   20;    0;    0;    0;
       5;    5;   10;   25;   25;   10;    5;    5;
      10;   10;   20;   30;   30;   20;   10;   10;
      50;   50;   50;   50;   50;   50;   50;   50;
       0;    0;    0;    0;    0;    0;    0;    0 ].

Definition KNIGHT_TABLE_BLACK : list Z :=
  [  -50;  -40;  -30;  -30;  -30;  -30;  -40;  -50;
     -40;  -20;    0;    5;    5;    0;  -20;  -40;
     -30;    5;   10;   15;   15;   10;    5;  -30;
     -30;    0;   15;   20;   20;   15;    0;  -30;
     -30;    5;   15;   20;   20;   15;    5;  -30;
     -30;    0;   10;   15;   15;   10;    0;  -30;
     -40;  -20;    0;    0;    0;    0;  -20;  -40;
     -50;  -40;  -30;  -30;  -30;  -30;  -40;  -50 ].

Definition BISHOP_TABLE_BLACK : list Z :=
  [  -20;  -10;  -10;  -10;  -10;  -10;  -10;  -20;
     -10;    5;    0;    0;    0;    0;    5;  -10;
     -10;   10;   10;   10;   10;   10;   10;  -10;
     -10;    0;   10;   10;   10;   10;    0;  -10;
     -10;    5;    5;   10;   10;    5;    5;  -10;
     -10;    0;    5;   10;   10;    5;    0;  -10;
     -10;    0;    0;    0;    0;    0;    0;  -10;
     -20;  -10;  -10;  -10;  -10;  -10;  -10;  -20 ].

Definition ROOK_TABLE_BLACK : list Z :=
  [    0;    0;    0;    5;    5;    3;    0;    0;
      -5;    0;    0;    0;    0;    0;    0;   -5;
      -5;    0;    0;    0;    0;    0;    0;   -5;
      -5;    0;    0;    0;    0;    0;    0;   -5;
      -5;    0;    0;    0;    0;    0;    0;   -5;
      -5;    0;    0;    0;    0;    0;    0;   -5;
       5;   10;   10;   10;   10;   10;   10;    5;
       0;    0;    0;    0;    0;    0;    0;    0 ].

Definition QUEEN_TABLE_BLACK : list Z :=
  [  -20;  -10;  -10;   -5;   -5;  -10;  -10;  -20;
     -10;    0;    5;    0;    0;    0;    0;  -10;
     -10;    5;    5;    5;    5;    5;    0;  -10;
       0;    0;    5;    5;    5;    5;    0;   -5;
      -5;    0;    5;    5;    5;    5;    0;   -5;
     -10;    0;    5;    5;    5;    5;    0;  -10;
     -10;    0;    0;    0;    0;    0;    0;  -10;
     -20;  -10;  -10;   -5;   -5;  -10;  -10;  -20 ].

Definition KING_MIDDLE_TABLE_BLACK : list Z :=
  [   20;   30;   10;    0;    0;   10;   30;   20;
      20;   20;    0;    0;    0;    0;   20;   20;
     -10;  -20;  -20;  -20;  -20;  -20;  -20;  -10;
     -20;  -30;  -30;  -40;  -40;  -30;  -30;  -20;
     -30;  -40;  -40;  -50;  -50;  -40;  -40;  -30;
     -30;  -40;  -40;  -50;  -50;  -40;  -40;  -30;
     -30;  -40;  -40;  -50;  -50;  -40;  -40;  -30;
     -30;  -40;  -40;  -50;  -50;  -40;  -40;  -30 ].

Definition KING_END_TABLE_BLACK : list Z :=
  [  -50;  -30;  -30;  -30;  -30;  -30;  -30;  -50;
     -30;  -30;    0;    0;    0;    0;  -30;  -30;
     -30;  -10;   20;   30;   30;   20;  -10;  -30;
     -30;  -10;   30;   40;   40;   30;  -10;  -30;
     -30;  -10;   30;   40;   40;   30;  -10;  -30;
     -30;  -10;   20;   30;   30;   20;  -10;  -30;
     -30;  -20;  -10;    0;    0;  -10;  -20;  -30;
     -50;  -40;  -30;  -20;  -20;  -30;  -40;  -50 ].

(** [int counts[8]]: read and increment of one file's counter. *)
Definition count_at (l : list Z) (j : Z) : option Z :=
  if in_file j then l !! Z.to_nat j else None.
Definition incr_at (l : list Z) (j : Z) : option (list Z) :=
  c ← count_at l j; Some (<[Z.to_nat j := c + 1]> l).

(** The local variables of [Evaluation::evaluate]. *)
Record eval_acc := mk_acc {
  score : Z;
  legal_moves_white : Z;
  legal_moves_black : Z;
  wk : Z * Z;
  bk : Z * Z;
  white_queen_on_board : bool;
  black_queen_on_board : bool;
  num_of_white_minor_pieces : Z;
  num_of_black_minor_pieces : Z;
  white_pawns_in_file : list Z;
  black_pawns_in_file : list Z
}.

Definition acc0 : eval_acc :=
  mk_acc 0 0 0 (0, 0) (0, 0) false false 0 0 (replicate 8 0) (replicate 8 0).

(** [if (cond) counter++], as the increment it contributes. *)
Definition tally (c : option bool) : option Z :=
  b ← c; Some (if b : bool then 1 else 0).

(** Mobility of a knight or a king offset; [mine c] tells a square the
    mover may not enter. *)
Definition step_mobility (b : list Z) (ok : Z → bool) (m n : Z) (d : Z * Z)
  : option Z :=
  let i := m + d.1 in
  let j := n + d.2 in
  if in_board i j then c ← get b i j; Some (if ok c then 1 else 0) else Some 0.

Definition king_step_mobility (b : list Z) (ok : Z → bool) (attacker : side)
    (m n : Z) (d : Z * Z) : option Z :=
  let i := m + d.1 in
  let j := n + d.2 in
  if in_board i j then
    tally (andM (c ← get b i j; Some (ok c)) (notM (under_control b i j attacker)))
  else Some 0.

Fixpoint slide_mobility (b : list Z) (ok : Z → bool) (d : Z * Z)
    (fuel : nat) (i j : Z) : option Z :=
  match fuel with
  | O => Some 0
  | S fuel' =>
    if in_board i j then
      c ← get b i j;
      rest ← (if negb (c =? 0) then Some 0
              else slide_mobility b ok d fuel' (i + d.1) (j + d.2));
      Some ((if ok c then 1 else 0) + rest)
    else Some 0
  end.

Fixpoint sumM {A} (f : A → option Z) (l : list A) : option Z :=
  match l with
  | [] => Some 0
  | a :: l' => x ← f a; y ← sumM f l'; Some (x + y)
  end.

Definition slider_mobility (dirs : list (Z * Z)) (b : list Z) (ok : Z → bool)
    (m n : Z) : option Z :=
  sumM (λ d, slide_mobility b ok d 8 (m + d.1) (n + d.2)) dirs.

Definition white_pawn_mobility (position : board_state) (m n : Z) : option Z :=
  let b := board position in
  let ep := pawn_two_squares_black position in
  a1 ← tally (c ← get b (m - 1) n; Some (c =? 0));
  a2 ← tally (guard (m =? 6)
               (andM (c ← get b (m - 1) n; Some (c =? 0))
                     (c ← get b (m - 2) n; Some (c =? 0))));
  a3 ← tally (guard (negb (n =? 0)) (c ← get b (m - 1) (n - 1); Some (c <? 0)));
  a4 ← tally (guard (negb (n =? 7)) (c ← get b (m - 1) (n + 1); Some (c <? 0)));
  a5 ← tally (guard (negb (n =? 7))
               (andM (c ← get b m (n + 1); Some (c =? -1)) (flag ep (n + 1))));
  a6 ← tally (guard (negb (n =? 0))
               (andM (c ← get b m (n - 1); Some (c =? -1)) (flag ep (n - 1))));
  Some (a1 + a2 + a3 + a4 + a5 + a6).

Definition black_pawn_mobility (position : board_state) (m n : Z) : option Z :=
  let b := board position in
  let ep := pawn_two_squares_white position in
  a1 ← tally (c ← get b (m + 1) n; Some (c =? 0));
  a2 ← tally (guard (m =? 1)
               (andM (c ← get b (m + 1) n; Some (c =? 0))
                     (c ← get b (m + 2) n; Some (c =? 0))));
  a3 ← tally (guard (negb (n =? 0)) (c ← get b (m + 1) (n - 1); Some (0 <? c)));
  a4 ← tally (guard (negb (n =? 7)) (c ← get b (m + 1) (n + 1); Some (0 <? c)));
  a5 ← tally (guard (negb (n =? 7))
               (andM (c ← get b m (n + 1); Some (c =? 1)) (flag ep (n + 1))));
  a6 ← tally (guard (negb (n =? 0))
               (andM (c ← get b m (n - 1); Some (c =? 1)) (flag ep (n - 1))));
  Some (a1 + a2 + a3 + a4 + a5 + a6).

Definition not_white (c : Z) : bool := c <=? 0.
Definition not_black (c : Z) : bool := 0 <=? c.

Definition add_white (a : eval_acc) (material bonus mobility minor : Z) : eval_acc :=
  mk_acc (score a + material + bonus) (legal_moves_white a + mobility)
         (legal_moves_black a) (wk a) (bk a)
         (white_queen_on_board a) (black_queen_on_board a)
         (num_of_white_minor_pieces a + minor) (num_of_black_minor_pieces a)
         (white_pawns_in_file a) (black_pawns_in_file a).

Definition add_black (a : eval_acc) (material bonus mobility minor : Z) : eval_acc :=
  mk_acc (score a - material - bonus) (legal_moves_white a)
         (legal_moves_black a + mobility) (wk a) (bk a)
         (white_queen_on_board a) (black_queen_on_board a)
         (num_of_white_minor_pieces a) (num_of_black_minor_pieces a + minor)
         (white_pawns_in_file a) (black_pawns_in_file a).

(** The body of the scan of [evaluate] for the square (m, n). *)
Definition eval_square (position : board_state) (a : eval_acc) (m n : Z)
  : option eval_acc :=
  let b := board position in
  c ← get b m n;
  if c =? WHITE_PAWN then
    t ← get PAWN_TABLE_WHITE m n;
    files ← incr_at (white_pawns_in_file a) n;
    mob ← white_pawn_mobility position m n;
    let a := add_white a 100 t mob 0 in
    Some (mk_acc (score a) (legal_moves_white a) (legal_moves_black a) (wk a) (bk a)
                 (white_queen_on_board a) (black_queen_on_board a)
                 (num_of_white_minor_pieces a) (num_of_black_minor_pieces a)
                 files (black_pawns_in_file a))
  else if c =? WHITE_KNIGHT then
    t ← get KNIGHT_TABLE_WHITE m n;
    mob ← sumM (step_mobility b not_white m n) knight_move;
    Some (add_white a 320 t mob 1)
  else if c =? WHITE_BISHOP then
    t ← get BISHOP_TABLE_WHITE m n;
    mob ← slider_mobility bishop_direction b not_white m n;
    Some (add_white a 330 t mob 1)
  else if c =? WHITE_ROOK then
    t ← get ROOK_TABLE_WHITE m n;
    mob ← slider_mobility rook_direction b not_white m n;
    Some (add_white a 500 t mob 1)
  else if c =? WHITE_QUEEN then
    t ← get QUEEN_TABLE_WHITE m n;
    let a := add_white a 900 t 0 0 in
    Some (mk_acc (score a) (legal_moves_white a) (legal_moves_black a) (wk a) (bk a)
                 true (black_queen_on_board a)
                 (num_of_white_minor_pieces a) (num_of_black_minor_pieces a)
                 (white_pawns_in_file a) (black_pawns_in_file a))
  else if c =? WHITE_KING then
    mob ← sumM (king_step_mobility b not_white BLACK m n) every_direction;
    let a := add_white a 0 0 mob 0 in
    Some (mk_acc (score a) (legal_moves_white a) (legal_moves_black a) (m, n) (bk a)
                 (white_queen_on_board a) (black_queen_on_board a)
                 (num_of_white_minor_pieces a) (num_of_black_minor_pieces a)
                 (white_pawns_in_file a) (black_pawns_in_file a))
  else if c =? BLACK_PAWN then
    t ← get PAWN_TABLE_BLACK m n;
    files ← incr_at (black_pawns_in_file a) n;
    mob ← black_pawn_mobility position m n;
    let a := add_black a 100 t mob 0 in
    Some (mk_acc (score a) (legal_moves_white a) (legal_moves_black a) (wk a) (bk a)
                 (white_queen_on_board a) (black_queen_on_board a)
                 (num_of_white_minor_pieces a) (num_of_black_minor_pieces a)
                 (white_pawns_in_file a) files)
  else if c =? BLACK_KNIGHT then
    t ← get KNIGHT_TABLE_BLACK m n;
    mob ← sumM (step_mobility b not_black m n) knight_move;
    Some (add_black a 320 t mob 1)
  else if c =? BLACK_BISHOP then
    t ← get BISHOP_TABLE_BLACK m n;
    mob ← slider_mobility bishop_direction b not_black m n;
    Some (add_black a 330 t mob 1)
  else if c =? BLACK_ROOK then
    t ← get ROOK_TABLE_BLACK m n;
    mob ← slider_mobility rook_direction b not_black m n;
    Some (add_black a 500 t mob 1)
  else if c =? BLACK_QUEEN then
    t ← get QUEEN_TABLE_BLACK m n;
    let a := add_black a 900 t 0 0 in
    Some (mk_acc (score a) (legal_moves_white a) (legal_moves_black a) (wk a) (bk a)
                 (white_queen_on_board a) true
                 (num_of_white_minor_pieces a) (num_of_black_minor_pieces a)
                 (white_pawns_in_file a) (black_pawns_in_file a))
  else if c =? BLACK_KING then
    mob ← sumM (king_step_mobility b not_black WHITE m n) every_direction;
    let a := add_black a 0 0 mob 0 in
    Some (mk_acc (score a) (legal_moves_white a) (legal_moves_black a) (wk a) (m, n)
                 (white_queen_on_board a) (black_queen_on_board a)
                 (num_of_white_minor_pieces a) (num_of_black_minor_pieces a)
                 (white_pawns_in_file a) (black_pawns_in_file a))
  else Some a.

Fixpoint eval_scan (position : board_state) (a : eval_acc) (sq : list (Z * Z))
  : option eval_acc :=
  match sq with
  | [] => Some a
  | (m, n) :: rest => a' ← eval_square position a m n; eval_scan position a' rest
  end.

(** The local variables of the pawn-structure loop. *)
Record pawn_acc := mk_pawn_acc {
  pscore : Z;
  white_pawn_islands : Z;
  black_pawn_islands : Z;
  white_pawn_island_flag : bool;
  black_pawn_island_flag : bool
}.

Definition pawn_file (wf bf : list Z) (a : pawn_acc) (i : Z) : option pawn_acc :=
  w ← count_at wf i;
  k ← count_at bf i;
  let s1 := if 1 <? w then pscore a - w * 15 else pscore a in
  let s2 := if 1 <? k then s1 + k * 15 else s1 in
  let '(wi, wfl) :=
    if (0 <? w) && negb (white_pawn_island_flag a)
    then (white_pawn_islands a + 1, true)
    else (white_pawn_islands a, white_pawn_island_flag a) in
  let wfl := if w =? 0 then false else wfl in
  let '(bi, bfl) :=
    if (0 <? k) && negb (black_pawn_island_flag a)
    then (black_pawn_islands a + 1, true)
    else (black_pawn_islands a, black_pawn_island_flag a) in
  let bfl := if k =? 0 then false else bfl in
  s4 ← (if negb (i =? 0) && negb (i =? 7) then
          iw ← andM (Some (0 <? w))
                 (andM (x ← count_at wf (i - 1); Some (x =? 0))
                       (x ← count_at wf (i + 1); Some (x =? 0)));
          let s3 := if iw : bool then s2 - 30 else s2 in
          ib ← andM (Some (0 <? k))
                 (andM (x ← count_at bf (i - 1); Some (x =? 0))
                       (x ← count_at bf (i + 1); Some (x =? 0)));
          Some (if ib : bool then s3 + 30 else s3)
        else Some s2);
  Some (mk_pawn_acc s4 wi bi wfl bfl).

Fixpoint pawn_files (wf bf : list Z) (a : pawn_acc) (l : list Z) : option pawn_acc :=
  match l with
  | [] => Some a
  | i :: rest => a' ← pawn_file wf bf a i; pawn_files wf bf a' rest
  end.

(** [Evaluation::evaluate(position, depth)].  The [int] sums are kept in
    [Z] without wrap-around: every sum but the two mate scores is
    independent of [depth] and small, and [100000 + depth] fits [int] for
    every depth up to [INT_MAX - 100000] (the engine calls with depths
    0 to 3).  Beyond that the source overflows and the model does not
    follow it. *)
Definition evaluate (position : board_state) (depth : Z) : option Z :=
  stale ← orM (is_stalemate position BLACK) (is_stalemate position WHITE);
  if stale : bool then Some 0
  else
    mw ← is_checkmate position WHITE;
    if mw : bool then Some (-100000 - depth)
    else
      mb ← is_checkmate position BLACK;
      if mb : bool then Some (100000 + depth)
      else
        a ← eval_scan position acc0 squares;
        let score := score a + 10 * (legal_moves_white a - legal_moves_black a) in
        let is_end_game :=
          (negb (white_queen_on_board a) && negb (black_queen_on_board a))
          || (white_queen_on_board a && (num_of_white_minor_pieces a <=? 1))
          || (black_queen_on_board a && (num_of_black_minor_pieces a <=? 1)) in
        kw ← get (if is_end_game then KING_END_TABLE_WHITE else KING_MIDDLE_TABLE_WHITE)
                 (wk a).1 (wk a).2;
        kb ← get (if is_end_game then KING_END_TABLE_BLACK else KING_MIDDLE_TABLE_BLACK)
                 (bk a).1 (bk a).2;
        let score := score + kw - kb in
        pa ← pawn_files (white_pawns_in_file a) (black_pawns_in_file a)
               (mk_pawn_acc score 0 0 false false) range8;
        Some (pscore pa - 10 * (white_pawn_islands pa - black_pawn_islands pa)).

(** ** engine.cpp: move generation

    The four search routines of the engine walk the same nest of loops:
    rows, columns, then per piece kind a loop over offsets or directions.
    The walk is recorded as a tree of items in program order: a candidate
    position built on a copy of the node's position, an inner loop (what a
    [break] leaves), or the point where an array access leaves its array. *)

Record move := mk_move { from_i : Z; from_j : Z; to_i : Z; to_j : Z }.

Inductive item :=
| Cand (mv : move) (possible_position : board_state)
| Loop (body : list item)
| Abort.

(** [possible_position = copy_position(position)], the cell assignments,
    then the flag updates. *)
Definition cand (mv : move) (position : board_state) (edits : list (Z * Z * Z))
    (post : board_state → option board_state) : item :=
  match b ← puts (board position) edits; post (with_board position b) with
  | Some pp => Cand mv pp
  | None => Abort
  end.

Abbreviation when c its :=
  (match c with Some true => its | Some false => [] | None => [Abort] end).
Abbreviation reading x k :=
  (match x with Some c => k c | None => [Abort] end).

Definition own_free (s : side) (c : Z) : bool :=
  match s with WHITE => c <=? 0 | BLACK => 0 <=? c end.

(** Knight and king: [for (k = 0; k < 8; k++)] over fixed offsets. *)
Definition step_items (s : side) (position : board_state) (piece : Z)
    (ctl : Z → Z → Z → Z → bool) (post : board_state → option board_state)
    (m n : Z) (offsets : list (Z * Z)) : item :=
  Loop (flat_map (λ d,
    let i := m + d.1 in
    let j := n + d.2 in
    if in_board i j then
      when (andM (Some (ctl m n i j))
                 (c ← get (board position) i j; Some (own_free s c)))
        [cand (mk_move m n i j) position [(i, j, piece); (m, n, 0)] post]
    else []) offsets).

(** Bishop, rook and queen: the [while] loop of one direction. *)
Fixpoint slide_items (s : side) (position : board_state) (piece : Z)
    (ctl : list Z → Z → Z → Z → Z → option bool)
    (post : board_state → option board_state)
    (m n : Z) (d : Z * Z) (fuel : nat) (i j : Z) : list item :=
  match fuel with
  | O => []
  | S fuel' =>
    if in_board i j then
      when (andM (ctl (board position) m n i j)
                 (c ← get (board position) i j; Some (own_free s c)))
        [cand (mk_move m n i j) position [(i, j, piece); (m, n, 0)] post]
      ++ reading (get (board position) i j) (λ c,
           if negb (c =? 0) then []
           else slide_items s position piece ctl post m n d fuel' (i + d.1) (j + d.2))
    else []
  end.

Definition slider_items (s : side) (position : board_state) (piece : Z)
    (ctl : list Z → Z → Z → Z → Z → option bool)
    (post : board_state → option board_state)
    (m n : Z) (dirs : list (Z * Z)) : list item :=
  map (λ d, Loop (slide_items s position piece ctl post m n d 8 (m + d.1) (n + d.2)))
      dirs.

Definition empty_at (b : list Z) (i j : Z) : option bool :=
  c ← get b i j; Some (c =? 0).
Definition piece_at (b : list Z) (i j piece : Z) : option bool :=
  c ← get b i j; Some (c =? piece).

(** White pawns.  [inner] tells [adv_minimax] from the root routines
    ([make_white_move], [get_best_white_moves]), which differ in the
    order of the promotion pieces and of the two captures. *)
Definition white_pawn_items (inner : bool) (position : board_state) (m n : Z)
  : list item :=
  let b := board position in
  let plain ti tj edits := cand (mk_move m n ti tj) position edits Some in
  let promos := if inner then [2; 3; 4; 5] else [5; 4; 3; 2] in
  let landing tj :=
    if negb (m - 1 =? 0) then [plain (m - 1) tj [(m - 1, tj, WHITE_PAWN); (m, n, 0)]]
    else [Loop (map (λ i, plain (m - 1) tj [(m - 1, tj, i); (m, n, 0)]) promos)] in
  let capture edge dj :=
    when (guard (negb (n =? edge)) (c ← get b (m - 1) (n + dj); Some (c <? 0)))
      (landing (n + dj)) in
  let en_passant edge dj :=
    when (guard (negb (n =? edge))
            (andM (piece_at b m (n + dj) (-1))
                  (flag (pawn_two_squares_black position) (n + dj))))
      [plain (m - 1) (n + dj)
         [(m - 1, n + dj, WHITE_PAWN); (m, n, 0); (m, n + dj, 0)]] in
  (* one move forward *)
  when (empty_at b (m - 1) n) (landing n)
  (* two moves from the starting position *)
  ++ when (guard (m =? 6) (andM (empty_at b (m - 1) n) (empty_at b (m - 2) n)))
       [cand (mk_move m n (m - 2) n) position [(m - 2, n, WHITE_PAWN); (m, n, 0)]
          (λ pp, f ← set_flag (pawn_two_squares_white pp) n true;
                 Some (with_two_white pp f))]
  (* the two captures *)
  ++ (if inner then capture 0 (-1) ++ capture 7 1
      else capture 7 1 ++ capture 0 (-1))
  (* en passant *)
  ++ en_passant 7 1 ++ en_passant 0 (-1).

Definition black_pawn_items (position : board_state) (m n : Z) : list item :=
  let b := board position in
  let plain ti tj edits := cand (mk_move m n ti tj) position edits Some in
  let landing tj :=
    if negb (m + 1 =? 7) then [plain (m + 1) tj [(m + 1, tj, BLACK_PAWN); (m, n, 0)]]
    else [Loop (map (λ i, plain (m + 1) tj [(m + 1, tj, i); (m, n, 0)])
                    [-5; -4; -3; -2])] in
  let capture edge dj :=
    when (guard (negb (n =? edge)) (c ← get b (m + 1) (n + dj); Some (0 <? c)))
      (landing (n + dj)) in
  let en_passant edge dj :=
    when (guard (negb (n =? edge))
            (andM (piece_at b m (n + dj) 1)
                  (flag (pawn_two_squares_white position) (n + dj))))
      [plain (m + 1) (n + dj)
         [(m + 1, n + dj, BLACK_PAWN); (m, n, 0); (m, n + dj, 0)]] in
  when (empty_at b (m + 1) n) (landing n)
  ++ when (guard (m =? 1) (andM (empty_at b (m + 1) n) (empty_at b (m + 2) n)))
       [cand (mk_move m n (m + 2) n) position [(m + 2, n, BLACK_PAWN); (m, n, 0)]
          (λ pp, f ← set_flag (pawn_two_squares_black pp) n true;
                 Some (with_two_black pp f))]
  ++ capture 0 (-1) ++ capture 7 1
  ++ en_passant 7 1 ++ en_passant 0 (-1).

Definition rook_post (s : side) (m n : Z) (pp : board_state) : option board_state :=
  match s with
  | WHITE =>
    let pp := if (m =? 7) && (n =? 0)
              then with_castle_white pp (false, (can_castle_white pp).2) else pp in
    Some (if (m =? 7) && (n =? 7)
          then with_castle_white pp ((can_castle_white pp).1, false) else pp)
  | BLACK =>
    let pp := if (m =? 0) && (n =? 0)
              then with_castle_black pp (false, (can_castle_black pp).2) else pp in
    Some (if (m =? 0) && (n =? 7)
          then with_castle_black pp ((can_castle_black pp).1, false) else pp)
  end.

Definition king_post (s : side) (pp : board_state) : option board_state :=
  Some (match s with
        | WHITE => with_castle_white pp (false, false)
        | BLACK => with_castle_black pp (false, false)
        end).

(** The two castling attempts that follow the king's offset loop.  Only
    the white queenside test of [adv_minimax] looks at the squares
    b1, c1, d1; every other routine looks at c, d and the king's square. *)
Definition castle_items (inner : bool) (s : side) (position : board_state)
    (m n : Z) : list item :=
  let b := board position in
  let r := match s with WHITE => 7 | BLACK => 0 end in
  let o := opponent_of s in
  let rights := match s with
                | WHITE => can_castle_white position
                | BLACK => can_castle_black position end in
  let q1 := match s with WHITE => if inner then 1 else 2 | BLACK => 2 end in
  when (guard ((m =? r) && (n =? 4))
          (andM (empty_at b r 5) (andM (empty_at b r 6)
          (andM (piece_at b r 7 (rook_of s))
          (andM (notM (under_control b r 4 o))
          (andM (notM (under_control b r 5 o))
          (andM (notM (under_control b r 6 o))
                (Some rights.2))))))))
    [cand (mk_move r 4 r 6) position
       [(r, 6, king_of s); (r, 4, 0); (r, 7, 0); (r, 5, rook_of s)] (king_post s)]
  ++ when (guard ((m =? r) && (n =? 4))
          (andM (empty_at b r 1) (andM (empty_at b r 2) (andM (empty_at b r 3)
          (andM (piece_at b r 0 (rook_of s))
          (andM (notM (under_control b r q1 o))
          (andM (notM (under_control b r (q1 + 1) o))
          (andM (notM (under_control b r (q1 + 2) o))
                (Some rights.1)))))))))
    [cand (mk_move r 4 r 2) position
       [(r, 2, king_of s); (r, 4, 0); (r, 0, 0); (r, 3, rook_of s)] (king_post s)].

(** The body of the column loop for the square (m, n). *)
Definition square_items (inner : bool) (s : side) (position : board_state)
    (m n : Z) : list item :=
  let b := board position in
  reading (get b m n) (λ c,
    if match s with WHITE => 0 <? c | BLACK => c <? 0 end then
      (if c =? pawn_of s then
         match s with
         | WHITE => white_pawn_items inner position m n
         | BLACK => black_pawn_items position m n
         end
       else [])
      ++ (if c =? knight_of s then
            [step_items s position (knight_of s) under_knight_control Some m n knight_move]
          else [])
      ++ (if c =? bishop_of s then
            slider_items s position (bishop_of s) under_bishop_control Some m n
                         bishop_direction
          else [])
      ++ (if c =? rook_of s then
            slider_items s position (rook_of s) under_rook_control (rook_post s m n)
                         m n rook_direction
          else [])
      ++ (if c =? queen_of s then
            slider_items s position (queen_of s) under_queen_control Some m n
                         every_direction
          else [])
      ++ (if c =? king_of s then
            step_items s position (king_of s) under_king_control (king_post s) m n
                       every_direction
            :: castle_items inner s position m n
          else [])
    else []).

(** [for (m ..) for (n ..)]: one loop item per row. *)
Definition engine_items (inner : bool) (s : side) (position : board_state)
  : list item :=
  map (λ m, Loop (flat_map (λ n, square_items inner s position m n) range8)) range8.

(** ** engine.cpp: the search *)

Definition INT_MIN : Z := -2147483648.
Definition INT_MAX : Z := 2147483647.
Definition DEPTH : nat := 4.

(** [score], [alpha] and [beta] of one activation of [adv_minimax]. *)
Record window := mk_window { w_score : Z; w_alpha : Z; w_beta : Z }.

(** [score = max(score, v); alpha = max(alpha, score)] for the maximizer,
    [score = min(score, v); beta = min(beta, score)] for the minimizer. *)
Definition absorb (maximizingPlayer : bool) (w : window) (v : Z) : window :=
  if maximizingPlayer then
    let s := Z.max (w_score w) v in mk_window s (Z.max (w_alpha w) s) (w_beta w)
  else
    let s := Z.min (w_score w) v in mk_window s (w_alpha w) (Z.min (w_beta w) s).

Definition cutoff (w : window) : bool := w_beta w <=? w_alpha w.

(** Running the loop nest of one node.  [child] is the recursive call on a
    candidate with the current window.  The boolean of the result tells
    that a [break] was executed: it ends the list it occurs in, and a
    [Loop] item absorbs it, as the enclosing loop continues. *)
Fixpoint run_item (child : board_state → Z → Z → option Z) (s : side)
    (maximizingPlayer : bool) (it : item) (w : window) : option (window * bool) :=
  match it with
  | Cand _ pp =>
    chk ← king_is_in_check (board pp) s;
    if chk : bool then Some (w, false)
    else
      v ← child pp (w_alpha w) (w_beta w);
      let w' := absorb maximizingPlayer w v in
      Some (w', cutoff w')
  | Loop body =>
    r ← (fix run (l : list item) (w : window) : option (window * bool) :=
           match l with
           | [] => Some (w, false)
           | i :: l' =>
             r ← run_item child s maximizingPlayer i w;
             if (r : window * bool).2 then Some r else run l' r.1
           end) body w;
    Some ((r : window * bool).1, false)
  | Abort => None
  end.

Fixpoint run_items (child : board_state → Z → Z → option Z) (s : side)
    (maximizingPlayer : bool) (l : list item) (w : window) : option (window * bool) :=
  match l with
  | [] => Some (w, false)
  | i :: l' =>
    r ← run_item child s maximizingPlayer i w;
    if (r : window * bool).2 then Some r else run_items child s maximizingPlayer l' r.1
  end.

Definition side_to_move (maximizingPlayer : bool) : side :=
  if maximizingPlayer then WHITE else BLACK.

(** [Engine::adv_minimax].  The position is passed by reference and the
    routine clears the mover's en-passant flags in it: the result carries
    the score and the caller's object afterwards.  The global node counter
    [paths], a diagnostic, is not part of the model. *)
Fixpoint adv_minimax (depth : nat) (position : board_state)
    (maximizingPlayer : bool) (alpha beta : Z) : option (Z * board_state) :=
  score ← evaluate position (Z.of_nat depth);
  match depth with
  | O => Some (score, position)
  | S depth' =>
    over ← game_is_over position;
    if over : bool then Some (score, position)
    else
      let s := side_to_move maximizingPlayer in
      let position := reset_en_passant position s in
      r ← run_items
             (λ pp a b, fst <$> adv_minimax depth' pp (negb maximizingPlayer) a b)
             s maximizingPlayer (engine_items true s position)
             (mk_window (if maximizingPlayer then INT_MIN else INT_MAX) alpha beta);
      Some (w_score (r : window * bool).1, position)
  end.

(** The candidates of a loop nest in program order, loops forgotten;
    [None] marks the point of an out-of-range access. *)
Fixpoint candidates_of (it : item) : list (option (move * board_state)) :=
  match it with
  | Cand mv pp => [Some (mv, pp)]
  | Loop body => flat_map candidates_of body
  | Abort => [None]
  end.

Definition candidates (l : list item) : list (option (move * board_state)) :=
  flat_map candidates_of l.

(** The unpruned minimax over the same tree, as the reference the pruned
    search is compared with: every candidate that does not leave the mover
    in check is searched, and the best score is kept. *)
Fixpoint best_of (child : board_state → option Z) (s : side)
    (maximizingPlayer : bool) (l : list (option (move * board_state))) (acc : Z)
  : option Z :=
  match l with
  | [] => Some acc
  | None :: _ => None
  | Some (_, pp) :: l' =>
    chk ← king_is_in_check (board pp) s;
    if chk : bool then best_of child s maximizingPlayer l' acc
    else
      v ← child pp;
      best_of child s maximizingPlayer l'
              (if maximizingPlayer then Z.max acc v else Z.min acc v)
  end.

Fixpoint minimax (depth : nat) (position : board_state) (maximizingPlayer : bool)
  : option Z :=
  score ← evaluate position (Z.of_nat depth);
  match depth with
  | O => Some score
  | S depth' =>
    over ← game_is_over position;
    if over : bool then Some score
    else
      let s := side_to_move maximizingPlayer in
      let position := reset_en_passant position s in
      best_of (λ pp, minimax depth' pp (negb maximizingPlayer)) s maximizingPlayer
              (candidates (engine_items true s position))
              (if maximizingPlayer then INT_MIN else INT_MAX)
  end.

(** ** engine.cpp: the root routines *)

(** [EngineMove]; [eval] is kept in centipawns, the integer the source
    divides by 100 into a [float] (the division is strictly monotone on
    the scores a search returns, and [s / 100 >= -0.5f] holds exactly for
    [s >= -50]).  The field [nodes] is left out with the counter. *)
Record EngineMove := mk_engine_move {
  notation : string;
  em_from_i : Z; em_from_j : Z;
  em_to_i : Z; em_to_j : Z;
  eval : Z
}.

(** The locals of [make_white_move] / [make_black_move]: [best_position]
    is [None] until its first assignment. *)
Record best := mk_best {
  best_score : Z;
  best_position : option board_state;
  best_move : move
}.

(** One pass of the root loop over the candidates, with a fresh full
    window per candidate; [below] is the depth handed to [adv_minimax],
    [DEPTH - 1] in the source. *)
Fixpoint root_scan (below : nat) (s : side)
    (l : list (option (move * board_state))) (acc : best) : option best :=
  match l with
  | [] => Some acc
  | None :: _ => None
  | Some (mv, pp) :: l' =>
    chk ← king_is_in_check (board pp) s;
    if chk : bool then root_scan below s l' acc
    else
      r ← adv_minimax below pp
            (match s with WHITE => false | BLACK => true end) INT_MIN INT_MAX;
      root_scan below s l'
        (if match s with
            | WHITE => best_score acc <? (r : Z * board_state).1
            | BLACK => r.1 <? best_score acc
            end
         then mk_best r.1 (Some r.2) mv else acc)
  end.

Definition make_move (below : nat) (s : side) (position : board_state)
  : option (EngineMove * board_state) :=
  let held := position in
  let position := reset_en_passant position s in
  b ← root_scan below s (candidates (engine_items false s position))
        (mk_best (match s with WHITE => INT_MIN | BLACK => INT_MAX end) None
                 (mk_move (-1) (-1) (-1) (-1)));
  let mv := best_move b in
  computer_move_notation ←
    generate_move_notation held (from_i mv) (from_j mv) (to_i mv) (to_j mv) s;
  bp ← best_position b;
  Some (mk_engine_move computer_move_notation (from_i mv) (from_j mv)
                       (to_i mv) (to_j mv) (best_score b), bp).

(** [Engine::make_black_move] and [Engine::make_white_move]: the move
    and the caller's position afterwards. *)
Definition make_black_move (position : board_state) := make_move (DEPTH - 1) BLACK position.
Definition make_white_move (position : board_state) := make_move (DEPTH - 1) WHITE position.

(** The scoring loop of [get_best_white_moves]. *)
Fixpoint scored_moves (below : nat) (held : board_state)
    (l : list (option (move * board_state))) : option (list EngineMove) :=
  match l with
  | [] => Some []
  | None :: _ => None
  | Some (mv, pp) :: l' =>
    chk ← king_is_in_check (board pp) WHITE;
    if chk : bool then scored_moves below held l'
    else
      r ← adv_minimax below pp false INT_MIN INT_MAX;
      let score : Z := (r : Z * board_state).1 in
      text ← generate_move_notation held (from_i mv) (from_j mv) (to_i mv) (to_j mv) WHITE;
      rest ← scored_moves below held l';
      Some (mk_engine_move text (from_i mv) (from_j mv) (to_i mv) (to_j mv) score :: rest)
  end.

(** The filter loop: moves not worse than -0.5 pawns, at most three. *)
Fixpoint pick_top (move_list top_moves : list EngineMove) : list EngineMove :=
  match move_list with
  | [] => top_moves
  | mv :: rest =>
    if -50 <=? eval mv then
      let top_moves := top_moves ++ [mv] in
      if (length top_moves =? 3)%nat then top_moves else pick_top rest top_moves
    else pick_top rest top_moves
  end.

Definition top_moves_of (sorted : list EngineMove) : list EngineMove :=
  let top_moves := pick_top sorted [] in
  match top_moves, sorted with
  | [], front :: _ => [front]
  | _, _ => top_moves
  end.

(** [Engine::get_best_white_moves].  [sort] stands for [std::sort] with
    the comparator [a.eval > b.eval], whose result is specified only up
    to the order of equal elements. *)
Definition get_best_white_moves_at (below : nat)
    (sort : list EngineMove → list EngineMove) (position : board_state)
  : option (list EngineMove * board_state) :=
  let held := position in
  let position := reset_en_passant position WHITE in
  move_list ← scored_moves below held (candidates (engine_items false WHITE position));
  Some (top_moves_of (sort move_list), position).

Definition get_best_white_moves := get_best_white_moves_at (DEPTH - 1).

(** ** Structural well-formedness and the positions used as examples *)

Definition valid_cell (c : Z) : bool := (-6 <=? c) && (c <=? 6).

(** A structurally well-formed position: 64 cells holding piece codes,
    8 flags per side. *)
Definition well_formed (p : board_state) : Prop :=
  length (board p) = 64%nat
  ∧ forallb valid_cell (board p) = true
  ∧ length (pawn_two_squares_black p) = 8%nat
  ∧ length (pawn_two_squares_white p) = 8%nat.

(** No pawn stands on the rank it promotes on (row 0 for white, row 7 for
    black). *)
Definition no_pawn_on_last_rank (p : board_state) : Prop :=
  ∀ j, get (board p) 0 j ≠ Some WHITE_PAWN ∧ get (board p) 7 j ≠ Some BLACK_PAWN.

(** A position with the given cells, no en-passant flag and no castling
    right, as [reset_board_state] of puzzle.cpp leaves the flags. *)
Definition position_of_cells (cells : list Z) : board_state :=
  mk_state cells (replicate 8 false) (replicate 8 false) (false, false) (false, false).

(** White king h1, black queen g3, black king a8: white is stalemated. *)
Definition stalemate_position : board_state := position_of_cells
  [ -6;  0;  0;  0;  0;  0;  0;  0;
     0;  0;  0;  0;  0;  0;  0;  0;
     0;  0;  0;  0;  0;  0;  0;  0;
     0;  0;  0;  0;  0;  0;  0;  0;
     0;  0;  0;  0;  0;  0;  0;  0;
     0;  0;  0;  0;  0;  0; -5;  0;
     0;  0;  0;  0;  0;  0;  0;  0;
     0;  0;  0;  0;  0;  0;  0;  6 ].

(** White king a1 and knight b1, black rooks h1 and h2, black king e8:
    the knight is pinned and the king has no square. *)
Definition pinned_knight_position : board_state := position_of_cells
  [  0;  0;  0;  0; -6;  0;  0;  0;
     0;  0;  0;  0;  0;  0;  0;  0;
     0;  0;  0;  0;  0;  0;  0;  0;
     0;  0;  0;  0;  0;  0;  0;  0;
     0;  0;  0;  0;  0;  0;  0;  0;
     0;  0;  0;  0;  0;  0;  0;  0;
     0;  0;  0;  0;  0;  0;  0; -4;
     6;  2;  0;  0;  0;  0;  0; -4 ].

(** White king e1 and rook a1 with the queenside right, black rook e8
    giving check, black king h8. *)
Definition checked_castle_position : board_state :=
  mk_state
  [  0;  0;  0;  0; -4;  0;  0; -6;
     0;  0;  0;  0;  0;  0;  0;  0;
     0;  0;  0;  0;  0;  0;  0;  0;
     0;  0;  0;  0;  0;  0;  0;  0;
     0;  0;  0;  0;  0;  0;  0;  0;
     0;  0;  0;  0;  0;  0;  0;  0;
     0;  0;  0;  0;  0;  0;  0;  0;
     4;  0;  0;  0;  6;  0;  0;  0 ]
  (replicate 8 false) (replicate 8 false) (true, false) (false, false).

(** White king e1 and rook h1 with the kingside right, black rook h8 on
    the open h-file, black king a8. *)
Definition corner_capture_position : board_state :=
  mk_state
  [ -6;  0;  0;  0;  0;  0;  0; -4;
     0;  0;  0;  0;  0;  0;  0;  0;
     0;  0;  0;  0;  0;  0;  0;  0;
     0;  0;  0;  0;  0;  0;  0;  0;
     0;  0;  0;  0;  0;  0;  0;  0;
     0;  0;  0;  0;  0;  0;  0;  0;
     0;  0;  0;  0;  0;  0;  0;  0;
     0;  0;  0;  0;  6;  0;  0;  4 ]
  (replicate 8 false) (replicate 8 false) (false, true) (false, false).

(** A white pawn on c8 between the two kings. *)
Definition last_rank_pawn_position : board_state := position_of_cells
  [  0;  0;  1;  0; -6;  0;  0;  0;
     0;  0;  0;  0;  0;  0;  0;  0;
     0;  0;  0;  0;  0;  0;  0;  0;
     0;  0;  0;  0;  0;  0;  0;  0;
     0;  0;  0;  0;  0;  0;  0;  0;
     0;  0;  0;  0;  0;  0;  0;  0;
     0;  0;  0;  0;  0;  0;  0;  0;
     0;  0;  0;  0;  6;  0;  0;  0 ].

(** King and pawn against king: white king e1, pawn e2, black king e8. *)
Definition king_pawn_position : board_state := position_of_cells
  [  0;  0;  0;  0; -6;  0;  0;  0;
     0;  0;  0;  0;  0;  0;  0;  0;
     0;  0;  0;  0;  0;  0;  0;  0;
     0;  0;  0;  0;  0;  0;  0;  0;
     0;  0;  0;  0;  0;  0;  0;  0;
     0;  0;  0;  0;  0;  0;  0;  0;
     0;  0;  0;  0;  1;  0;  0;  0;
     0;  0;  0;  0;  6;  0;  0;  0 ].

(** White king e1 behind its rook e2, black rook e8, black king a8: the
    rook may not leave the e-file. *)
Definition pinned_rook_position : board_state := position_of_cells
  [ -6;  0;  0;  0; -4;  0;  0;  0;
     0;  0;  0;  0;  0;  0;  0;  0;
     0;  0;  0;  0;  0;  0;  0;  0;
     0;  0;  0;  0;  0;  0;  0;  0;
     0;  0;  0;  0;  0;  0;  0;  0;
     0;  0;  0;  0;  0;  0;  0;  0;
     0;  0;  0;  0;  4;  0;  0;  0;
     0;  0;  0;  0;  6;  0;  0;  0 ].

(** The mirror image: black king e8 behind its rook e7, white rook e1. *)
Definition pinned_black_rook_position : board_state := position_of_cells
  [  0;  0;  0;  0; -6;  0;  0;  0;
     0;  0;  0;  0; -4;  0;  0;  0;
     0;  0;  0;  0;  0;  0;  0;  0;
     0;  0;  0;  0;  0;  0;  0;  0;
     0;  0;  0;  0;  0;  0;  0;  0;
     0;  0;  0;  0;  0;  0;  0;  0;
     0;  0;  0;  0;  0;  0;  0;  0;
     6;  0;  0;  0;  4;  0;  0;  0 ].

(** A stable insertion sort by descending [eval]: moves of equal score
    keep the order in which the loop nest produced them.  It is one
    admissible behaviour of [std::sort] with the comparator
    [a.eval > b.eval]. *)
Fixpoint insert_desc (x : EngineMove) (l : list EngineMove) : list EngineMove :=
  match l with
  | [] => [x]
  | y :: l' => if eval y <=? eval x then x :: l else y :: insert_desc x l'
  end.
Definition sort_desc (l : list EngineMove) : list EngineMove :=
  foldr insert_desc [] l.


(** The invariant the castling flags are claimed to keep: a flag that is
    still set has the rook of its side on the home corner. *)
Definition rook_home_invariant (p : board_state) : Prop :=
  ((can_castle_white p).1 = true → get (board p) 7 0 = Some WHITE_ROOK)
  ∧ ((can_castle_white p).2 = true → get (board p) 7 7 = Some WHITE_ROOK)
  ∧ ((can_castle_black p).1 = true → get (board p) 0 0 = Some BLACK_ROOK)
  ∧ ((can_castle_black p).2 = true → get (board p) 0 7 = Some BLACK_ROOK).

(** Exactly the flag of file [j] is set. *)
Definition only_flag (f : list bool) (j : Z) : Prop :=
  f = <[Z.to_nat j := true]> (replicate 8 false).


(** ** Bookkeeping of the pruning argument *)

(** What a search with window (alpha, beta) owes the exact value [x] of
    its node: the exact value inside the window, a bound on the same side
    outside of it. *)
Definition within_window (alpha beta v x : Z) : Prop :=
  (v <= alpha → x <= alpha) ∧ (alpha < v < beta → x = v) ∧ (beta <= v → beta <= x).

Definition in_int (v : Z) : Prop := INT_MIN <= v <= INT_MAX.

(** A node that has not cut off yet: [acc] is the best exact value of the
    candidates seen so far. *)
Definition live (maximizingPlayer : bool) (alpha beta : Z) (w : window) (acc : Z)
  : Prop :=
  if maximizingPlayer then
    w_beta w = beta ∧ w_alpha w < beta ∧ alpha <= w_alpha w
    ∧ w_score w <= w_alpha w ∧ acc <= w_alpha w
    ∧ (alpha < w_alpha w → acc = w_alpha w ∧ w_score w = w_alpha w)
  else
    w_alpha w = alpha ∧ alpha < w_beta w ∧ w_beta w <= beta
    ∧ w_beta w <= w_score w ∧ w_beta w <= acc
    ∧ (w_beta w < beta → acc = w_beta w ∧ w_score w = w_beta w).

(** A node past its first cutoff: score and exact value are both beyond
    the bound of the caller. *)
Definition dead (maximizingPlayer : bool) (alpha beta : Z) (w : window) (acc : Z)
  : Prop :=
  if maximizingPlayer then w_beta w = beta ∧ beta <= w_score w ∧ beta <= acc
  else w_alpha w = alpha ∧ w_score w <= alpha ∧ acc <= alpha.

(** The caller's window is a proper one. *)
Definition valid_window (alpha beta : Z) : Prop :=
  INT_MIN <= alpha ∧ alpha < beta ∧ beta <= INT_MAX.

Definition node_state (maximizingPlayer : bool) (alpha beta : Z) (w : window)
    (acc : Z) : Prop :=
  in_int (w_score w)
  ∧ (valid_window alpha beta →
     live maximizingPlayer alpha beta w acc ∨ dead maximizingPlayer alpha beta w acc).

(** Running an item keeps the bookkeeping in step with the exact best
    value over the candidates of the item. *)
Definition item_ok (child : board_state → Z → Z → option Z)
    (exact : board_state → option Z) (s : side) (maximizingPlayer : bool)
    (alpha beta : Z) (it : item) : Prop :=
  ∀ w acc x,
    best_of exact s maximizingPlayer (candidates_of it) acc = Some x →
    node_state maximizingPlayer alpha beta w acc →
    ∃ w' brk, run_item child s maximizingPlayer it w = Some (w', brk)
              ∧ node_state maximizingPlayer alpha beta w' x
              ∧ (brk = true → valid_window alpha beta →
                 dead maximizingPlayer alpha beta w' x).

(** The unpruned value of the root loop of [make_white_move] and
    [make_black_move]: the best exact value over the root candidates. *)
Definition root_minimax (below : nat) (s : side) (position : board_state)
  : option Z :=
  best_of (λ pp, minimax below pp (match s with WHITE => false | BLACK => true end))
          s (match s with WHITE => true | BLACK => false end)
          (candidates (engine_items false s (reset_en_passant position s)))
          (match s with WHITE => INT_MIN | BLACK => INT_MAX end).

(** ** Bounds kept by the evaluator *)

Definition small (t : Z) : bool := (-50 <=? t) && (t <=? 50).

(** After [k] squares of the scan: material and table bonuses add at most
    950 per square, mobility at most 64 per square, and a file holds at
    most one pawn per square scanned. *)
Definition acc_bound (k : Z) (a : eval_acc) : Prop :=
  -950 * k <= score a <= 950 * k
  ∧ 0 <= legal_moves_white a <= 64 * k
  ∧ 0 <= legal_moves_black a <= 64 * k
  ∧ Forall (λ c, 0 <= c <= k) (white_pawns_in_file a)
  ∧ Forall (λ c, 0 <= c <= k) (black_pawns_in_file a).

(** ** Vocabulary of the flag properties *)

(** [c'] grants no right that [c] does not grant. *)
Definition rights_le (c' c : bool * bool) : Prop :=
  (c'.1 = true → c.1 = true) ∧ (c'.2 = true → c.2 = true).

(** The part of a position the move handlers may only shrink or keep:
    what a white move does to the flags of a position. *)
Definition white_move_keeps (p possible : board_state) : Prop :=
  pawn_two_squares_black possible = pawn_two_squares_black p
  ∧ can_castle_black possible = can_castle_black p
  ∧ rights_le (can_castle_white possible) (can_castle_white p).

Definition black_move_keeps (p possible : board_state) : Prop :=
  pawn_two_squares_white possible = pawn_two_squares_white p
  ∧ can_castle_white possible = can_castle_white p
  ∧ rights_le (can_castle_black possible) (can_castle_black p).

(** ** The shape of the candidates the engine builds *)

(** The flag update that goes with a candidate. *)
Inductive post_kind :=
| Plain
| RookFrom (m n : Z)
| KingMove
| TwoSquare (n : Z).

Definition apply_post (s : side) (k : post_kind) : board_state → option board_state :=
  match k with
  | Plain => Some
  | RookFrom m n => rook_post s m n
  | KingMove => king_post s
  | TwoSquare n =>
    match s with
    | WHITE => λ pp, f ← set_flag (pawn_two_squares_white pp) n true;
                     Some (with_two_white pp f)
    | BLACK => λ pp, f ← set_flag (pawn_two_squares_black pp) n true;
                     Some (with_two_black pp f)
    end
  end.

(** The update the engine attaches to a move of the piece [c]. *)
Definition post_kind_of (s : side) (c : Z) (mv : move) : post_kind :=
  if c =? pawn_of s then
    if Z.abs (to_i mv - from_i mv) =? 2 then TwoSquare (from_j mv) else Plain
  else if c =? rook_of s then RookFrom (from_i mv) (from_j mv)
  else if c =? king_of s then KingMove
  else Plain.

Definition own_piece (s : side) (c : Z) : bool :=
  match s with WHITE => 0 <? c | BLACK => c <? 0 end.

(** A candidate of side [s] on [p]: a piece of [s] stands on the origin,
    the board of the candidate is the board of [p] with some cells
    overwritten by piece codes, and the flags follow the moved piece. *)
Definition engine_candidate (s : side) (p : board_state) (mv : move)
    (pp : board_state) : Prop :=
  ∃ c edits b,
    get (board p) (from_i mv) (from_j mv) = Some c
    ∧ own_piece s c = true
    ∧ Forall (λ e : Z * Z * Z, valid_cell e.2 = true) edits
    ∧ puts (board p) edits = Some b
    ∧ apply_post s (post_kind_of s c mv) (with_board p b) = Some pp.

Definition all_candidates (Q : move → board_state → Prop) (l : list item) : Prop :=
  ∀ mv pp, Some (mv, pp) ∈ candidates l → Q mv pp.

(** The en-passant flags and castling rights of one side. *)
Definition own_flags (s : side) (p : board_state) : list bool :=
  match s with
  | WHITE => pawn_two_squares_white p
  | BLACK => pawn_two_squares_black p
  end.
Definition own_rights (s : side) (p : board_state) : bool * bool :=
  match s with
  | WHITE => can_castle_white p
  | BLACK => can_castle_black p
  end.

(** The home row of the rooks and the start row of the pawns of a side. *)
Definition home_row (s : side) : Z := match s with WHITE => 7 | BLACK => 0 end.
Definition pawn_row (s : side) : Z := match s with WHITE => 6 | BLACK => 1 end.

(** What a move of [s] from [p] to [pp] does to the castling rights:
    the opponent's are kept, the mover's only shrink, a rook leaving its
    home corner loses that corner's right and a king move loses both. *)
Definition rights_follow (s : side) (p : board_state) (mv : move)
    (pp : board_state) : Prop :=
  own_rights (opponent_of s) pp = own_rights (opponent_of s) p
  ∧ rights_le (own_rights s pp) (own_rights s p)
  ∧ (get (board p) (from_i mv) (from_j mv) = Some (rook_of s) →
     from_i mv = home_row s → from_j mv = 0 → (own_rights s pp).1 = false)
  ∧ (get (board p) (from_i mv) (from_j mv) = Some (rook_of s) →
     from_i mv = home_row s → from_j mv = 7 → (own_rights s pp).2 = false)
  ∧ (get (board p) (from_i mv) (from_j mv) = Some (king_of s) →
     own_rights s pp = (false, false)).

(** A pawn of [s] advancing two rows. *)
Definition two_square_advance (s : side) (p : board_state) (mv : move) : Prop :=
  get (board p) (from_i mv) (from_j mv) = Some (pawn_of s)
  ∧ Z.abs (to_i mv - from_i mv) = 2.




(** What the scan of [evaluate] keeps true of its locals: eight counters
    per side and king coordinates on the board. *)
Definition acc_ok (a : eval_acc) : Prop :=
  length (white_pawns_in_file a) = 8%nat
  ∧ length (black_pawns_in_file a) = 8%nat
  ∧ in_board (wk a).1 (wk a).2 = true
  ∧ in_board (bk a).1 (bk a).2 = true.

(** The test of [no_pawn_on_last_rank] over the eight files. *)
Definition no_pawn_on_last_rank_b (p : board_state) : bool :=
  forallb (λ j,
    match get (board p) 0 j with Some c => negb (c =? WHITE_PAWN) | None => true end
    && match get (board p) 7 j with Some c => negb (c =? BLACK_PAWN) | None => true end)
    range8.

(** White king e1 and pawn e2 against a lone black pawn on e7: black has
    no king. *)
Definition kingless_position : board_state := position_of_cells
  [  0;  0;  0;  0;  0;  0;  0;  0;
     0;  0;  0;  0; -1;  0;  0;  0;
     0;  0;  0;  0;  0;  0;  0;  0;
     0;  0;  0;  0;  0;  0;  0;  0;
     0;  0;  0;  0;  0;  0;  0;  0;
     0;  0;  0;  0;  0;  0;  0;  0;
     0;  0;  0;  0;  1;  0;  0;  0;
     0;  0;  0;  0;  6;  0;  0;  0 ].

(** King and pawn against king as in [king_pawn_position], with flags and
    rights set: black's en-passant flag of the d-file, white's of the
    e-file, both castling rights of white and the kingside right of
    black. *)
Definition flagged_position : board_state :=
  mk_state
  [  0;  0;  0;  0; -6;  0;  0;  0;
     0;  0;  0;  0;  0;  0;  0;  0;
     0;  0;  0;  0;  0;  0;  0;  0;
     0;  0;  0;  0;  0;  0;  0;  0;
     0;  0;  0;  0;  0;  0;  0;  0;
     0;  0;  0;  0;  0;  0;  0;  0;
     0;  0;  0;  0;  1;  0;  0;  0;
     0;  0;  0;  0;  6;  0;  0;  0 ]
  [false; false; false; true; false; false; false; false]
  [false; false; false; false; true; false; false; false]
  (true, true) (false, true).

(** ** puzzle.cpp *)

(** A [char] as the [int] it is promoted to.  Move strings and FEN fields
    are ASCII; for a byte above 127 either reading of [char], signed or
    not, gives a coordinate off the board. *)
Definition char_code (c : Ascii.ascii) : Z := Z.of_nat (Ascii.nat_of_ascii c).

(** [s[k]] for an index below the length. *)
Definition char_at (s : string) (k : nat) : Z :=
  match String.get k s with Some c => char_code c | None => 0 end.

Definition piece_char_to_int (c : Ascii.ascii) : Z :=
  if (c =? "P")%char then 1 else if (c =? "N")%char then 2
  else if (c =? "B")%char then 3 else if (c =? "R")%char then 4
  else if (c =? "Q")%char then 5 else if (c =? "K")%char then 6
  else if (c =? "p")%char then -1 else if (c =? "n")%char then -2
  else if (c =? "b")%char then -3 else if (c =? "r")%char then -4
  else if (c =? "q")%char then -5 else if (c =? "k")%char then -6
  else 0.

Definition reset_board_state (bs : board_state) : board_state :=
  mk_state (replicate 64 0) (replicate 8 false) (replicate 8 false)
           (false, false) (false, false).

(** The piece a promotion suffix of [play_move] selects for the colour
    of [piece]. *)
Definition promotion_of (promo piece : Z) : Z :=
  let white := 0 <? piece in
  if promo =? char_code "q" then (if white then 5 else -5)
  else if promo =? char_code "r" then (if white then 4 else -4)
  else if promo =? char_code "b" then (if white then 3 else -3)
  else if promo =? char_code "n" then (if white then 2 else -2)
  else (if white then 5 else -5).

(** [play_move] on the position of the global [Board]; the closing
    [load_position] copies that position onto itself. *)
Definition play_move (position : board_state) (move_str : string)
  : option board_state :=
  if (String.length move_str <? 4)%nat then Some position
  else
    let from_file := char_at move_str 0 - char_code "a" in
    let from_rank := char_code "8" - char_at move_str 1 in
    let to_file := char_at move_str 2 - char_code "a" in
    let to_rank := char_code "8" - char_at move_str 3 in
    piece ← get (board position) from_rank from_file;
    if piece =? 0 then Some position
    else
      let placed :=
        if (String.length move_str =? 5)%nat && (Z.abs piece =? 1)
        then promotion_of (char_at move_str 4) piece
        else piece in
      b ← puts (board position) [(to_rank, to_file, placed); (from_rank, from_file, 0)];
      Some (mk_state b (replicate 8 false) (replicate 8 false)
                     (can_castle_white position) (can_castle_black position)).

(** A loop nest that never reaches an access outside its array. *)
Definition no_abort (l : list item) : Prop := None ∉ candidates l.

(** * Verification *)


(** The scans range over the 64 concrete squares: keep [simpl] from
    unrolling them. *)
Arguments under_control : simpl never.
Arguments king_is_in_check : simpl never.
Arguments is_checkmate : simpl never.
Arguments is_stalemate : simpl never.
Arguments game_is_over : simpl never.
Arguments generate_move_notation : simpl never.
Arguments evaluate : simpl never.
Arguments engine_items : simpl never.
Arguments eval_scan : simpl never.
Arguments candidates : simpl never.
(** ** Checked accesses *)

Lemma get_Some_in_board (b : list Z) (i j c : Z) :
  get b i j = Some c → in_board i j = true.
Proof. unfold get. by destruct (in_board i j). Qed.

Lemma put_Some (b b' : list Z) (i j v : Z) :
  put b i j v = Some b' →
  in_board i j = true ∧ (cell_index i j < length b)%nat
  ∧ b' = <[cell_index i j := v]> b.
Proof.
  unfold put. destruct (in_board i j); simpl; [|done].
  destruct (Nat.ltb_spec (cell_index i j) (length b)); [|done].
  intros [= <-]. done.
Qed.

Lemma put_is_Some_get (b b' : list Z) (i j v : Z) :
  put b i j v = Some b' → is_Some (get b i j).
Proof.
  intros (Hin & Hlt & _)%put_Some. unfold get. rewrite Hin.
  by apply lookup_lt_is_Some.
Qed.

Lemma move_piece_Some (p pp : board_state) (si sj ti tj : Z) :
  move_piece p si sj ti tj = Some pp →
  ∃ c b, get (board p) si sj = Some c
         ∧ puts (board p) [(ti, tj, c); (si, sj, 0)] = Some b
         ∧ pp = with_board p b.
Proof.
  unfold move_piece. intros (c & Hc & (b & Hb & [= <-])%bind_Some)%bind_Some.
  eauto.
Qed.

Lemma get_is_Some (b : list Z) (i j : Z) :
  is_Some (get b i j) ↔ in_board i j = true ∧ (cell_index i j < length b)%nat.
Proof.
  unfold get. destruct (in_board i j).
  - rewrite lookup_lt_is_Some. split; [by intros ?|by intros [_ ?]].
  - split; [by intros [? ?]|by intros [? _]].
Qed.

Lemma put_length (b b' : list Z) (i j v : Z) :
  put b i j v = Some b' → length b' = length b.
Proof. intros (_ & _ & ->)%put_Some. by rewrite length_insert. Qed.

Lemma puts_length (edits : list (Z * Z * Z)) (b b' : list Z) :
  puts b edits = Some b' → length b' = length b.
Proof.
  revert b. induction edits as [|[[i j] v] edits IH]; intros b; simpl.
  - by intros [= ->].
  - destruct (put b i j v) as [b1|] eqn:Hput; simpl; [|done].
    intros ->%IH. by eapply put_length.
Qed.

Lemma puts_head (b b' : list Z) (i j v : Z) (edits : list (Z * Z * Z)) :
  puts b ((i, j, v) :: edits) = Some b' → is_Some (get b i j).
Proof.
  simpl. destruct (put b i j v) eqn:Hput; simpl; [|done].
  intros _. by eapply put_is_Some_get.
Qed.

Lemma move_piece_length (p pp : board_state) (si sj ti tj : Z) :
  move_piece p si sj ti tj = Some pp → length (board pp) = length (board p).
Proof.
  intros (c & b & _ & Hb & ->)%move_piece_Some. simpl. by eapply puts_length.
Qed.

Lemma move_piece_target (p pp : board_state) (si sj ti tj : Z) :
  move_piece p si sj ti tj = Some pp → is_Some (get (board p) ti tj).
Proof.
  intros (c & b & _ & Hb & ->)%move_piece_Some. by eapply puts_head.
Qed.

Lemma get_is_Some_length (b b' : list Z) (i j : Z) :
  length b' = length b → is_Some (get b' i j) → is_Some (get b i j).
Proof. rewrite !get_is_Some. by intros ->. Qed.

(** An accepted castling attempt writes the target square. *)
Lemma white_castle_kingside_target position possible si sj ti tj pp :
  white_castle_kingside position possible si sj ti tj = Some (Some pp) →
  is_Some (get (board possible) ti tj).
Proof.
  unfold white_castle_kingside. intros (ok & _ & H)%bind_Some.
  destruct ok; [|done].
  apply bind_Some in H as (k & _ & (pb & Hpb & _)%bind_Some).
  by eapply puts_head.
Qed.

Lemma white_castle_queenside_target position possible si sj ti tj pp :
  white_castle_queenside position possible si sj ti tj = Some (Some pp) →
  is_Some (get (board possible) ti tj).
Proof.
  unfold white_castle_queenside. intros (ok & _ & H)%bind_Some.
  destruct ok; [|done].
  apply bind_Some in H as (k & _ & (pb & Hpb & _)%bind_Some).
  by eapply puts_head.
Qed.

Lemma white_candidate_target position si sj ti tj r :
  white_candidate position si sj ti tj = Some (Some r) →
  is_Some (get (board position) ti tj).
Proof.
  unfold white_candidate. intros H.
  destruct (get (board position) si sj) as [c|]; simpl in H; [|done].
  repeat match type of H with
  | (if ?c then _ else _) = _ => destruct c eqn:?
  end; try done.
  - destruct (pawn_move _ _ _ _ _) as [v|]; simpl in H; [|done].
    destruct (pawn_ok v); [|done].
    destruct (move_piece _ _ _ _ _) eqn:Hm; simpl in H; [|done].
    by eapply move_piece_target.
  - destruct (move_piece _ _ _ _ _) eqn:Hm; simpl in H; [|done].
    by eapply move_piece_target.
  - destruct (under_bishop_control _ _ _ _ _) as [[]|]; simpl in H; try done.
    destruct (move_piece _ _ _ _ _) eqn:Hm; simpl in H; [|done].
    by eapply move_piece_target.
  - destruct (under_rook_control _ _ _ _ _) as [[]|]; simpl in H; try done.
    destruct (move_piece _ _ _ _ _) eqn:Hm; simpl in H; [|done].
    by eapply move_piece_target.
  - destruct (under_queen_control _ _ _ _ _) as [[]|]; simpl in H; try done.
    destruct (move_piece _ _ _ _ _) eqn:Hm; simpl in H; [|done].
    by eapply move_piece_target.
  - (* king *)
    destruct (under_king_control si sj ti tj).
    + destruct (move_piece _ _ _ _ _) eqn:Hm; simpl in H; [|done].
      by eapply move_piece_target.
    + simpl in H.
      destruct (white_castle_kingside _ _ _ _ _ _) as [r2|] eqn:H2; simpl in H; [|done].
      destruct r2 as [p2|].
      * by eapply white_castle_kingside_target.
      * simpl in H.
        destruct (white_castle_queenside _ _ _ _ _ _) as [r3|] eqn:H3; simpl in H; [|done].
        destruct r3 as [p3|]; [|done].
        by eapply white_castle_queenside_target.
Qed.

Lemma generate_move_notation_target position fi fj ti tj player text :
  generate_move_notation position fi fj ti tj player = Some text →
  is_Some (get (board position) ti tj).
Proof.
  unfold generate_move_notation.
  intros (c & _ & (t & Ht & _)%bind_Some)%bind_Some. eauto.
Qed.

(** ** Self-check is rejected by the validated entry points *)

(** C4.  A move that the per-piece validation accepts ([white_candidate],
    [black_candidate] build a candidate position) but that leaves the
    mover's own king in check is rejected by [Board::handle_white_move]
    and by [Human::handle_black_move]: the notation is empty and the
    position is the one the call started from.  For black the notation is
    computed before the validation, so its computation has to be defined. *)
Theorem self_check_is_rejected :
  (∀ position answer si sj ti tj possible v,
     white_candidate position si sj ti tj = Some (Some (possible, v)) →
     king_is_in_check (board possible) WHITE = Some true →
     handle_white_move position answer si sj ti tj = Some (""%string, position))
  ∧ (∀ position answer fx fy tx ty possible ep,
     black_candidate position fx fy tx ty = Some (Some (possible, ep)) →
     king_is_in_check (board possible) BLACK = Some true →
     is_Some (generate_move_notation position fx fy tx ty BLACK) →
     handle_black_move position answer fx fy tx ty = Some (""%string, position)).
Proof.
  split.
  - intros position answer si sj ti tj possible v Hc Hk.
    destruct (white_candidate_target _ _ _ _ _ _ Hc) as [t Ht].
    unfold handle_white_move. rewrite Ht. simpl.
    destruct (0 <? t); [done|].
    rewrite Hc. simpl. rewrite Hk. done.
  - intros position answer fx fy tx ty possible ep Hc Hk [text Hn].
    destruct (generate_move_notation_target _ _ _ _ _ _ _ Hn) as [t Ht].
    unfold handle_black_move. rewrite Hn. simpl. rewrite Ht. simpl.
    destruct (t <? 0); [done|].
    unfold is_black_move_legal. rewrite Hc. simpl. rewrite Hk. done.
Qed.

Lemma self_check_is_rejected_witness :
  (white_candidate pinned_rook_position 6 4 6 0
     = Some (Some (position_of_cells
         [ -6;  0;  0;  0; -4;  0;  0;  0;
            0;  0;  0;  0;  0;  0;  0;  0;
            0;  0;  0;  0;  0;  0;  0;  0;
            0;  0;  0;  0;  0;  0;  0;  0;
            0;  0;  0;  0;  0;  0;  0;  0;
            0;  0;  0;  0;  0;  0;  0;  0;
            4;  0;  0;  0;  0;  0;  0;  0;
            0;  0;  0;  0;  6;  0;  0;  0 ], mk_verdict false false (-1)))
   ∧ handle_white_move pinned_rook_position "q"%char 6 4 6 0
     = Some (""%string, pinned_rook_position))
  ∧ (black_candidate pinned_black_rook_position 1 4 1 0
     = Some (Some (position_of_cells
         [  0;  0;  0;  0; -6;  0;  0;  0;
           -4;  0;  0;  0;  0;  0;  0;  0;
            0;  0;  0;  0;  0;  0;  0;  0;
            0;  0;  0;  0;  0;  0;  0;  0;
            0;  0;  0;  0;  0;  0;  0;  0;
            0;  0;  0;  0;  0;  0;  0;  0;
            0;  0;  0;  0;  0;  0;  0;  0;
            6;  0;  0;  0;  4;  0;  0;  0 ], -1))
   ∧ handle_black_move pinned_black_rook_position None 1 4 1 0
     = Some (""%string, pinned_black_rook_position)).
Proof.
  split.
  - split; [vm_compute; reflexivity|].
    eapply (proj1 self_check_is_rejected);
      [vm_compute; reflexivity | vm_compute; reflexivity].
  - split; [vm_compute; reflexivity|].
    eapply (proj2 self_check_is_rejected);
      [vm_compute; reflexivity | vm_compute; reflexivity | vm_compute; eauto].
Defined.

(** ** Terminal detection on concrete positions *)

(** C1.  [Board::is_checkmate] does not test that the king is attacked:
    on a stalemated side it answers [true].  White (king h1) is not in
    check, none of its moves is safe, and the routine reports checkmate. *)
Theorem is_checkmate_on_stalemate :
  well_formed stalemate_position
  ∧ king_is_in_check (board stalemate_position) WHITE = Some false
  ∧ is_checkmate stalemate_position WHITE = Some true.
Proof. repeat split; vm_compute; reflexivity. Qed.

(** C2.  [Board::is_stalemate] accepts any pseudo-legal move of a piece
    other than the king without looking at the king afterwards.  With the
    knight b1 pinned by the rook h1, white is not in check and every
    candidate the engine enumerates leaves its king attacked (the scan of
    [is_checkmate] finds no safe move either), yet the routine answers
    [false]; the evaluator then scores the position as a mate. *)
Theorem is_stalemate_ignores_pins :
  well_formed pinned_knight_position
  ∧ king_is_in_check (board pinned_knight_position) WHITE = Some false
  ∧ Forall (λ c, ∃ mv pp, c = Some (mv, pp)
                          ∧ king_is_in_check (board pp) WHITE = Some true)
           (candidates (engine_items false WHITE pinned_knight_position))
  ∧ is_checkmate pinned_knight_position WHITE = Some true
  ∧ is_stalemate pinned_knight_position WHITE = Some false
  ∧ evaluate pinned_knight_position 0 = Some (-100000).
Proof.
  split; [repeat split; vm_compute; reflexivity|].
  split; [vm_compute; reflexivity|].
  split.
  - let l := eval vm_compute in
        (candidates (engine_items false WHITE pinned_knight_position)) in
    replace (candidates (engine_items false WHITE pinned_knight_position))
      with l by (vm_compute; reflexivity).
    repeat (constructor;
            [eexists _, _; split; [reflexivity|vm_compute; reflexivity]|]).
    constructor.
  - repeat split; vm_compute; reflexivity.
Qed.

(** ** Castling out of check inside the search *)

(** C5.  The white queenside test of [Engine::adv_minimax] looks at b1,
    c1 and d1 and not at the king's own square e1.  With the white king in
    check from the rook e8, the loop nest of [adv_minimax] builds the
    castled position (king c1, rook d1) as a candidate and that candidate
    passes the king-safety filter, while the root routines, which test
    c1, d1 and e1, do not build it. *)
Theorem adv_minimax_castles_out_of_check :
  let castled := mk_state
    [  0;  0;  0;  0; -4;  0;  0; -6;
       0;  0;  0;  0;  0;  0;  0;  0;
       0;  0;  0;  0;  0;  0;  0;  0;
       0;  0;  0;  0;  0;  0;  0;  0;
       0;  0;  0;  0;  0;  0;  0;  0;
       0;  0;  0;  0;  0;  0;  0;  0;
       0;  0;  0;  0;  0;  0;  0;  0;
       0;  0;  6;  4;  0;  0;  0;  0 ]
    (replicate 8 false) (replicate 8 false) (false, false) (false, false) in
  well_formed checked_castle_position
  ∧ under_control (board checked_castle_position) 7 4 BLACK = Some true
  ∧ Some (mk_move 7 4 7 2, castled)
      ∈ candidates (engine_items true WHITE checked_castle_position)
  ∧ king_is_in_check (board castled) WHITE = Some false
  ∧ Forall (λ c, ∀ pp, c ≠ Some (mk_move 7 4 7 2, pp))
           (candidates (engine_items false WHITE checked_castle_position)).
Proof.
  intros castled.
  split; [repeat split; vm_compute; reflexivity|].
  split; [vm_compute; reflexivity|].
  split.
  - vm_compute. repeat first [apply list_elem_of_here | apply list_elem_of_further].
  - split; [vm_compute; reflexivity|].
    vm_compute. repeat (constructor; [intros pp [=]|]). constructor.
Qed.

(** ** The claims that fail as stated *)

(** C6, as stated, fails: after black's rook takes the rook on h1 through
    [Human::handle_black_move], white's kingside flag is still set although
    no white rook stands on h1. *)
Lemma corner_capture_keeps_flag :
  ∃ p', handle_black_move corner_capture_position None 0 7 7 7
          = Some ("Rxh1+"%string, p')
        ∧ rook_home_invariant corner_capture_position
        ∧ (can_castle_white p').2 = true
        ∧ get (board p') 7 7 = Some BLACK_ROOK
        ∧ ¬ rook_home_invariant p'.
Proof.
  eexists. split; [vm_compute; reflexivity|].
  split; [repeat split; intros [=]; vm_compute; reflexivity|].
  split; [reflexivity|]. split; [reflexivity|].
  intros (_ & H & _). specialize (H eq_refl). vm_compute in H. discriminate.
Qed.

(** C7, as stated, fails: after 1. e4 through [Board::handle_white_move]
    and the reply 1... e5 through [Human::handle_black_move], white's flag
    of the e-file still reads true. *)
Lemma flag_survives_the_reply :
  ∃ p1 p2,
    handle_white_move initial_position "q"%char 6 4 4 4 = Some ("e4"%string, p1)
    ∧ flag (pawn_two_squares_white p1) 4 = Some true
    ∧ handle_black_move p1 None 1 4 3 4 = Some ("e5"%string, p2)
    ∧ flag (pawn_two_squares_white p2) 4 = Some true.
Proof. eexists _, _. repeat split; vm_compute; reflexivity. Qed.

(** C8, as stated, fails: with a white pawn on its last rank the
    evaluator and the checkmate test read the row before the board, and
    on a position without a legal move the engine returns a best position
    that was never assigned. *)
Lemma last_rank_pawn_is_out_of_bounds :
  well_formed last_rank_pawn_position
  ∧ evaluate last_rank_pawn_position 0 = None
  ∧ is_checkmate last_rank_pawn_position WHITE = None
  ∧ well_formed stalemate_position
  ∧ make_white_move stalemate_position = None.
Proof. repeat split; vm_compute; reflexivity. Qed.


(** ** The advisory query leaves the position alone *)

(** C10.  [Engine::get_best_white_moves] changes the caller's position
    only by clearing white's eight en-passant flags: cells, castling
    rights and black's flags are those of the input. *)
Theorem get_best_white_moves_frame sort position top_moves position' :
  get_best_white_moves sort position = Some (top_moves, position') →
  board position' = board position
  ∧ can_castle_white position' = can_castle_white position
  ∧ can_castle_black position' = can_castle_black position
  ∧ pawn_two_squares_black position' = pawn_two_squares_black position
  ∧ (∀ j, 0 <= j < 8 → flag (pawn_two_squares_white position') j = Some false).
Proof.
  unfold get_best_white_moves, get_best_white_moves_at.
  intros (move_list & _ & [= _ <-])%bind_Some. simpl.
  repeat split; try done.
  intros j Hj. unfold flag, in_file.
  replace ((0 <=? j) && (j <? 8)) with true by lia.
  apply (lookup_replicate_2 8 false). lia.
Qed.

Lemma get_best_white_moves_frame_witness :
  ∃ top_moves position',
    get_best_white_moves sort_desc flagged_position = Some (top_moves, position')
    ∧ pawn_two_squares_white flagged_position
      = [false; false; false; false; true; false; false; false]
    ∧ pawn_two_squares_white position' = replicate 8 false
    ∧ board position' = board flagged_position
    ∧ can_castle_white position' = (true, true)
    ∧ can_castle_black position' = (false, true)
    ∧ pawn_two_squares_black position'
      = [false; false; false; true; false; false; false; false]
    ∧ flag (pawn_two_squares_white position') 4 = Some false.
Proof.
  eexists _, _. split; [vm_compute; reflexivity|].
  split; [reflexivity|]. split; [reflexivity|].
  edestruct (get_best_white_moves_frame sort_desc flagged_position)
    as (Hb & Hw & Hk & Hf & Hc); [vm_compute; reflexivity|].
  split; [exact Hb|]. split; [exact Hw|]. split; [exact Hk|].
  split; [exact Hf|]. apply Hc. lia.
Defined.

(** ** The evaluator's scores fit an [int] *)

Lemma get_elem_of (l : list Z) (i j t : Z) : get l i j = Some t → t ∈ l.
Proof.
  unfold get. destruct (in_board i j); [|done]. apply list_elem_of_lookup_2.
Qed.

Lemma get_small (l : list Z) (i j t : Z) :
  forallb small l = true → get l i j = Some t → -50 <= t <= 50.
Proof.
  intros Hl Ht%get_elem_of. rewrite forallb_forall in Hl.
  apply list_elem_of_In in Ht. apply Hl in Ht. unfold small in Ht. lia.
Qed.

Lemma tally_bound c a : tally c = Some a → 0 <= a <= 1.
Proof.
  unfold tally. intros (b & _ & [= <-])%bind_Some. destruct b; lia.
Qed.

Lemma sumM_bound {A} (f : A → option Z) (K : Z) (l : list A) (a : Z) :
  (∀ x y, f x = Some y → 0 <= y <= K) →
  sumM f l = Some a → 0 <= a <= K * Z.of_nat (length l).
Proof.
  intros Hf. revert a. induction l as [|x l IH]; intros a; simpl.
  - intros [= <-]. lia.
  - intros (y & Hy & (z & Hz & [= <-])%bind_Some)%bind_Some.
    apply Hf in Hy. apply IH in Hz. lia.
Qed.

Lemma step_mobility_bound b ok m n d a :
  step_mobility b ok m n d = Some a → 0 <= a <= 1.
Proof.
  unfold step_mobility. destruct (in_board _ _); [|intros [= <-]; lia].
  intros (c & _ & [= <-])%bind_Some. destruct (ok c); lia.
Qed.

Lemma king_step_mobility_bound b ok o m n d a :
  king_step_mobility b ok o m n d = Some a → 0 <= a <= 1.
Proof.
  unfold king_step_mobility. destruct (in_board _ _); [|intros [= <-]; lia].
  apply tally_bound.
Qed.

Lemma slide_mobility_bound b ok d fuel i j a :
  slide_mobility b ok d fuel i j = Some a → 0 <= a <= Z.of_nat fuel.
Proof.
  revert i j a. induction fuel as [|fuel IH]; intros i j a; simpl.
  - intros [= <-]. lia.
  - destruct (in_board i j); [|intros [= <-]; lia].
    intros (c & _ & (r & Hr & [= <-])%bind_Some)%bind_Some.
    assert (0 <= r <= Z.of_nat fuel).
    { destruct (negb (c =? 0)); [injection Hr as <-; lia|by eapply IH]. }
    destruct (ok c); lia.
Qed.

Lemma slider_mobility_bound dirs b ok m n a :
  slider_mobility dirs b ok m n = Some a → 0 <= a <= 8 * Z.of_nat (length dirs).
Proof.
  unfold slider_mobility. apply sumM_bound.
  intros d y Hy%slide_mobility_bound. lia.
Qed.

Lemma white_pawn_mobility_bound p m n a :
  white_pawn_mobility p m n = Some a → 0 <= a <= 6.
Proof.
  unfold white_pawn_mobility.
  intros (a1 & H1%tally_bound & (a2 & H2%tally_bound & (a3 & H3%tally_bound &
    (a4 & H4%tally_bound & (a5 & H5%tally_bound & (a6 & H6%tally_bound & [= <-])
    %bind_Some)%bind_Some)%bind_Some)%bind_Some)%bind_Some)%bind_Some.
  lia.
Qed.

Lemma black_pawn_mobility_bound p m n a :
  black_pawn_mobility p m n = Some a → 0 <= a <= 6.
Proof.
  unfold black_pawn_mobility.
  intros (a1 & H1%tally_bound & (a2 & H2%tally_bound & (a3 & H3%tally_bound &
    (a4 & H4%tally_bound & (a5 & H5%tally_bound & (a6 & H6%tally_bound & [= <-])
    %bind_Some)%bind_Some)%bind_Some)%bind_Some)%bind_Some)%bind_Some.
  lia.
Qed.

Lemma count_at_Forall (P : Z → Prop) l j c :
  Forall P l → count_at l j = Some c → P c.
Proof.
  unfold count_at. destruct (in_file j); [|done].
  intros Hl Hc. by eapply Forall_lookup_1.
Qed.

Lemma incr_at_Forall (k : Z) l j l' :
  Forall (λ c, 0 <= c <= k) l → incr_at l j = Some l' →
  Forall (λ c, 0 <= c <= k + 1) l'.
Proof.
  unfold incr_at. intros Hl (c & Hc & [= <-])%bind_Some.
  apply Forall_insert.
  - eapply Forall_impl; [exact Hl|]. simpl. lia.
  - pose proof (count_at_Forall _ _ _ _ Hl Hc). simpl in *. lia.
Qed.

Lemma Forall_bound_weaken (k : Z) l :
  Forall (λ c, 0 <= c <= k) l → Forall (λ c, 0 <= c <= k + 1) l.
Proof. intros H. eapply Forall_impl; [exact H|]. simpl. lia. Qed.

Ltac invert_binds H :=
  repeat match type of H with
  | (_ ≫= _) = Some _ =>
    let x := fresh "x" in let Hx := fresh "Hx" in
    apply bind_Some in H as (x & Hx & H)
  end.

Ltac bound_facts :=
  repeat match goal with
  | H : get ?T _ _ = Some _ |- _ =>
    apply (get_small T) in H; [|reflexivity]
  | H : white_pawn_mobility _ _ _ = Some _ |- _ => apply white_pawn_mobility_bound in H
  | H : black_pawn_mobility _ _ _ = Some _ |- _ => apply black_pawn_mobility_bound in H
  | H : slider_mobility _ _ _ _ _ = Some _ |- _ =>
    apply slider_mobility_bound in H; simpl in H
  | H : sumM (step_mobility _ _ _ _) _ = Some _ |- _ =>
    apply (sumM_bound _ 1) in H;
      [simpl in H|intros ? ?; apply step_mobility_bound]
  | H : sumM (king_step_mobility _ _ _ _ _) _ = Some _ |- _ =>
    apply (sumM_bound _ 1) in H;
      [simpl in H|intros ? ?; apply king_step_mobility_bound]
  end.

Lemma eval_square_bound position a m n a' k :
  0 <= k → acc_bound k a → eval_square position a m n = Some a' →
  acc_bound (k + 1) a'.
Proof.
  intros Hk (Hs & Hw & Hb & Hwf & Hbf). unfold eval_square.
  intros (c & _ & H)%bind_Some.
  repeat match type of H with
  | (if ?b then _ else _) = _ => destruct b
  end;
  invert_binds H; injection H as <-; bound_facts;
  unfold acc_bound, add_white, add_black; simpl;
  repeat split;
  eauto using incr_at_Forall, Forall_bound_weaken; try lia.
Qed.

Lemma eval_scan_bound position sq a a' k :
  0 <= k → acc_bound k a → eval_scan position a sq = Some a' →
  acc_bound (k + Z.of_nat (length sq)) a'.
Proof.
  unfold eval_scan.
  revert a k. induction sq as [|[m n] sq IH]; intros a k Hk Ha.
  - intros [= <-]. by replace (k + Z.of_nat (length (@nil (Z * Z)))) with k by (simpl; lia).
  - intros (a1 & H1 & H)%bind_Some.
    apply (eval_square_bound _ _ _ _ _ k Hk Ha) in H1.
    apply (IH a1 (k + 1)) in H; [|lia|done].
    by replace (k + Z.of_nat (length ((m, n) :: sq)))
      with (k + 1 + Z.of_nat (length sq)) by (simpl length; lia).
Qed.

Lemma pawn_file_bound (K : Z) wf bf a i a' :
  Forall (λ c, 0 <= c <= K) wf → Forall (λ c, 0 <= c <= K) bf →
  pawn_file wf bf a i = Some a' →
  pscore a - (15 * K + 30) <= pscore a' <= pscore a + (15 * K + 30)
  ∧ white_pawn_islands a <= white_pawn_islands a' <= white_pawn_islands a + 1
  ∧ black_pawn_islands a <= black_pawn_islands a' <= black_pawn_islands a + 1.
Proof.
  intros Hwf Hbf. unfold pawn_file.
  intros (w & Hw & (k & Hk & H)%bind_Some)%bind_Some.
  pose proof (count_at_Forall _ _ _ _ Hwf Hw) as Bw.
  pose proof (count_at_Forall _ _ _ _ Hbf Hk) as Bk. simpl in Bw, Bk.
  destruct ((0 <? w) && negb (white_pawn_island_flag a));
    destruct ((0 <? k) && negb (black_pawn_island_flag a));
    apply bind_Some in H as (s4 & H4 & [= <-]); simpl;
    (destruct (negb (i =? 0) && negb (i =? 7));
     [ apply bind_Some in H4 as (iw & _ & (ib & _ & [= <-])%bind_Some)
     | injection H4 as <- ]);
    repeat match goal with |- context [if ?b then _ else _] => destruct b end;
    lia.
Qed.

Lemma pawn_files_bound (K : Z) wf bf l a a' :
  Forall (λ c, 0 <= c <= K) wf → Forall (λ c, 0 <= c <= K) bf →
  pawn_files wf bf a l = Some a' →
  let n := Z.of_nat (length l) in
  pscore a - (15 * K + 30) * n <= pscore a' <= pscore a + (15 * K + 30) * n
  ∧ white_pawn_islands a <= white_pawn_islands a' <= white_pawn_islands a + n
  ∧ black_pawn_islands a <= black_pawn_islands a' <= black_pawn_islands a + n.
Proof.
  intros Hwf Hbf. revert a. induction l as [|i l IH]; intros a.
  - intros [= <-]. simpl. lia.
  - simpl pawn_files. intros (a1 & H1 & H)%bind_Some.
    apply (pawn_file_bound K) in H1; [|done..].
    apply IH in H. simpl in H.
    replace (Z.of_nat (length (i :: l))) with (1 + Z.of_nat (length l))
      by (simpl length; lia).
    simpl. nia.
Qed.

Lemma acc0_bound : acc_bound 0 acc0.
Proof.
  unfold acc_bound, acc0. simpl.
  repeat split; try lia; repeat (constructor; [lia|]); constructor.
Qed.

(** The score of [Evaluation::evaluate] is at most a mate distance away
    from zero. *)
Lemma evaluate_range position depth v :
  0 <= depth → evaluate position depth = Some v →
  -109860 - depth <= v <= 109860 + depth.
Proof.
  intros Hd. unfold evaluate.
  intros ([] & _ & H)%bind_Some; [injection H as <-; lia|].
  apply bind_Some in H as ([] & _ & H); [injection H as <-; lia|].
  apply bind_Some in H as ([] & _ & H); [injection H as <-; lia|].
  apply bind_Some in H as (a & Ha & H).
  apply (eval_scan_bound _ _ _ _ 0) in Ha; [|lia|apply acc0_bound].
  change (0 + Z.of_nat (length squares)) with 64 in Ha.
  destruct Ha as (Hs & Hw & Hb & Hwf & Hbf).
  apply bind_Some in H as (kw & Hkw & H).
  apply bind_Some in H as (kb & Hkb & H).
  apply bind_Some in H as (pa & Hpa & [= <-]).
  apply (pawn_files_bound 64) in Hpa; [|done..].
  change (Z.of_nat (length range8)) with 8 in Hpa. simpl in Hpa.
  assert (-50 <= kw <= 50)
    by (destruct (_ || _) in Hkw; eapply get_small; [|exact Hkw| |exact Hkw]; reflexivity).
  assert (-50 <= kb <= 50)
    by (destruct (_ || _) in Hkb; eapply get_small; [|exact Hkb| |exact Hkb]; reflexivity).
  lia.
Qed.

Lemma evaluate_in_int position (depth : nat) v :
  Z.of_nat depth <= 1000000 → evaluate position (Z.of_nat depth) = Some v → in_int v.
Proof.
  intros Hd Hv%evaluate_range; [|lia]. unfold in_int, INT_MIN, INT_MAX. lia.
Qed.

(** ** Pruning does not change the score *)

Lemma item_ind_nested (P : item → Prop) :
  (∀ mv pp, P (Cand mv pp)) →
  (∀ body, Forall P body → P (Loop body)) →
  P Abort →
  ∀ it, P it.
Proof.
  intros Hc Hl Ha. fix IH 1. intros [mv pp|body|].
  - apply Hc.
  - apply Hl. induction body as [|i body IHb]; constructor; [apply IH|apply IHb].
  - apply Ha.
Qed.

Lemma run_item_Loop child s mx body w :
  run_item child s mx (Loop body) w
  = r ← run_items child s mx body w; Some ((r : window * bool).1, false).
Proof.
  simpl. f_equal. revert w. induction body as [|i body IH]; intros w; [done|].
  simpl. destruct (run_item child s mx i w) as [[w1 b1]|]; simpl; [|done].
  destruct b1; [done|apply IH].
Qed.

Lemma best_of_app child s mx l1 l2 acc :
  best_of child s mx (l1 ++ l2) acc
  = best_of child s mx l1 acc ≫= best_of child s mx l2.
Proof.
  revert acc. induction l1 as [|[[mv pp]|] l1 IH]; intros acc; simpl; [done| |done].
  destruct (king_is_in_check (board pp) s) as [[]|]; simpl; [apply IH| |done].
  destruct (child pp) as [v|]; simpl; [apply IH|done].
Qed.

Lemma best_of_monotone child s mx l acc x :
  best_of child s mx l acc = Some x →
  if mx then acc <= x else x <= acc.
Proof.
  revert acc. induction l as [|[[mv pp]|] l IH]; intros acc; simpl.
  - intros [= ->]. destruct mx; lia.
  - destruct (king_is_in_check (board pp) s) as [[]|]; simpl; [apply IH| |done].
    destruct (child pp) as [v|]; simpl; [|done].
    intros H%IH. destruct mx; lia.
  - done.
Qed.

Section Pruning.
Context (child : board_state → Z → Z → option Z).
Context (exact : board_state → option Z).
Context (s : side) (mx : bool) (alpha beta : Z).
Hypothesis child_ok : ∀ pp x, exact pp = Some x →
  ∀ a b, ∃ v, child pp a b = Some v ∧ in_int v
              ∧ (INT_MIN <= a → a < b → b <= INT_MAX → within_window a b v x).

Lemma cutoff_dead w acc :
  node_state mx alpha beta w acc → cutoff w = true → valid_window alpha beta →
  dead mx alpha beta w acc.
Proof using Type.
  intros [_ H] Hc Hv. destruct (H Hv) as [Hl|Hd]; [|done]. exfalso.
  unfold cutoff in Hc. apply Z.leb_le in Hc.
  unfold live in Hl. destruct mx; lia.
Qed.

Lemma dead_monotone w acc x :
  dead mx alpha beta w acc → (if mx then acc <= x else x <= acc) →
  dead mx alpha beta w x.
Proof using Type. unfold dead. destruct mx; lia. Qed.

Lemma absorb_state w acc v x :
  node_state mx alpha beta w acc → in_int v →
  (INT_MIN <= w_alpha w → w_alpha w < w_beta w → w_beta w <= INT_MAX →
   within_window (w_alpha w) (w_beta w) v x) →
  node_state mx alpha beta (absorb mx w v) (if mx then Z.max acc x else Z.min acc x).
Proof using Type.
  unfold node_state, valid_window, in_int, absorb.
  intros [Hi H] Hv Hw. split; [destruct mx; simpl; lia|].
  intros Hval. destruct (H Hval) as [Hl|Hd].
  - unfold live in Hl. unfold within_window in Hw.
    destruct mx; simpl.
    + destruct Hl as (Hb & Hab & Ha & Hs & Hacc & Heq).
      destruct Hw as (W1 & W2 & W3); [lia..|].
      destruct (Z_le_gt_dec v (w_alpha w)) as [C1|C1].
      * left. unfold live. simpl. specialize (W1 C1). lia.
      * destruct (Z_lt_ge_dec v (w_beta w)) as [C2|C2].
        -- left. unfold live. simpl. assert (x = v) by (apply W2; lia). lia.
        -- right. unfold dead. simpl. assert (w_beta w <= x) by (apply W3; lia). lia.
    + destruct Hl as (Ha & Hab & Hb & Hs & Hacc & Heq).
      destruct Hw as (W1 & W2 & W3); [lia..|].
      destruct (Z_lt_ge_dec v (w_beta w)) as [C2|C2].
      * destruct (Z_le_gt_dec v (w_alpha w)) as [C1|C1].
        -- right. unfold dead. simpl. specialize (W1 C1). lia.
        -- left. unfold live. simpl. assert (x = v) by (apply W2; lia). lia.
      * left. unfold live. simpl. assert (w_beta w <= x) by (apply W3; lia). lia.
  - right. unfold dead in *. destruct mx; simpl; lia.
Qed.

Lemma run_items_ok l :
  Forall (item_ok child exact s mx alpha beta) l →
  ∀ w acc x,
    best_of exact s mx (candidates l) acc = Some x →
    node_state mx alpha beta w acc →
    ∃ w' brk, run_items child s mx l w = Some (w', brk)
              ∧ node_state mx alpha beta w' x
              ∧ (brk = true → valid_window alpha beta → dead mx alpha beta w' x).
Proof using Type.
  induction 1 as [|i l Hi _ IH]; intros w acc x Hx Hw; simpl in *.
  - injection Hx as <-. exists w, false. done.
  - unfold candidates in Hx. simpl in Hx. rewrite best_of_app in Hx.
    apply bind_Some in Hx as (x1 & Hx1 & Hx).
    destruct (Hi w acc x1 Hx1 Hw) as (w1 & b1 & -> & Hs1 & Hd1). simpl.
    destruct b1.
    + exists w1, true. split; [done|].
      assert (Hd : valid_window alpha beta → dead mx alpha beta w1 x).
      { intros Hv. eapply dead_monotone; [by apply Hd1|].
        by eapply best_of_monotone. }
      split; [|done]. split; [apply Hs1|]. intros Hv. right. by apply Hd.
    + by apply (IH w1 x1 x).
Qed.

Lemma run_item_ok it : item_ok child exact s mx alpha beta it.
Proof using child_ok.
  induction it as [mv pp|body IH|] using item_ind_nested;
    intros w acc x Hx Hw.
  - simpl in *.
    destruct (king_is_in_check (board pp) s) as [[]|]; simpl in *; [| |done].
    + injection Hx as <-. exists w, false. done.
    + destruct (exact pp) as [xc|] eqn:Hxc; simpl in Hx; [|done].
      injection Hx as <-.
      destruct (child_ok pp xc Hxc (w_alpha w) (w_beta w)) as (v & -> & Hi & Hv).
      simpl. eexists _, _. split; [done|].
      assert (Hs : node_state mx alpha beta (absorb mx w v)
                     (if mx then Z.max acc xc else Z.min acc xc))
        by by apply absorb_state.
      split; [done|]. by apply cutoff_dead.
  - rewrite run_item_Loop.
    destruct (run_items_ok body IH w acc x Hx Hw) as (w1 & b1 & -> & Hs1 & _).
    simpl. exists w1, false. done.
  - done.
Qed.

(** The score a node returns, against the exact value of the node. *)
Lemma node_within_window l x :
  best_of exact s mx (candidates l) (if mx then INT_MIN else INT_MAX) = Some x →
  ∃ r, run_items child s mx l
         (mk_window (if mx then INT_MIN else INT_MAX) alpha beta) = Some r
       ∧ in_int (w_score r.1)
       ∧ (valid_window alpha beta → within_window alpha beta (w_score r.1) x).
Proof using child_ok.
  intros Hx.
  set (w0 := mk_window (if mx then INT_MIN else INT_MAX) alpha beta).
  assert (Hw : node_state mx alpha beta w0 (if mx then INT_MIN else INT_MAX)).
  { split; [unfold in_int, w0, INT_MIN, INT_MAX; destruct mx; simpl; lia|].
    intros Hv. left. unfold valid_window, live, w0 in *. destruct mx; simpl; lia. }
  assert (Hall : Forall (item_ok child exact s mx alpha beta) l)
    by (apply Forall_forall; intros it _; apply run_item_ok).
  destruct (run_items_ok l Hall _ _ _ Hx Hw) as (w1 & b1 & Hr & [Hi Hs] & _).
  exists (w1, b1). split; [done|]. split; [done|]. simpl.
  intros Hv. unfold valid_window in Hv.
  destruct (Hs Hv) as [H|H];
    unfold live, dead, within_window in *; destruct mx; lia.
Qed.
End Pruning.

Lemma best_of_in_int child s mx l acc x :
  (∀ pp v, child pp = Some v → in_int v) →
  in_int acc → best_of child s mx l acc = Some x → in_int x.
Proof.
  intros Hc. revert acc. induction l as [|[[mv pp]|] l IH]; intros acc Ha; simpl.
  - by intros [= <-].
  - destruct (king_is_in_check (board pp) s) as [[]|]; simpl; [by apply IH| |done].
    destruct (child pp) as [v|] eqn:Hv; simpl; [|done].
    apply IH. apply Hc in Hv. unfold in_int in *. destruct mx; lia.
  - done.
Qed.

Lemma minimax_0 p mx :
  minimax 0 p mx = evaluate p 0.
Proof. change (minimax 0 p mx) with (v ← evaluate p 0; Some v). by destruct (evaluate p 0). Qed.

Lemma minimax_S d p mx :
  minimax (S d) p mx
  = score ← evaluate p (Z.of_nat (S d));
    over ← game_is_over p;
    if over : bool then Some score
    else best_of (λ pp, minimax d pp (negb mx)) (side_to_move mx) mx
           (candidates (engine_items true (side_to_move mx)
                          (reset_en_passant p (side_to_move mx))))
           (if mx then INT_MIN else INT_MAX).
Proof. reflexivity. Qed.

Lemma adv_minimax_0 p mx alpha beta :
  adv_minimax 0 p mx alpha beta = score ← evaluate p 0; Some (score, p).
Proof. reflexivity. Qed.

Lemma adv_minimax_S d p mx alpha beta :
  adv_minimax (S d) p mx alpha beta
  = score ← evaluate p (Z.of_nat (S d));
    over ← game_is_over p;
    if over : bool then Some (score, p)
    else
      r ← run_items (λ pp a b, fst <$> adv_minimax d pp (negb mx) a b)
             (side_to_move mx) mx
             (engine_items true (side_to_move mx)
                (reset_en_passant p (side_to_move mx)))
             (mk_window (if mx then INT_MIN else INT_MAX) alpha beta);
      Some (w_score (r : window * bool).1, reset_en_passant p (side_to_move mx)).
Proof. reflexivity. Qed.

Lemma minimax_in_int depth p mx x :
  Z.of_nat depth <= 1000000 → minimax depth p mx = Some x → in_int x.
Proof.
  revert p mx x. induction depth as [|d IH]; intros p mx x Hd.
  - rewrite minimax_0. apply (evaluate_in_int p 0%nat). lia.
  - rewrite minimax_S. intros (v & Hv & H)%bind_Some.
    apply bind_Some in H as (over & Ho & H). destruct over.
    + injection H as <-. by apply (evaluate_in_int p (S d)).
    + eapply best_of_in_int; [| |exact H].
      * intros pp y Hy. eapply IH; [lia|exact Hy].
      * unfold in_int, INT_MIN, INT_MAX. destruct mx; lia.
Qed.

Lemma adv_minimax_within_window depth p mx x :
  Z.of_nat depth <= 1000000 →
  minimax depth p mx = Some x →
  ∀ alpha beta, ∃ v p',
    adv_minimax depth p mx alpha beta = Some (v, p') ∧ in_int v
    ∧ (INT_MIN <= alpha → alpha < beta → beta <= INT_MAX →
       within_window alpha beta v x).
Proof.
  revert p mx x. induction depth as [|d IH]; intros p mx x Hd Hx alpha beta.
  - rewrite minimax_0 in Hx. rewrite adv_minimax_0, Hx. simpl.
    exists x, p. split; [done|]. split; [apply (evaluate_in_int p 0%nat); [lia|done]|].
    intros _ _ _. unfold within_window. lia.
  - rewrite minimax_S in Hx. rewrite adv_minimax_S.
    apply bind_Some in Hx as (v & Hv & Hx). rewrite Hv.
    apply bind_Some in Hx as (over & Ho & Hx).
    cbn [mbind option_bind]. rewrite Ho. cbn [mbind option_bind].
    destruct over.
    + injection Hx as <-. exists v, p. split; [done|].
      split; [by apply (evaluate_in_int p (S d))|].
      intros _ _ _. unfold within_window. lia.
    + edestruct (node_within_window
                   (λ pp a b, fst <$> adv_minimax d pp (negb mx) a b)
                   (λ pp, minimax d pp (negb mx))
                   (side_to_move mx) mx alpha beta) as (r & Hr & Hi & Hw);
        [|exact Hx|].
      * intros pp y Hy a b.
        destruct (IH pp (negb mx) y ltac:(lia) Hy a b) as (u & p' & -> & Hu & Hw).
        exists u. done.
      * rewrite Hr. cbn [mbind option_bind]. eexists _, _. split; [done|]. split; [done|].
        intros H1 H2 H3. by apply Hw.
Qed.

Lemma adv_minimax_exact depth p mx x :
  Z.of_nat depth <= 1000000 →
  minimax depth p mx = Some x →
  fst <$> adv_minimax depth p mx INT_MIN INT_MAX = Some x.
Proof.
  intros Hd Hx.
  destruct (adv_minimax_within_window depth p mx x Hd Hx INT_MIN INT_MAX)
    as (v & p' & -> & Hv & Hw). simpl. f_equal.
  pose proof (minimax_in_int _ _ _ _ Hd Hx) as Hxi.
  unfold in_int, within_window, INT_MIN, INT_MAX in *. lia.
Qed.

(** The root loop: fresh full windows, the best score kept. *)
Lemma root_scan_exact below s l acc x :
  Z.of_nat below <= 1000000 →
  best_of (λ pp, minimax below pp (match s with WHITE => false | BLACK => true end))
          s (match s with WHITE => true | BLACK => false end) l (best_score acc)
    = Some x →
  ∃ b, root_scan below s l acc = Some b ∧ best_score b = x.
Proof.
  intros Hd. revert acc. induction l as [|[[mv pp]|] l IH]; intros acc; simpl.
  - intros [= <-]. eauto.
  - destruct (king_is_in_check (board pp) s) as [[]|]; simpl; [apply IH| |done].
    intros (y & Hy & H)%bind_Some.
    apply adv_minimax_exact in Hy; [|done].
    apply fmap_Some in Hy as ([v p'] & Hr & ->). rewrite Hr. simpl.
    destruct s; simpl in *.
    + destruct (Z.ltb_spec (best_score acc) v).
      * apply IH. simpl. by replace (Z.max (best_score acc) v) with v in H by lia.
      * apply IH. by replace (Z.max (best_score acc) v) with (best_score acc) in H by lia.
    + destruct (Z.ltb_spec v (best_score acc)).
      * apply IH. simpl. by replace (Z.min (best_score acc) v) with v in H by lia.
      * apply IH. by replace (Z.min (best_score acc) v) with (best_score acc) in H by lia.
  - done.
Qed.

(** C3. For every position and every depth up to a million plies on
    which the unpruned minimax runs to a value, [Engine::adv_minimax]
    called with the full window returns that value, and the root loop of
    [make_white_move] / [make_black_move], which hands each candidate a
    fresh full window, ends with the best score of the unpruned root:
    that score is the [eval] of the move the routine returns. *)
Theorem alpha_beta_agrees_with_minimax :
  (∀ depth p mx x,
     Z.of_nat depth <= 1000000 →
     minimax depth p mx = Some x →
     fst <$> adv_minimax depth p mx INT_MIN INT_MAX = Some x)
  ∧ (∀ below s p x,
     Z.of_nat below <= 1000000 →
     root_minimax below s p = Some x →
     (∃ b, root_scan below s
             (candidates (engine_items false s (reset_en_passant p s)))
             (mk_best (match s with WHITE => INT_MIN | BLACK => INT_MAX end) None
                      (mk_move (-1) (-1) (-1) (-1))) = Some b
           ∧ best_score b = x)
     ∧ (∀ em p', make_move below s p = Some (em, p') → eval em = x)).
Proof.
  split; [exact adv_minimax_exact|].
  intros below s p x Hd Hx.
  destruct (root_scan_exact below s _
              (mk_best (match s with WHITE => INT_MIN | BLACK => INT_MAX end) None
                       (mk_move (-1) (-1) (-1) (-1))) x Hd Hx) as (b & Hb & Hs).
  split; [by exists b|].
  intros em p'. unfold make_move. rewrite Hb. simpl.
  intros (text & _ & (bp & _ & [= <- _])%bind_Some)%bind_Some. done.
Qed.

Lemma alpha_beta_agrees_with_minimax_witness :
  minimax 3 king_pawn_position true = Some 90
  ∧ fst <$> adv_minimax 3 king_pawn_position true INT_MIN INT_MAX = Some 90.
Proof.
  assert (H : minimax 3 king_pawn_position true = Some 90)
    by (vm_compute; reflexivity).
  split; [exact H|].
  apply (proj1 alpha_beta_agrees_with_minimax 3%nat king_pawn_position true 90);
    [simpl; lia | exact H].
Defined.

(** ** What the move handlers do to the flags *)

Lemma rights_le_refl c : rights_le c c.
Proof. by split. Qed.

Lemma move_piece_keeps_white p pp si sj ti tj :
  move_piece p si sj ti tj = Some pp → white_move_keeps p pp.
Proof.
  intros (c & b & _ & _ & ->)%move_piece_Some.
  repeat split; done.
Qed.

Lemma move_piece_fields p pp si sj ti tj :
  move_piece p si sj ti tj = Some pp →
  pawn_two_squares_black pp = pawn_two_squares_black p
  ∧ pawn_two_squares_white pp = pawn_two_squares_white p
  ∧ can_castle_white pp = can_castle_white p
  ∧ can_castle_black pp = can_castle_black p.
Proof. intros (c & b & _ & _ & ->)%move_piece_Some. done. Qed.

Lemma white_castle_kingside_Some position possible si sj ti tj pp :
  white_castle_kingside position possible si sj ti tj = Some (Some pp) →
  ∃ pb, pp = with_castle_white (with_board possible pb) (false, false).
Proof.
  unfold white_castle_kingside. intros (ok & _ & H)%bind_Some.
  destruct ok; [|done].
  apply bind_Some in H as (k & _ & (pb & Hpb & [= <-])%bind_Some). eauto.
Qed.

Lemma white_castle_queenside_Some position possible si sj ti tj pp :
  white_castle_queenside position possible si sj ti tj = Some (Some pp) →
  ∃ pb, pp = with_castle_white (with_board possible pb) (false, false).
Proof.
  unfold white_castle_queenside. intros (ok & _ & H)%bind_Some.
  destruct ok; [|done].
  apply bind_Some in H as (k & _ & (pb & Hpb & [= <-])%bind_Some). eauto.
Qed.

Lemma black_castle_kingside_Some position possible si sj ti tj pp :
  black_castle_kingside position possible si sj ti tj = Some (Some pp) →
  ∃ pb, pp = with_castle_black (with_board possible pb) (false, false).
Proof.
  unfold black_castle_kingside. intros (ok & _ & H)%bind_Some.
  destruct ok; [|done].
  apply bind_Some in H as (k & _ & (pb & Hpb & [= <-])%bind_Some). eauto.
Qed.

Lemma black_castle_queenside_Some position possible si sj ti tj pp :
  black_castle_queenside position possible si sj ti tj = Some (Some pp) →
  ∃ pb, pp = with_castle_black (with_board possible pb) (false, false).
Proof.
  unfold black_castle_queenside. intros (ok & _ & H)%bind_Some.
  destruct ok; [|done].
  apply bind_Some in H as (k & _ & (pb & Hpb & [= <-])%bind_Some). eauto.
Qed.

(** The verdict of [pawn_move]: only the two-square advance from row 6
    leaves an en-passant index, and it always does. *)
Lemma pawn_move_index position si sj ti tj v :
  pawn_move position si sj ti tj = Some v → pawn_ok v = true →
  (en_passant_index v = -1 ∧ ti = si - 1)
  ∨ (en_passant_index v = tj ∧ si = 6 ∧ ti = 4 ∧ sj = tj).
Proof.
  unfold pawn_move, WHITE_PAWN_STARTING_ROWN.
  intros (one & H1 & H)%bind_Some.
  destruct one.
  { injection H as <-. intros _. left. split; [done|].
    destruct ((ti =? si - 1) && (sj =? tj)) eqn:E; [|done]. lia. }
  apply bind_Some in H as (two & H2 & H). destruct two.
  { injection H as <-. intros _. right.
    destruct ((si =? 6) && (si - 2 =? ti) && (sj =? tj)) eqn:E; [|done]. simpl. lia. }
  apply bind_Some in H as (ep & H3 & H). destruct ep.
  { injection H as <-. intros _. left. split; [done|].
    destruct ((si =? 3) && (ti =? 2) && ((tj =? sj - 1) || (tj =? sj + 1))) eqn:E;
      [|done]. lia. }
  apply bind_Some in H as (d1 & H4 & H). destruct d1.
  { injection H as <-. intros _. left. split; [done|].
    destruct ((si - 1 =? ti) && (tj + 1 =? sj)) eqn:E; [|done]. lia. }
  apply bind_Some in H as (d2 & H5 & H). destruct d2.
  { injection H as <-. intros _. left. split; [done|].
    destruct ((si - 1 =? ti) && (tj + -1 =? sj)) eqn:E; [|done]. lia. }
  injection H as <-. done.
Qed.

Lemma white_candidate_facts p si sj ti tj possible v :
  white_candidate p si sj ti tj = Some (Some (possible, v)) →
  white_move_keeps p possible
  ∧ (get (board p) si sj = Some WHITE_ROOK → si = 7 → sj = 0 →
     (can_castle_white possible).1 = false)
  ∧ (get (board p) si sj = Some WHITE_ROOK → si = 7 → sj = 7 →
     (can_castle_white possible).2 = false)
  ∧ (get (board p) si sj = Some WHITE_KING →
     can_castle_white possible = (false, false))
  ∧ ((en_passant_index v = -1
      ∧ ¬ (get (board p) si sj = Some WHITE_PAWN ∧ Z.abs (ti - si) = 2))
     ∨ (en_passant_index v = tj ∧ get (board p) si sj = Some WHITE_PAWN
        ∧ si = 6 ∧ ti = 4 ∧ sj = tj)).
Proof.
  unfold white_candidate. intros (c & Hc & H)%bind_Some. rewrite Hc.
  destruct (Z.eqb_spec c WHITE_PAWN) as [->|Np].
  { apply bind_Some in H as (v' & Hv & H).
    destruct (pawn_ok v') eqn:Hok; [|done].
    apply bind_Some in H as (pp & Hpp & H).
    apply bind_Some in H as (ep & _ & H).
    pose proof (move_piece_fields _ _ _ _ _ _ Hpp) as (F1 & F2 & F3 & F4).
    assert (white_move_keeps p possible ∧ v = v') as [Hk ->].
    { destruct ep.
      - apply bind_Some in H as (pb & _ & [= <- <-]).
        split; [|done]. unfold white_move_keeps. simpl.
        rewrite F1, F3, F4. split; [done|]. split; [done|apply rights_le_refl].
      - injection H as <- <-. split; [|done]. unfold white_move_keeps.
        rewrite F1, F3, F4. split; [done|]. split; [done|apply rights_le_refl]. }
    split; [done|]. repeat split; try (intros [=]; fail).
    destruct (pawn_move_index _ _ _ _ _ _ Hv Hok) as [[E N]|(E & ? & ? & ?)].
    - left. split; [done|]. intros (_ & ?). lia.
    - right. done. }
  assert (Hnone : ∀ q, en_passant_index (mk_verdict false false (-1)) = -1
                       ∧ ¬ (Some c = Some WHITE_PAWN ∧ q)).
  { intros q. split; [done|]. intros [[= ->] _]. done. }
  destruct (Z.eqb_spec c WHITE_KNIGHT) as [->|Nn].
  { destruct (under_knight_control _ _ _ _); [|done].
    apply bind_Some in H as (pp & Hpp & [= <- <-]).
    split; [by eapply move_piece_keeps_white|].
    repeat split; try (intros [=]; fail). left. apply Hnone. }
  destruct (Z.eqb_spec c WHITE_BISHOP) as [->|Nb].
  { apply bind_Some in H as ([] & _ & H); [|done].
    apply bind_Some in H as (pp & Hpp & [= <- <-]).
    split; [by eapply move_piece_keeps_white|].
    repeat split; try (intros [=]; fail). left. apply Hnone. }
  destruct (Z.eqb_spec c WHITE_ROOK) as [->|Nr].
  { apply bind_Some in H as ([] & _ & H); [|done].
    apply bind_Some in H as (pp & Hpp & [= <- <-]).
    pose proof (move_piece_fields _ _ _ _ _ _ Hpp) as (F1 & F2 & F3 & F4).
    split.
    { unfold white_move_keeps, rights_le.
      destruct ((si =? 7) && (sj =? 0)), ((si =? 7) && (sj =? 7)); simpl;
        rewrite ?F1, ?F3, ?F4; repeat split; try done. }
    split.
    { intros _ -> ->. simpl. by destruct ((7 =? 7) && (0 =? 7)). }
    split.
    { intros _ -> ->. simpl. done. }
    split; [intros [=]|]. left. apply Hnone. }
  destruct (Z.eqb_spec c WHITE_QUEEN) as [->|Nq].
  { apply bind_Some in H as ([] & _ & H); [|done].
    apply bind_Some in H as (pp & Hpp & [= <- <-]).
    split; [by eapply move_piece_keeps_white|].
    repeat split; try (intros [=]; fail). left. apply Hnone. }
  destruct (Z.eqb_spec c WHITE_KING) as [->|Nk]; [|done].
  apply bind_Some in H as (r1 & H1 & H).
  apply bind_Some in H as (r2 & H2 & H).
  apply bind_Some in H as (r3 & H3 & H).
  assert (Hr1 : ∀ pp, r1 = Some pp →
            white_move_keeps p pp ∧ can_castle_white pp = (false, false)).
  { intros pp ->. destruct (under_king_control _ _ _ _); [|done].
    apply bind_Some in H1 as (pp' & Hpp & [= <-]).
    pose proof (move_piece_fields _ _ _ _ _ _ Hpp) as (F1 & F2 & F3 & F4).
    unfold white_move_keeps, rights_le. simpl. rewrite F1, F4. done. }
  assert (Hposs : white_move_keeps p (default p r1)).
  { destruct r1 as [pp|]; simpl; [by apply Hr1|].
    repeat split; done. }
  assert (Hcastle : ∀ q pb,
            white_move_keeps p q →
            white_move_keeps p (with_castle_white (with_board q pb) (false, false))
            ∧ can_castle_white (with_castle_white (with_board q pb) (false, false))
              = (false, false)).
  { intros q pb (K1 & K2 & K3). unfold white_move_keeps, rights_le. simpl.
    rewrite K1, K2. done. }
  assert (Hfin : (white_move_keeps p possible
                  ∧ can_castle_white possible = (false, false))
                 ∧ v = mk_verdict false false (-1)).
  { assert (Hk2 : ∀ p2, r2 = Some p2 →
              white_move_keeps p p2 ∧ can_castle_white p2 = (false, false)).
    { intros p2 ->. apply white_castle_kingside_Some in H2 as (pb2 & ->).
      by apply Hcastle. }
    assert (Hk3 : ∀ p3, r3 = Some p3 →
              white_move_keeps p p3 ∧ can_castle_white p3 = (false, false)).
    { intros p3 ->. apply white_castle_queenside_Some in H3 as (pb3 & ->).
      apply Hcastle. destruct r2 as [p2|]; simpl; [by apply Hk2|done]. }
    destruct r3 as [p3|], r2 as [p2|], r1 as [p1|]; simpl in H; try done;
      injection H as <- <-;
      (split; [|done]); first [by apply Hk3 | by apply Hk2 | by apply Hr1]. }
  destruct Hfin as ((K & Kc) & ->).
  split; [done|]. split; [intros [=]|]. split; [intros [=]|].
  split; [done|]. left. apply Hnone.
Qed.

Lemma move_piece_keeps_black p pp si sj ti tj :
  move_piece p si sj ti tj = Some pp → black_move_keeps p pp.
Proof.
  intros (c & b & _ & _ & ->)%move_piece_Some.
  repeat split; done.
Qed.

Lemma set_flag_only j f :
  set_flag (replicate 8 false) j true = Some f → only_flag f j.
Proof.
  unfold set_flag, only_flag. destruct (_ && _); [|done]. by intros [= <-].
Qed.

Lemma black_pawn_candidate_facts p si sj ti tj possible ep :
  black_pawn_candidate p si sj ti tj = Some (Some (possible, ep)) →
  black_move_keeps p possible
  ∧ ((ep = -1 ∧ pawn_two_squares_black possible = pawn_two_squares_black p
      ∧ ti = si + 1)
     ∨ (ep = tj ∧ si = 1 ∧ ti = 3 ∧ sj = tj
        ∧ only_flag (pawn_two_squares_black possible) tj)).
Proof.
  unfold black_pawn_candidate.
  destruct ((ti =? si + 1) && (tj =? sj)) eqn:E1.
  { intros (c & _ & H)%bind_Some. destruct (c =? 0); [|done].
    apply bind_Some in H as (pp & Hpp & [= <- <-]).
    split; [by eapply move_piece_keeps_black|]. left.
    pose proof (move_piece_fields _ _ _ _ _ _ Hpp) as (F1 & _).
    split; [done|]. split; [done|]. lia. }
  destruct ((si =? 1) && (ti =? si + 2) && (sj =? tj)) eqn:E2.
  { intros ([] & _ & H)%bind_Some; [|done].
    apply bind_Some in H as (pp & Hpp & H).
    apply bind_Some in H as (f & Hf & [= <- <-]).
    pose proof (move_piece_fields _ _ _ _ _ _ Hpp) as (F1 & F2 & F3 & F4).
    simpl in F1, F2, F3, F4.
    split.
    { unfold black_move_keeps. simpl. rewrite F2, F3, F4.
      split; [done|]. split; [done|apply rights_le_refl]. }
    right. rewrite F1 in Hf. apply set_flag_only in Hf. simpl.
    repeat split; try done; lia. }
  intros (ep' & Hep & H)%bind_Some. destruct ep'.
  { destruct ((si =? 4) && (ti =? 5) && ((tj =? sj - 1) || (tj =? sj + 1))) eqn:E3;
      [|done].
    apply bind_Some in H as (pp & Hpp & H).
    apply bind_Some in H as (pb & _ & [= <- <-]).
    pose proof (move_piece_fields _ _ _ _ _ _ Hpp) as (F1 & F2 & F3 & F4).
    split.
    { unfold black_move_keeps. simpl. rewrite F2, F3, F4.
      split; [done|]. split; [done|apply rights_le_refl]. }
    left. simpl. split; [done|]. split; [done|]. lia. }
  apply bind_Some in H as (cap & Hcap & H). destruct cap; [|done].
  apply bind_Some in H as (pp & Hpp & [= <- <-]).
  split; [by eapply move_piece_keeps_black|]. left.
  pose proof (move_piece_fields _ _ _ _ _ _ Hpp) as (F1 & _).
  split; [done|]. split; [done|].
  destruct ((ti =? si + 1) && ((tj =? sj - 1) || (tj =? sj + 1))) eqn:E; [|done].
  lia.
Qed.

Lemma black_candidate_facts p si sj ti tj possible ep :
  black_candidate p si sj ti tj = Some (Some (possible, ep)) →
  black_move_keeps p possible
  ∧ (get (board p) si sj = Some BLACK_ROOK → si = 0 → sj = 0 →
     (can_castle_black possible).1 = false)
  ∧ (get (board p) si sj = Some BLACK_ROOK → si = 0 → sj = 7 →
     (can_castle_black possible).2 = false)
  ∧ (get (board p) si sj = Some BLACK_KING →
     can_castle_black possible = (false, false))
  ∧ ((ep = -1 ∧ pawn_two_squares_black possible = pawn_two_squares_black p
      ∧ ¬ (get (board p) si sj = Some BLACK_PAWN ∧ Z.abs (ti - si) = 2))
     ∨ (ep = tj ∧ get (board p) si sj = Some BLACK_PAWN
        ∧ si = 1 ∧ ti = 3 ∧ sj = tj
        ∧ only_flag (pawn_two_squares_black possible) tj)).
Proof.
  unfold black_candidate. intros (c & Hc & H)%bind_Some. rewrite Hc.
  destruct (Z.eqb_spec c BLACK_PAWN) as [->|Np].
  { apply black_pawn_candidate_facts in H as (K & [(E & F & N)|(E & ? & ? & ? & O)]).
    - split; [done|]. repeat split; try (intros [=]; fail).
      left. split; [done|]. split; [done|]. intros (_ & ?). lia.
    - split; [done|]. repeat split; try (intros [=]; fail). right. done. }
  assert (Hplain : ∀ pp, move_piece p si sj ti tj = Some pp →
            -1 = -1 ∧ pawn_two_squares_black pp = pawn_two_squares_black p
            ∧ ¬ (Some c = Some BLACK_PAWN ∧ Z.abs (ti - si) = 2)).
  { intros pp Hpp. pose proof (move_piece_fields _ _ _ _ _ _ Hpp) as (F1 & _).
    split; [done|]. split; [done|]. intros [[= ->] _]. done. }
  destruct (Z.eqb_spec c BLACK_KNIGHT) as [->|Nn].
  { destruct (under_knight_control _ _ _ _); [|done].
    apply bind_Some in H as (pp & Hpp & [= <- <-]).
    split; [by eapply move_piece_keeps_black|].
    repeat split; try (intros [=]; fail). left. by apply Hplain. }
  destruct (Z.eqb_spec c BLACK_BISHOP) as [->|Nb].
  { apply bind_Some in H as ([] & _ & H); [|done].
    apply bind_Some in H as (pp & Hpp & [= <- <-]).
    split; [by eapply move_piece_keeps_black|].
    repeat split; try (intros [=]; fail). left. by apply Hplain. }
  destruct (Z.eqb_spec c BLACK_ROOK) as [->|Nr].
  { apply bind_Some in H as ([] & _ & H); [|done].
    apply bind_Some in H as (pp & Hpp & [= <- <-]).
    pose proof (move_piece_fields _ _ _ _ _ _ Hpp) as (F1 & F2 & F3 & F4).
    split.
    { unfold black_move_keeps, rights_le.
      destruct ((si =? 0) && (sj =? 0)), ((si =? 0) && (sj =? 7)); simpl;
        rewrite ?F2, ?F3, ?F4; repeat split; try done. }
    split.
    { intros _ -> ->. simpl. by destruct ((0 =? 0) && (0 =? 7)). }
    split.
    { intros _ -> ->. simpl. done. }
    split; [intros [=]|]. left.
    split; [done|]. split.
    - by destruct ((si =? 0) && (sj =? 0)), ((si =? 0) && (sj =? 7)).
    - intros [[=] _]. }
  destruct (Z.eqb_spec c BLACK_QUEEN) as [->|Nq].
  { apply bind_Some in H as ([] & _ & H); [|done].
    apply bind_Some in H as (pp & Hpp & [= <- <-]).
    split; [by eapply move_piece_keeps_black|].
    repeat split; try (intros [=]; fail). left. by apply Hplain. }
  destruct (Z.eqb_spec c BLACK_KING) as [->|Nk]; [|done].
  apply bind_Some in H as (r1 & H1 & H).
  apply bind_Some in H as (r2 & H2 & H).
  apply bind_Some in H as (r3 & H3 & H).
  pose (good q := black_move_keeps p q ∧ can_castle_black q = (false, false)
                  ∧ pawn_two_squares_black q = pawn_two_squares_black p).
  assert (Hr1 : ∀ pp, r1 = Some pp → good pp).
  { intros pp ->. destruct (under_king_control _ _ _ _); [|done].
    apply bind_Some in H1 as (pp' & Hpp & [= <-]).
    pose proof (move_piece_fields _ _ _ _ _ _ Hpp) as (F1 & F2 & F3 & F4).
    unfold good, black_move_keeps, rights_le. simpl. rewrite F1, F2, F3. done. }
  assert (Hposs : black_move_keeps p (default p r1)
                  ∧ pawn_two_squares_black (default p r1) = pawn_two_squares_black p).
  { destruct r1 as [pp|]; simpl; [|repeat split; done].
    destruct (Hr1 pp eq_refl) as (? & ? & ?). done. }
  assert (Hcastle : ∀ q pb,
            black_move_keeps p q
            ∧ pawn_two_squares_black q = pawn_two_squares_black p →
            good (with_castle_black (with_board q pb) (false, false))).
  { intros q pb ((K1 & K2 & K3) & K4).
    unfold good, black_move_keeps, rights_le. simpl. rewrite K1, K2, K4. done. }
  assert (Hk2 : ∀ p2, r2 = Some p2 → good p2).
  { intros p2 ->. apply black_castle_kingside_Some in H2 as (pb2 & ->).
    by apply Hcastle. }
  assert (Hk3 : ∀ p3, r3 = Some p3 → good p3).
  { intros p3 ->. destruct r2 as [p2|]; [done|].
    apply black_castle_queenside_Some in H3 as (pb3 & ->). by apply Hcastle. }
  assert (Hfin : good possible ∧ ep = -1).
  { destruct r3 as [p3|], r2 as [p2|], r1 as [p1|]; simpl in H; try done;
      injection H as <- <-;
      (split; [|done]); first [by apply Hk3 | by apply Hk2 | by apply Hr1]. }
  destruct Hfin as ((K & Kc & Kf) & ->).
  split; [done|]. split; [intros [=]|]. split; [intros [=]|].
  split; [done|]. left. split; [done|]. split; [done|]. intros [[=] _].
Qed.

(** The two outcomes of [handle_white_move]. *)
Lemma handle_white_move_Some p answer si sj ti tj text p' :
  handle_white_move p answer si sj ti tj = Some (text, p') →
  (text = ""%string ∧ p' = p)
  ∨ ∃ possible v b white,
      white_candidate p si sj ti tj = Some (Some (possible, v))
      ∧ king_is_in_check (board possible) WHITE = Some false
      ∧ generate_move_notation p si sj ti tj WHITE = Some text
      ∧ (if en_passant_index v =? -1 then white = replicate 8 false
         else only_flag white (en_passant_index v))
      ∧ p' = mk_state b (pawn_two_squares_black possible) white
                      (can_castle_white possible) (can_castle_black possible).
Proof.
  unfold handle_white_move. intros (t & _ & H)%bind_Some.
  destruct (0 <? t); [injection H as <- <-; by left|].
  apply bind_Some in H as (cand & Hc & H).
  destruct cand as [[possible v]|]; [|injection H as <- <-; by left].
  apply bind_Some in H as ([] & Hk & H); [injection H as <- <-; by left|].
  apply bind_Some in H as (text' & Ht & H).
  apply bind_Some in H as (white & Hw & H).
  apply bind_Some in H as (b & _ & [= <- <-]).
  right. exists possible, v, b, white. repeat split; try done.
  destruct (en_passant_index v =? -1); [by injection Hw as <-|].
  by apply set_flag_only.
Qed.

(** The two outcomes of [Human::handle_black_move]. *)
Lemma handle_black_move_Some p answer fx fy tx ty text p' :
  handle_black_move p answer fx fy tx ty = Some (text, p') →
  (text = ""%string ∧ p' = p)
  ∨ ∃ possible ep b,
      black_candidate p fx fy tx ty = Some (Some (possible, ep))
      ∧ king_is_in_check (board possible) BLACK = Some false
      ∧ generate_move_notation p fx fy tx ty BLACK = Some text
      ∧ p' = with_board possible b.
Proof.
  unfold handle_black_move. intros (text' & Ht & H)%bind_Some.
  apply bind_Some in H as (t & _ & H).
  destruct (t <? 0); [injection H as <- <-; by left|].
  apply bind_Some in H as ([[legal p1] possible] & Hl & H).
  unfold is_black_move_legal in Hl.
  apply bind_Some in Hl as (cand & Hc & Hl).
  destruct cand as [[possible' ep]|];
    [|injection Hl as <- <- <-; injection H as <- <-; by left].
  apply bind_Some in Hl as ([] & Hk & Hl);
    [injection Hl as <- <- <-; injection H as <- <-; by left|].
  apply bind_Some in Hl as (white & _ & [= <- <- <-]). simpl in H.
  rewrite Hk in H. simpl in H.
  apply bind_Some in H as (c & _ & H).
  apply bind_Some in H as (b & _ & [= <- <-]).
  right. exists possible', ep, b. done.
Qed.

(** ** Every candidate of the engine has the expected shape *)

Lemma candidates_app l1 l2 : candidates (l1 ++ l2) = candidates l1 ++ candidates l2.
Proof. unfold candidates. apply flat_map_app. Qed.

Lemma candidates_cons i l : candidates (i :: l) = candidates_of i ++ candidates l.
Proof. reflexivity. Qed.

Lemma all_candidates_nil Q : all_candidates Q [].
Proof. intros mv pp H. unfold candidates in H. simpl in H. by apply elem_of_nil in H. Qed.

Lemma all_candidates_app Q l1 l2 :
  all_candidates Q l1 → all_candidates Q l2 → all_candidates Q (l1 ++ l2).
Proof.
  intros H1 H2 mv pp. rewrite candidates_app, elem_of_app. intros [H|H]; eauto.
Qed.

Lemma all_candidates_cons Q i l :
  all_candidates Q [i] → all_candidates Q l → all_candidates Q (i :: l).
Proof. apply (all_candidates_app Q [i] l). Qed.

Lemma all_candidates_Loop Q body :
  all_candidates Q body → all_candidates Q [Loop body].
Proof.
  intros H mv pp. rewrite candidates_cons. simpl. rewrite app_nil_r. apply H.
Qed.

Lemma all_candidates_Abort Q : all_candidates Q [Abort].
Proof.
  intros mv pp. rewrite candidates_cons. simpl.
  intros [[=]|H%elem_of_nil]%elem_of_cons. done.
Qed.

Lemma all_candidates_flat_map {A} Q (f : A → list item) (xs : list A) :
  (∀ x, x ∈ xs → all_candidates Q (f x)) → all_candidates Q (flat_map f xs).
Proof.
  induction xs as [|x xs IH]; intros H; simpl.
  - apply all_candidates_nil.
  - apply all_candidates_app; [apply H; left|].
    apply IH. intros y Hy. apply H. by right.
Qed.

Lemma all_candidates_map {A} Q (f : A → item) (xs : list A) :
  (∀ x, x ∈ xs → all_candidates Q [f x]) → all_candidates Q (map f xs).
Proof.
  induction xs as [|x xs IH]; intros H; simpl.
  - apply all_candidates_nil.
  - apply all_candidates_cons; [apply H; left|].
    apply IH. intros y Hy. apply H. by right.
Qed.

Lemma all_candidates_cand Q mv p edits post :
  (∀ b pp, puts (board p) edits = Some b → post (with_board p b) = Some pp →
           Q mv pp) →
  all_candidates Q [cand mv p edits post].
Proof.
  intros H mv' pp'. rewrite candidates_cons. unfold cand.
  destruct (puts (board p) edits) as [b|] eqn:Hb; simpl.
  - destruct (post (with_board p b)) as [pp|] eqn:Hpp; simpl.
    + intros [[= <- <-]|H'%elem_of_nil]%elem_of_cons; [by eapply H|done].
    + intros [[=]|H'%elem_of_nil]%elem_of_cons. done.
  - intros [[=]|H'%elem_of_nil]%elem_of_cons. done.
Qed.

(** Splitting a generator along its [when] / [reading] / [if] / [++]. *)
Ltac split_items_by leaf :=
  repeat first
  [ leaf
  | lazymatch goal with
    | |- all_candidates _ [] => apply all_candidates_nil
    | |- all_candidates _ [Abort] => apply all_candidates_Abort
    | |- all_candidates _ [Loop _] => apply all_candidates_Loop
    | |- all_candidates _ (_ ++ _) => apply all_candidates_app
    | |- all_candidates _ (match ?c with _ => _ end) => destruct c eqn:?
    end ].
Ltac split_items := split_items_by fail.

Section Shape.
Context (s : side) (p : board_state).

(** A candidate that moves the piece [c] found on (m, n). *)
Lemma shape_cand c m n ti tj edits post :
  get (board p) m n = Some c → own_piece s c = true →
  Forall (λ e : Z * Z * Z, valid_cell e.2 = true) edits →
  apply_post s (post_kind_of s c (mk_move m n ti tj)) = post →
  all_candidates (engine_candidate s p) [cand (mk_move m n ti tj) p edits post].
Proof using Type.
  intros Hc Ho He <-. apply all_candidates_cand. intros b pp Hb Hpp.
  exists c, edits, b. done.
Qed.

Lemma piece_valid_cell c : c ∈ [pawn_of s; knight_of s; bishop_of s; rook_of s;
                                queen_of s; king_of s] → valid_cell c = true.
Proof using Type.
  intros H. repeat (apply elem_of_cons in H as [->|H]; [by destruct s|]).
  by apply elem_of_nil in H.
Qed.

Lemma shape_step_items c piece ctl post m n offsets :
  get (board p) m n = Some c → own_piece s c = true →
  valid_cell piece = true →
  (∀ i j, apply_post s (post_kind_of s c (mk_move m n i j)) = post) →
  all_candidates (engine_candidate s p)
    [step_items s p piece ctl post m n offsets].
Proof using Type.
  intros Hc Ho Hv Hp. unfold step_items. apply all_candidates_Loop.
  apply all_candidates_flat_map. intros d _. simpl.
  split_items; eapply shape_cand; eauto; repeat constructor; done.
Qed.

Lemma shape_slide_items c piece ctl post m n d fuel i j :
  get (board p) m n = Some c → own_piece s c = true →
  valid_cell piece = true →
  (∀ i j, apply_post s (post_kind_of s c (mk_move m n i j)) = post) →
  all_candidates (engine_candidate s p)
    (slide_items s p piece ctl post m n d fuel i j).
Proof using Type.
  intros Hc Ho Hv Hp. revert i j.
  induction fuel as [|fuel IH]; intros i j; simpl.
  - apply all_candidates_nil.
  - split_items; try apply IH;
      eapply shape_cand; eauto; repeat constructor; done.
Qed.

Lemma shape_slider_items c piece ctl post m n dirs :
  get (board p) m n = Some c → own_piece s c = true →
  valid_cell piece = true →
  (∀ i j, apply_post s (post_kind_of s c (mk_move m n i j)) = post) →
  all_candidates (engine_candidate s p)
    (slider_items s p piece ctl post m n dirs).
Proof using Type.
  intros Hc Ho Hv Hp. unfold slider_items. apply all_candidates_map.
  intros d _. apply all_candidates_Loop. by eapply shape_slide_items.
Qed.
End Shape.

Lemma post_kind_pawn_step s m n tj (d : Z) :
  d = 1 ∨ d = -1 →
  post_kind_of s (pawn_of s) (mk_move m n (m + d) tj) = Plain.
Proof.
  intros Hd. unfold post_kind_of. rewrite Z.eqb_refl. simpl.
  destruct (Z.eqb_spec (Z.abs (m + d - m)) 2); [lia|done].
Qed.

Lemma post_kind_pawn_double s m n (d : Z) :
  d = 2 ∨ d = -2 →
  post_kind_of s (pawn_of s) (mk_move m n (m + d) n) = TwoSquare n.
Proof.
  intros Hd. unfold post_kind_of. rewrite Z.eqb_refl. simpl.
  destruct (Z.eqb_spec (Z.abs (m + d - m)) 2); [done|lia].
Qed.

Lemma shape_white_pawn_items inner p m n :
  get (board p) m n = Some WHITE_PAWN →
  all_candidates (engine_candidate WHITE p) (white_pawn_items inner p m n).
Proof.
  intros Hc. unfold white_pawn_items. cbv zeta.
  assert (Hplain : ∀ tj edits,
            Forall (λ e : Z * Z * Z, valid_cell e.2 = true) edits →
            all_candidates (engine_candidate WHITE p)
              [cand (mk_move m n (m - 1) tj) p edits Some]).
  { intros tj edits He. eapply shape_cand; [exact Hc|done|exact He|].
    change (m - 1) with (m + -1). by rewrite (post_kind_pawn_step WHITE); [|lia]. }
  assert (Hland : ∀ tj, all_candidates (engine_candidate WHITE p)
            (if negb (m - 1 =? 0)
             then [cand (mk_move m n (m - 1) tj) p
                     [(m - 1, tj, WHITE_PAWN); (m, n, 0)] Some]
             else [Loop (map (λ i, cand (mk_move m n (m - 1) tj) p
                                     [(m - 1, tj, i); (m, n, 0)] Some)
                             (if inner then [2; 3; 4; 5] else [5; 4; 3; 2]))])).
  { intros tj. destruct (negb (m - 1 =? 0)).
    - apply Hplain. repeat constructor.
    - apply all_candidates_Loop, all_candidates_map. intros i Hi.
      apply Hplain. repeat constructor. simpl.
      destruct inner; repeat (apply elem_of_cons in Hi as [->|Hi]; [done|]);
        by apply elem_of_nil in Hi. }
  split_items_by ltac:(first [apply Hland | apply Hplain; repeat constructor]).
  eapply shape_cand; [exact Hc|done|repeat constructor|].
  change (m - 2) with (m + -2). by rewrite (post_kind_pawn_double WHITE); [|lia].
Qed.

Lemma shape_black_pawn_items p m n :
  get (board p) m n = Some BLACK_PAWN →
  all_candidates (engine_candidate BLACK p) (black_pawn_items p m n).
Proof.
  intros Hc. unfold black_pawn_items. cbv zeta.
  assert (Hplain : ∀ tj edits,
            Forall (λ e : Z * Z * Z, valid_cell e.2 = true) edits →
            all_candidates (engine_candidate BLACK p)
              [cand (mk_move m n (m + 1) tj) p edits Some]).
  { intros tj edits He. eapply shape_cand; [exact Hc|done|exact He|].
    by rewrite (post_kind_pawn_step BLACK); [|lia]. }
  assert (Hland : ∀ tj, all_candidates (engine_candidate BLACK p)
            (if negb (m + 1 =? 7)
             then [cand (mk_move m n (m + 1) tj) p
                     [(m + 1, tj, BLACK_PAWN); (m, n, 0)] Some]
             else [Loop (map (λ i, cand (mk_move m n (m + 1) tj) p
                                     [(m + 1, tj, i); (m, n, 0)] Some)
                             [-5; -4; -3; -2])])).
  { intros tj. destruct (negb (m + 1 =? 7)).
    - apply Hplain. repeat constructor.
    - apply all_candidates_Loop, all_candidates_map. intros i Hi.
      apply Hplain. repeat constructor. simpl.
      repeat (apply elem_of_cons in Hi as [->|Hi]; [done|]);
        by apply elem_of_nil in Hi. }
  split_items_by ltac:(first [apply Hland | apply Hplain; repeat constructor]).
  eapply shape_cand; [exact Hc|done|repeat constructor|].
  by rewrite (post_kind_pawn_double BLACK); [|lia].
Qed.

Lemma post_kind_plain s c mv :
  c ∈ [knight_of s; bishop_of s; queen_of s] → post_kind_of s c mv = Plain.
Proof.
  intros H. unfold post_kind_of.
  repeat (apply elem_of_cons in H as [->|H]; [by destruct s|]).
  by apply elem_of_nil in H.
Qed.

Lemma post_kind_rook s m n i j :
  post_kind_of s (rook_of s) (mk_move m n i j) = RookFrom m n.
Proof. unfold post_kind_of. by destruct s. Qed.

Lemma post_kind_king s mv : post_kind_of s (king_of s) mv = KingMove.
Proof. unfold post_kind_of. by destruct s. Qed.

Lemma shape_castle_items inner s p m n :
  get (board p) m n = Some (king_of s) →
  all_candidates (engine_candidate s p) (castle_items inner s p m n).
Proof.
  intros Hc. unfold castle_items. cbv zeta.
  split_items;
    match goal with
    | H : (if ?c then _ else Some false) = Some true |- _ =>
      destruct c eqn:E; [|discriminate H];
      apply andb_prop in E as [->%Z.eqb_eq ->%Z.eqb_eq]
    end;
    (eapply shape_cand;
     [exact Hc
     |by destruct s
     |repeat constructor; by destruct s
     |by rewrite post_kind_king]).
Qed.

Ltac in_list := repeat first [apply list_elem_of_here | apply list_elem_of_further].

Lemma shape_square_items inner s p m n :
  all_candidates (engine_candidate s p) (square_items inner s p m n).
Proof.
  unfold square_items. cbv zeta.
  destruct (get (board p) m n) as [c|] eqn:Hc; [|apply all_candidates_Abort].
  destruct (match s with WHITE => 0 <? c | BLACK => c <? 0 end) eqn:Ho;
    [|apply all_candidates_nil].
  assert (Hown : own_piece s c = true) by done.
  repeat apply all_candidates_app.
  - destruct (Z.eqb_spec c (pawn_of s)) as [->|]; [|apply all_candidates_nil].
    destruct s; [by apply shape_white_pawn_items|by apply shape_black_pawn_items].
  - destruct (Z.eqb_spec c (knight_of s)) as [->|]; [|apply all_candidates_nil].
    eapply shape_step_items; eauto; [by destruct s|].
    intros i j. rewrite post_kind_plain; [done|in_list].
  - destruct (Z.eqb_spec c (bishop_of s)) as [->|]; [|apply all_candidates_nil].
    eapply shape_slider_items; eauto; [by destruct s|].
    intros i j. rewrite post_kind_plain; [done|in_list].
  - destruct (Z.eqb_spec c (rook_of s)) as [->|]; [|apply all_candidates_nil].
    eapply shape_slider_items; eauto; [by destruct s|].
    intros i j. by rewrite post_kind_rook.
  - destruct (Z.eqb_spec c (queen_of s)) as [->|]; [|apply all_candidates_nil].
    eapply shape_slider_items; eauto; [by destruct s|].
    intros i j. rewrite post_kind_plain; [done|in_list].
  - destruct (Z.eqb_spec c (king_of s)) as [->|]; [|apply all_candidates_nil].
    apply all_candidates_cons; [|by apply shape_castle_items].
    eapply shape_step_items; eauto; [by destruct s|].
    intros i j. by rewrite post_kind_king.
Qed.

(** Every candidate built by the loop nest of the engine, at the root or
    inside the search, moves a piece of the mover: its board is the
    node's board with some cells overwritten by piece codes, and its
    flags are the node's flags updated for the moved piece. *)
Lemma engine_items_shape inner s p :
  all_candidates (engine_candidate s p) (engine_items inner s p).
Proof.
  unfold engine_items. apply all_candidates_map. intros m _.
  apply all_candidates_Loop, all_candidates_flat_map. intros n _.
  apply shape_square_items.
Qed.

(** ** Flags of the engine's candidates *)

Lemma apply_post_board s k q pp :
  apply_post s k q = Some pp → board pp = board q.
Proof.
  destruct k as [|m n| |n]; simpl.
  - by intros [= <-].
  - unfold rook_post.
    destruct s; intros [= <-];
      repeat match goal with |- context [if ?c then _ else _] => destruct c end; done.
  - unfold king_post. destruct s; by intros [= <-].
  - destruct s; intros (f & _ & [= <-])%bind_Some; done.
Qed.

Lemma engine_candidate_board s p mv pp :
  engine_candidate s p mv pp →
  ∃ edits, Forall (λ e : Z * Z * Z, valid_cell e.2 = true) edits
           ∧ puts (board p) edits = Some (board pp).
Proof.
  intros (c & edits & b & _ & _ & He & Hb & Hpp).
  apply apply_post_board in Hpp. simpl in Hpp. exists edits. by rewrite Hpp.
Qed.

Lemma engine_candidate_rights s p mv pp :
  engine_candidate s p mv pp → rights_follow s p mv pp.
Proof.
  intros (c & edits & b & Hc & Ho & _ & _ & Hpp). unfold rights_follow.
  rewrite Hc. unfold post_kind_of in Hpp.
  destruct (Z.eqb_spec c (pawn_of s)) as [->|Np].
  { assert (own_rights (opponent_of s) pp = own_rights (opponent_of s) p
            ∧ own_rights s pp = own_rights s p) as [E1 E2].
    { destruct (Z.abs _ =? 2); simpl in Hpp.
      - destruct s; apply bind_Some in Hpp as (f & _ & [= <-]); done.
      - injection Hpp as <-. by destruct s. }
    rewrite E1, E2. split; [done|]. split; [apply rights_le_refl|].
    repeat split; intros [= H]; by destruct s. }
  destruct (Z.eqb_spec c (rook_of s)) as [->|Nr].
  { simpl in Hpp. unfold rook_post in Hpp.
    split.
    { destruct s; injection Hpp as <-; simpl;
        repeat match goal with |- context [if ?c then _ else _] => destruct c end;
        done. }
    split.
    { unfold rights_le.
      destruct s; injection Hpp as <-; simpl;
        repeat match goal with |- context [if ?c then _ else _] => destruct c end;
        simpl; split; done. }
    split.
    { intros _ Hi Hj. rewrite Hi, Hj in Hpp.
      destruct s; injection Hpp as <-; simpl; done. }
    split.
    { intros _ Hi Hj. rewrite Hi, Hj in Hpp.
      destruct s; injection Hpp as <-; simpl; done. }
    intros [= H]. by destruct s. }
  destruct (Z.eqb_spec c (king_of s)) as [->|Nk].
  { simpl in Hpp. unfold king_post in Hpp.
    destruct s; injection Hpp as <-; simpl;
      (split; [done|]); (split; [by split|]);
      repeat split; try done; intros [=]. }
  simpl in Hpp. injection Hpp as <-.
  split; [by destruct s|]. split; [destruct s; apply rights_le_refl|].
  repeat split; intros [= ->]; done.
Qed.

(** The en-passant flags of a candidate: the opponent's are the node's,
    the mover's change only by the flag of a two-square advance. *)
Lemma engine_candidate_flags s p mv pp :
  engine_candidate s p mv pp →
  own_flags (opponent_of s) pp = own_flags (opponent_of s) p
  ∧ ((own_flags s pp = own_flags s p ∧ ¬ two_square_advance s p mv)
     ∨ (two_square_advance s p mv
        ∧ set_flag (own_flags s p) (from_j mv) true = Some (own_flags s pp))).
Proof.
  intros (c & edits & b & Hc & Ho & _ & _ & Hpp). unfold two_square_advance.
  rewrite Hc. unfold post_kind_of in Hpp.
  destruct (Z.eqb_spec c (pawn_of s)) as [->|Np].
  { destruct (Z.eqb_spec (Z.abs (to_i mv - from_i mv)) 2) as [E|E]; simpl in Hpp.
    - destruct s; apply bind_Some in Hpp as (f & Hf & [= <-]); simpl;
        (split; [done|]); right; done.
    - injection Hpp as <-. split; [by destruct s|]. left.
      split; [by destruct s|]. intros [_ ?]. done. }
  assert (Hno : ¬ (Some c = Some (pawn_of s) ∧ Z.abs (to_i mv - from_i mv) = 2)).
  { intros [[= ->] _]. done. }
  assert (own_flags (opponent_of s) pp = own_flags (opponent_of s) p
          ∧ own_flags s pp = own_flags s p) as [E1 E2]; [|by eauto].
  destruct (c =? rook_of s).
  { simpl in Hpp. unfold rook_post in Hpp.
    destruct s; injection Hpp as <-; simpl;
      repeat match goal with |- context [if ?c then _ else _] => destruct c end;
      done. }
  destruct (c =? king_of s).
  { simpl in Hpp. unfold king_post in Hpp.
    destruct s; injection Hpp as <-; done. }
  simpl in Hpp. injection Hpp as <-. by destruct s.
Qed.

(** ** Where the position returned by the engine comes from *)

Lemma adv_minimax_position depth p mx alpha beta v p' :
  adv_minimax depth p mx alpha beta = Some (v, p') →
  p' = p ∨ p' = reset_en_passant p (side_to_move mx).
Proof.
  destruct depth as [|d].
  - rewrite adv_minimax_0. intros (x & _ & [= _ <-])%bind_Some. by left.
  - rewrite adv_minimax_S. intros (x & _ & H)%bind_Some.
    apply bind_Some in H as ([] & _ & H).
    + injection H as _ <-. by left.
    + apply bind_Some in H as (r & _ & [= _ <-]). by right.
Qed.

Lemma root_scan_origin below s l acc b bp :
  root_scan below s l acc = Some b →
  best_position b = Some bp →
  best_position acc = Some bp ∧ best_move b = best_move acc
  ∨ ∃ pp v p',
      Some (best_move b, pp) ∈ l
      ∧ king_is_in_check (board pp) s = Some false
      ∧ adv_minimax below pp (match s with WHITE => false | BLACK => true end)
                    INT_MIN INT_MAX = Some (v, p')
      ∧ bp = p'.
Proof.
  revert acc. induction l as [|[[mv pp]|] l IH]; intros acc; simpl.
  - intros [= <-] H. by left.
  - intros (chk & Hk & H)%bind_Some Hbp. destruct chk.
    + destruct (IH _ H Hbp) as [?|(pp' & v & p' & Hin & ?)]; [by left|].
      right. exists pp', v, p'. split; [by right|done].
    + apply bind_Some in H as ([v p'] & Hr & H).
      destruct (IH _ H Hbp) as [[E1 E2]|(pp' & v' & p'' & Hin & ?)].
      * match type of E1 with context [if ?c then _ else _] => destruct c end;
          simpl in E1, E2.
        -- right. exists pp, v, p'. rewrite E2. injection E1 as <-.
           split; [by left|done].
        -- by left.
      * right. exists pp', v', p''. split; [by right|done].
  - done.
Qed.

(** The move [make_white_move] / [make_black_move] plays: one of the root
    candidates that leaves the mover out of check, in the state the
    search below it left the candidate in. *)
Lemma make_move_Some below s p em p' :
  make_move below s p = Some (em, p') →
  ∃ pp,
    Some (mk_move (em_from_i em) (em_from_j em) (em_to_i em) (em_to_j em), pp)
      ∈ candidates (engine_items false s (reset_en_passant p s))
    ∧ king_is_in_check (board pp) s = Some false
    ∧ (p' = pp ∨ p' = reset_en_passant pp (opponent_of s)).
Proof.
  unfold make_move. intros (b & Hb & H)%bind_Some.
  apply bind_Some in H as (text & _ & H).
  apply bind_Some in H as (bp & Hbp & [= <- <-]). simpl.
  destruct (root_scan_origin _ _ _ _ _ _ Hb Hbp) as [[E _]|(pp & v & q & Hin & Hk & Hr & ->)];
    [done|].
  exists pp. split; [by destruct (best_move b)|]. split; [done|].
  apply adv_minimax_position in Hr. by destruct s.
Qed.

(** ** Castling rights and en-passant flags across the move routines *)

Lemma set_flag_Some f j v f' :
  set_flag f j v = Some f' → 0 <= j < 8.
Proof.
  unfold set_flag, in_file. destruct (_ && _) eqn:E; [|done]. intros _. lia.
Qed.

Lemma reset_en_passant_fields p s :
  board (reset_en_passant p s) = board p
  ∧ can_castle_white (reset_en_passant p s) = can_castle_white p
  ∧ can_castle_black (reset_en_passant p s) = can_castle_black p
  ∧ own_flags s (reset_en_passant p s) = replicate 8 false
  ∧ own_flags (opponent_of s) (reset_en_passant p s) = own_flags (opponent_of s) p.
Proof. by destruct s. Qed.

Lemma rights_follow_reset s p mv pp p' :
  rights_follow s (reset_en_passant p s) mv pp →
  p' = pp ∨ p' = reset_en_passant pp (opponent_of s) →
  rights_follow s p mv p'.
Proof.
  assert (E : ∀ t q, own_rights t (reset_en_passant q (opponent_of s)) = own_rights t q)
    by (intros [] q; by destruct s).
  assert (E' : ∀ t q, own_rights t (reset_en_passant q s) = own_rights t q)
    by (intros [] q; by destruct s).
  unfold rights_follow.
  destruct (reset_en_passant_fields p s) as (-> & _).
  rewrite !E'. intros H [->| ->]; [done|]. by rewrite !E.
Qed.

(** C6 (amended). Every move that [Board::handle_white_move] or
    [Human::handle_black_move] accepts, every candidate the engine builds
    at the root or inside [adv_minimax], and the move [make_white_move] /
    [make_black_move] plays, treats the castling rights alike: the
    opponent's rights are left as they are, the mover's rights are never
    granted anew, a rook that leaves its home corner loses the right of
    that corner and a king move (castling included) loses both. *)
Theorem castling_rights_follow_the_moved_piece :
  (∀ p answer si sj ti tj text p',
     handle_white_move p answer si sj ti tj = Some (text, p') →
     text ≠ ""%string →
     rights_follow WHITE p (mk_move si sj ti tj) p')
  ∧ (∀ p answer si sj ti tj text p',
     handle_black_move p answer si sj ti tj = Some (text, p') →
     text ≠ ""%string →
     rights_follow BLACK p (mk_move si sj ti tj) p')
  ∧ (∀ inner s p mv pp,
     Some (mv, pp) ∈ candidates (engine_items inner s p) →
     rights_follow s p mv pp)
  ∧ (∀ below s p em p',
     make_move below s p = Some (em, p') →
     rights_follow s p
       (mk_move (em_from_i em) (em_from_j em) (em_to_i em) (em_to_j em)) p').
Proof.
  split; [|split; [|split]].
  - intros p answer si sj ti tj text p' H Ht.
    apply handle_white_move_Some in H
      as [[? _]|(possible & v & b & white & Hc & _ & _ & _ & ->)]; [done|].
    apply white_candidate_facts in Hc as ((_ & K2 & K3) & R1 & R2 & R3 & _).
    unfold rights_follow. simpl. auto.
  - intros p answer si sj ti tj text p' H Ht.
    apply handle_black_move_Some in H
      as [[? _]|(possible & ep & b & Hc & _ & _ & ->)]; [done|].
    apply black_candidate_facts in Hc as ((_ & K2 & K3) & R1 & R2 & R3 & _).
    unfold rights_follow. simpl. auto.
  - intros inner s p mv pp H.
    apply engine_candidate_rights. by eapply engine_items_shape.
  - intros below s p em p' H.
    apply make_move_Some in H as (pp & Hin & _ & Hp').
    eapply rights_follow_reset; [|exact Hp'].
    apply engine_candidate_rights. by eapply engine_items_shape.
Qed.

Lemma castling_rights_follow_the_moved_piece_witness :
  (can_castle_white corner_capture_position).2 = true
  ∧ (∃ text p',
       handle_white_move corner_capture_position "q"%char 7 7 6 7 = Some (text, p')
       ∧ text ≠ ""%string
       ∧ (can_castle_white p').2 = false
       ∧ can_castle_black p' = can_castle_black corner_capture_position)
  ∧ (∃ text p',
       handle_white_move corner_capture_position "q"%char 7 4 7 6 = Some (text, p')
       ∧ text ≠ ""%string
       ∧ can_castle_white p' = (false, false))
  ∧ (∃ text p',
       handle_black_move corner_capture_position None 0 7 7 7 = Some (text, p')
       ∧ text ≠ ""%string
       ∧ can_castle_white p' = can_castle_white corner_capture_position).
Proof.
  split; [reflexivity|]. split; [|split].
  - eexists _, _. split; [vm_compute; reflexivity|]. split; [done|].
    edestruct (proj1 castling_rights_follow_the_moved_piece
                 corner_capture_position "q"%char 7 7 6 7)
      as (Ho & _ & _ & Hh & _); [vm_compute; reflexivity | done |].
    split; [apply Hh; reflexivity | exact Ho].
  - eexists _, _. split; [vm_compute; reflexivity|]. split; [done|].
    edestruct (proj1 castling_rights_follow_the_moved_piece
                 corner_capture_position "q"%char 7 4 7 6)
      as (_ & _ & _ & _ & Hk); [vm_compute; reflexivity | done |].
    apply Hk. reflexivity.
  - eexists _, _. split; [vm_compute; reflexivity|]. split; [done|].
    edestruct (proj1 (proj2 castling_rights_follow_the_moved_piece)
                 corner_capture_position None 0 7 7 7)
      as (Ho & _); [vm_compute; reflexivity | done |].
    exact Ho.
Defined.

(** C7 (amended). A two-square pawn advance applied by
    [Board::handle_white_move], [Human::handle_black_move] or the engine's
    move routines leaves exactly the flag of the pawn's file set among the
    mover's en-passant flags and sets no flag of the opponent.  The flag
    is not cleared by the opponent's reply as such: both handlers leave
    the other side's flags as they are, and the engine's move leaves them
    as they are or clears all of them.  It reads false again once the
    advancing side's own next move through [handle_white_move] or the
    engine's routines completes, unless that move is again a two-square
    advance. *)
Theorem two_square_flag_lifetime :
  (∀ p answer si sj ti tj text p',
     handle_white_move p answer si sj ti tj = Some (text, p') →
     text ≠ ""%string →
     pawn_two_squares_black p' = pawn_two_squares_black p
     ∧ (two_square_advance WHITE p (mk_move si sj ti tj) →
        0 <= sj < 8 ∧ only_flag (pawn_two_squares_white p') sj)
     ∧ (¬ two_square_advance WHITE p (mk_move si sj ti tj) →
        pawn_two_squares_white p' = replicate 8 false))
  ∧ (∀ p answer si sj ti tj text p',
     handle_black_move p answer si sj ti tj = Some (text, p') →
     text ≠ ""%string →
     pawn_two_squares_white p' = pawn_two_squares_white p
     ∧ (two_square_advance BLACK p (mk_move si sj ti tj) →
        0 <= sj < 8 ∧ only_flag (pawn_two_squares_black p') sj))
  ∧ (∀ below s p em p',
     make_move below s p = Some (em, p') →
     let mv := mk_move (em_from_i em) (em_from_j em) (em_to_i em) (em_to_j em) in
     (two_square_advance s p mv →
      0 <= em_from_j em < 8 ∧ only_flag (own_flags s p') (em_from_j em))
     ∧ (¬ two_square_advance s p mv → own_flags s p' = replicate 8 false)
     ∧ (own_flags (opponent_of s) p' = own_flags (opponent_of s) p
        ∨ own_flags (opponent_of s) p' = replicate 8 false)).
Proof.
  split; [|split].
  - intros p answer si sj ti tj text p' H Ht.
    assert (Hj : 0 <= tj < 8).
    { unfold handle_white_move in H.
      apply bind_Some in H as (t & Hget & _).
      apply get_Some_in_board in Hget. unfold in_board in Hget. lia. }
    apply handle_white_move_Some in H
      as [[? _]|(possible & v & b & white & Hc & _ & _ & Hw & ->)]; [done|].
    apply white_candidate_facts in Hc as ((K1 & _) & _ & _ & _ & Hv).
    simpl. split; [done|]. unfold two_square_advance. simpl.
    destruct Hv as [[E N]|(E & Hp & -> & -> & ->)].
    + rewrite E in Hw. simpl in Hw. split; [by intros ?|done].
    + rewrite E in Hw. destruct (Z.eqb_spec tj (-1)) as [?|_]; [lia|].
      split; [done|]. intros []. split; [done|]. reflexivity.
  - intros p answer si sj ti tj text p' H Ht.
    assert (Hj : 0 <= tj < 8).
    { unfold handle_black_move in H.
      apply bind_Some in H as (m & _ & H).
      apply bind_Some in H as (t & Hget & _).
      apply get_Some_in_board in Hget. unfold in_board in Hget. lia. }
    apply handle_black_move_Some in H
      as [[? _]|(possible & ep & b & Hc & _ & _ & ->)]; [done|].
    apply black_candidate_facts in Hc as ((K1 & _) & _ & _ & _ & Hv).
    simpl. split; [done|]. unfold two_square_advance. simpl.
    destruct Hv as [(E & F & N)|(E & Hp & -> & -> & -> & O)].
    + by intros ?.
    + done.
  - intros below s p em p' H mv.
    apply make_move_Some in H as (pp & Hin & _ & Hp').
    apply engine_items_shape, engine_candidate_flags in Hin as [Ho Hown].
    fold mv in Hown.
    destruct (reset_en_passant_fields p s) as (Eb & _ & _ & Eown & Eopp).
    rewrite Eopp in Ho. rewrite Eown in Hown.
    assert (Ea : two_square_advance s (reset_en_passant p s) mv
                 ↔ two_square_advance s p mv).
    { unfold two_square_advance. by rewrite Eb. }
    rewrite Ea in Hown.
    assert (Hs : own_flags s p' = own_flags s pp).
    { destruct Hp' as [->| ->]; [done|]. by destruct s. }
    assert (Hopp : own_flags (opponent_of s) p' = own_flags (opponent_of s) pp
                   ∨ own_flags (opponent_of s) p' = replicate 8 false).
    { destruct Hp' as [->| ->]; [by left|]. right. by destruct s. }
    rewrite Hs. split; [|split].
    + intros Ha. destruct Hown as [[_ N]|[_ Hset]]; [done|].
      split; [by eapply set_flag_Some|by apply set_flag_only].
    + intros Na. by destruct Hown as [[-> _]|[? _]].
    + destruct Hopp as [->|?]; [by left|by right].
Qed.

Lemma two_square_flag_lifetime_witness :
  ∃ t1 p1 t2 p2 t3 p3,
    handle_white_move initial_position "q"%char 6 4 4 4 = Some (t1, p1)
    ∧ only_flag (pawn_two_squares_white p1) 4
    ∧ pawn_two_squares_black p1 = pawn_two_squares_black initial_position
    ∧ handle_black_move p1 None 1 4 3 4 = Some (t2, p2)
    ∧ pawn_two_squares_white p2 = pawn_two_squares_white p1
    ∧ only_flag (pawn_two_squares_black p2) 4
    ∧ handle_white_move p2 "q"%char 7 6 5 5 = Some (t3, p3)
    ∧ pawn_two_squares_white p3 = replicate 8 false
    ∧ pawn_two_squares_black p3 = pawn_two_squares_black p2.
Proof.
  eexists _, _, _, _, _, _.
  split; [vm_compute; reflexivity|].
  edestruct (proj1 two_square_flag_lifetime initial_position "q"%char 6 4 4 4)
    as (Hb1 & Hw1 & _); [vm_compute; reflexivity | done |].
  split; [apply Hw1; split; [reflexivity|vm_compute; reflexivity]|].
  split; [exact Hb1|].
  lazymatch goal with
  | |- handle_black_move ?p1 _ _ _ _ _ = _ ∧ _ =>
    edestruct (proj1 (proj2 two_square_flag_lifetime) p1 None 1 4 3 4)
      as (Hw2 & Hb2); [vm_compute; reflexivity | done |]
  end.
  split; [vm_compute; reflexivity|].
  split; [exact Hw2|].
  split; [apply Hb2; split; [reflexivity|vm_compute; reflexivity]|].
  lazymatch goal with
  | |- handle_white_move ?p2 _ _ _ _ _ = _ ∧ _ =>
    edestruct (proj1 two_square_flag_lifetime p2 "q"%char 7 6 5 5)
      as (Hb3 & _ & Hw3); [vm_compute; reflexivity | done |]
  end.
  split; [vm_compute; reflexivity|].
  split; [|exact Hb3].
  apply Hw3. intros [Hp _]. vm_compute in Hp. discriminate Hp.
Defined.

(** ** The top moves of [get_best_white_moves] *)









(** ** No access leaves its array on a well-formed position *)

Lemma bind_def {A B} (x : option A) (f : A → option B) :
  is_Some x → (∀ a, x = Some a → is_Some (f a)) → is_Some (x ≫= f).
Proof. intros [a ->] H. by apply H. Qed.

Lemma orM_def (x y : option bool) :
  is_Some x → (x = Some false → is_Some y) → is_Some (orM x y).
Proof. intros [[] ->] H; [done|by apply H]. Qed.

Lemma andM_def (x y : option bool) :
  is_Some x → (x = Some true → is_Some y) → is_Some (andM x y).
Proof. intros [[] ->] H; [by apply H|done]. Qed.

Lemma guard_def (c : bool) (x : option bool) :
  (c = true → is_Some x) → is_Some (guard c x).
Proof. destruct c; [by intros H; apply H|done]. Qed.

Lemma notM_def (x : option bool) : is_Some x → is_Some (notM x).
Proof. by intros [a ->]. Qed.

Lemma tally_def (x : option bool) : is_Some x → is_Some (tally x).
Proof. by intros [a ->]. Qed.

Lemma anyM_def {A} (f : A → option bool) (l : list A) :
  (∀ a, a ∈ l → is_Some (f a)) → is_Some (anyM f l).
Proof.
  induction l as [|a l IH]; intros H; simpl; [done|].
  apply orM_def; [apply H; by left|]. intros _. apply IH. intros ? ?. apply H. by right.
Qed.

Lemma sumM_def {A} (f : A → option Z) (l : list A) :
  (∀ a, a ∈ l → is_Some (f a)) → is_Some (sumM f l).
Proof.
  induction l as [|a l IH]; intros H; simpl; [done|].
  apply bind_def; [apply H; by left|]. intros x _.
  apply bind_def; [|done]. apply IH. intros ? ?. apply H. by right.
Qed.

(** Boolean tests as arithmetic facts. *)
Ltac bool_facts :=
  unfold in_board, in_file in *;
  repeat match goal with
  | H : _ && _ = true |- _ => apply andb_true_iff in H as [? ?]
  | H : negb _ = true |- _ => apply negb_true_iff in H
  | H : (_ =? _) = true |- _ => apply Z.eqb_eq in H
  | H : (_ =? _) = false |- _ => apply Z.eqb_neq in H
  | H : (_ <=? _) = true |- _ => apply Z.leb_le in H
  | H : (_ <? _) = true |- _ => apply Z.ltb_lt in H
  | |- _ && _ = true => apply andb_true_iff; split
  | |- (_ <=? _) = true => apply Z.leb_le
  | |- (_ <? _) = true => apply Z.ltb_lt
  end.
Ltac in_range := simpl; bool_facts; lia.

Lemma get_def (b : list Z) (i j : Z) :
  length b = 64%nat → in_board i j = true → is_Some (get b i j).
Proof.
  intros Hlen Hin. apply get_is_Some. split; [done|].
  rewrite Hlen. unfold cell_index. in_range.
Qed.

Lemma flag_def (f : list bool) (j : Z) :
  length f = 8%nat → in_file j = true → is_Some (flag f j).
Proof.
  intros Hlen Hin. unfold flag. rewrite Hin. apply lookup_lt_is_Some.
  rewrite Hlen. in_range.
Qed.

Lemma count_at_def (l : list Z) (j : Z) :
  length l = 8%nat → in_file j = true → is_Some (count_at l j).
Proof.
  intros Hlen Hin. unfold count_at. rewrite Hin. apply lookup_lt_is_Some.
  rewrite Hlen. in_range.
Qed.

Lemma elem_of_squares m n : (m, n) ∈ squares → in_board m n = true.
Proof.
  unfold squares. simpl. intros H.
  repeat (apply elem_of_cons in H as [[= -> ->]|H]; [done|]).
  by apply elem_of_nil in H.
Qed.

Lemma elem_of_range8 i : i ∈ range8 → 0 <= i < 8.
Proof.
  unfold range8. intros H.
  repeat (apply elem_of_cons in H as [->|H]; [lia|]).
  by apply elem_of_nil in H.
Qed.

Lemma put_def (b : list Z) (i j v : Z) :
  length b = 64%nat → in_board i j = true →
  ∃ b', put b i j v = Some b' ∧ length b' = 64%nat.
Proof.
  intros Hlen Hin. unfold put. rewrite Hin.
  assert ((cell_index i j <? length b)%nat = true) as ->.
  { apply Nat.ltb_lt. rewrite Hlen. unfold cell_index. in_range. }
  simpl. eexists. split; [done|]. by rewrite length_insert.
Qed.

Lemma puts_def (edits : list (Z * Z * Z)) (b : list Z) :
  length b = 64%nat →
  Forall (λ e : Z * Z * Z, in_board e.1.1 e.1.2 = true) edits →
  ∃ b', puts b edits = Some b' ∧ length b' = 64%nat.
Proof.
  intros Hlen H. revert b Hlen.
  induction H as [|[[i j] v] edits Hin _ IH]; intros b Hlen; simpl.
  - eauto.
  - destruct (put_def b i j v Hlen Hin) as (b1 & -> & Hlen1). simpl. by apply IH.
Qed.

Section Defined.
Variable b : list Z.
Hypothesis Hlen : length b = 64%nat.

Lemma path_reaches_def d ti tj fuel pi pj :
  is_Some (path_reaches b d ti tj fuel pi pj).
Proof using Hlen.
  revert pi pj. induction fuel as [|fuel IH]; intros pi pj; simpl; [done|].
  destruct (in_board pi pj) eqn:Hin; [|done].
  destruct (_ && _); [done|].
  apply bind_def; [by apply get_def|]. intros c _.
  destruct (c =? 0); [apply IH|done].
Qed.

Lemma slides_to_def dirs si sj ti tj :
  is_Some (slides_to dirs b si sj ti tj).
Proof using Hlen. apply anyM_def. intros d _. apply path_reaches_def. Qed.

Lemma under_control_def i j s : is_Some (under_control b i j s).
Proof using Hlen.
  unfold under_control. apply anyM_def. intros [m n] Hin%elem_of_squares.
  apply bind_def; [by apply get_def|]. intros c Hc.
  repeat (apply orM_def; [|intros _]); apply guard_def; intros _;
    try done; try apply slides_to_def.
  unfold under_pawn_control. by rewrite Hc.
Qed.

Lemma king_is_in_check_def s : is_Some (king_is_in_check b s).
Proof using Hlen.
  unfold king_is_in_check. apply anyM_def. intros [m n] Hin%elem_of_squares.
  apply bind_def; [by apply get_def|]. intros c _.
  apply guard_def. intros _. apply under_control_def.
Qed.

Lemma free_or_opponent_def i j s :
  in_board i j = true → is_Some (free_or_opponent b i j s).
Proof using Hlen.
  intros Hin. destruct (get_def b i j Hlen Hin) as [c Hc].
  unfold free_or_opponent, square_occupied_by_opponent. rewrite Hc. simpl.
  by destruct s; destruct (_ <? _).
Qed.
End Defined.

Lemma escapes_def b s edits :
  length b = 64%nat →
  Forall (λ e : Z * Z * Z, in_board e.1.1 e.1.2 = true) edits →
  is_Some (escapes b s edits).
Proof.
  intros Hlen He. unfold escapes.
  destruct (puts_def edits b Hlen He) as (b' & -> & Hlen'). simpl.
  apply notM_def. by apply king_is_in_check_def.
Qed.

Section DefinedMoves.
Variable b : list Z.
Hypothesis Hlen : length b = 64%nat.

Lemma step_escapes_def s piece m n d :
  in_board m n = true → is_Some (step_escapes b s piece m n d).
Proof using Hlen.
  intros Hmn. unfold step_escapes.
  destruct (in_board (m + d.1) (n + d.2)) eqn:Hin; [|done].
  apply andM_def; [by apply free_or_opponent_def|]. intros _.
  apply escapes_def; [done|]. by repeat constructor.
Qed.

Lemma slide_escapes_def s piece m n d fuel i j :
  in_board m n = true → is_Some (slide_escapes b s piece m n d fuel i j).
Proof using Hlen.
  intros Hmn. revert i j. induction fuel as [|fuel IH]; intros i j; simpl; [done|].
  destruct (in_board i j) eqn:Hin; [|done].
  apply orM_def.
  - apply andM_def; [by apply free_or_opponent_def|]. intros _.
    apply escapes_def; [done|]. by repeat constructor.
  - intros _. apply bind_def; [by apply get_def|]. intros c _.
    destruct (negb _); [done|apply IH].
Qed.

Lemma slider_escapes_def dirs s piece m n :
  in_board m n = true → is_Some (slider_escapes dirs b s piece m n).
Proof using Hlen.
  intros Hmn. apply anyM_def. intros d _. by apply slide_escapes_def.
Qed.

Lemma step_is_free_def s m n d : is_Some (step_is_free b s m n d).
Proof using Hlen.
  unfold step_is_free. destruct (in_board _ _) eqn:Hin; [|done].
  by apply free_or_opponent_def.
Qed.

Lemma king_step_is_free_def s m n d : is_Some (king_step_is_free b s m n d).
Proof using Hlen.
  unfold king_step_is_free. destruct (in_board _ _) eqn:Hin; [|done].
  apply andM_def; [by apply free_or_opponent_def|]. intros _.
  apply notM_def. by apply under_control_def.
Qed.

Lemma slide_is_free_def s d fuel i j : is_Some (slide_is_free b s d fuel i j).
Proof using Hlen.
  revert i j. induction fuel as [|fuel IH]; intros i j; simpl; [done|].
  destruct (in_board i j) eqn:Hin; [|done].
  apply orM_def; [by apply free_or_opponent_def|]. intros _.
  apply bind_def; [by apply get_def|]. intros c _.
  destruct (negb _); [done|apply IH].
Qed.

Lemma slider_is_free_def dirs s m n : is_Some (slider_is_free dirs b s m n).
Proof using Hlen. apply anyM_def. intros d _. apply slide_is_free_def. Qed.
End DefinedMoves.

(** One step of a definedness argument, chosen by the shape of the
    expression; the test of a guard is kept as a fact. *)
Ltac keep_guard H :=
  lazymatch type of H with
  | (if ?c then _ else Some false) = Some true =>
    let E := fresh "E" in destruct c eqn:E; [clear H|discriminate H]
  | _ => clear H
  end.

Ltac def_step :=
  lazymatch goal with
  | |- is_Some (Some _) => by eexists
  | |- is_Some (get _ _ _) => apply get_def; [done|in_range]
  | |- is_Some (flag _ _) => apply flag_def; [done|in_range]
  | |- is_Some (count_at _ _) => apply count_at_def; [done|in_range]
  | |- is_Some (escapes _ _ _) =>
    apply escapes_def; [done|repeat constructor; in_range]
  | |- is_Some (notM _) => apply notM_def
  | |- is_Some (tally _) => apply tally_def
  | |- is_Some (_ ≫= _) => apply bind_def; [|intros ? _]
  | |- is_Some _ =>
    first [ simple apply orM_def; [|intros _]
          | simple apply andM_def;
            [|let H := fresh "H" in intros H; keep_guard H]
          | simple apply guard_def; intros ? ]
  end.

Section DefinedPosition.
Variable p : board_state.
Hypothesis Hwf : well_formed p.
Hypothesis Hrank : no_pawn_on_last_rank p.

Local Lemma board_length : length (board p) = 64%nat.
Proof using Hwf. apply Hwf. Qed.
Local Lemma flags_length s : length (en_passant_flags p s) = 8%nat.
Proof using Hwf. destruct Hwf as (_ & _ & ? & ?). by destruct s. Qed.

(** A pawn of [s] has a row in front of it. *)
Lemma pawn_row_ahead s m n :
  get (board p) m n = Some (pawn_of s) →
  in_board (m + match s with WHITE => -1 | BLACK => 1 end) n = true.
Proof using Hrank.
  intros Hc. pose proof (get_Some_in_board _ _ _ _ Hc) as Hin.
  destruct (Hrank n) as [Hw Hb].
  destruct s; simpl in *.
  - assert (m ≠ 0) by (intros ->; done). in_range.
  - assert (m ≠ 7) by (intros ->; done). in_range.
Qed.

Lemma pawn_escapes_def s m n :
  get (board p) m n = Some (pawn_of s) → is_Some (pawn_escapes p s m n).
Proof using Hwf Hrank.
  intros Hc. pose proof (get_Some_in_board _ _ _ _ Hc) as Hin.
  pose proof (pawn_row_ahead s m n Hc) as Hrow.
  pose proof board_length as Hlen. pose proof (flags_length s) as Hfl.
  clear Hc. unfold pawn_escapes, square_occupied_by_opponent.
  destruct s; simpl in Hrow; repeat def_step.
Qed.

Lemma square_escapes_def s m n :
  in_board m n = true → is_Some (square_escapes p s m n).
Proof using Hwf Hrank.
  intros Hin. pose proof board_length as Hlen. unfold square_escapes.
  apply bind_def; [by apply get_def|]. intros c Hc.
  repeat (apply orM_def; [|intros _]); apply guard_def; intros Hk.
  - apply anyM_def. intros d _. by apply step_escapes_def.
  - apply Z.eqb_eq in Hk as ->. by apply pawn_escapes_def.
  - apply anyM_def. intros d _. by apply step_escapes_def.
  - by apply slider_escapes_def.
  - by apply slider_escapes_def.
  - by apply slider_escapes_def.
Qed.

Lemma is_checkmate_def s : is_Some (is_checkmate p s).
Proof using Hwf Hrank.
  unfold is_checkmate. apply notM_def, anyM_def.
  intros [m n] Hin%elem_of_squares. by apply square_escapes_def.
Qed.

Lemma pawn_is_free_def s m n :
  get (board p) m n = Some (pawn_of s) → is_Some (pawn_is_free p s m n).
Proof using Hwf Hrank.
  intros Hc. pose proof (get_Some_in_board _ _ _ _ Hc) as Hin.
  pose proof (pawn_row_ahead s m n Hc) as Hrow.
  pose proof board_length as Hlen. pose proof (flags_length s) as Hfl.
  clear Hc. unfold pawn_is_free, square_occupied_by_opponent.
  destruct s; simpl in Hrow; repeat def_step.
Qed.

Lemma square_is_free_def s m n :
  in_board m n = true → is_Some (square_is_free p s m n).
Proof using Hwf Hrank.
  intros Hin. pose proof board_length as Hlen. unfold square_is_free.
  apply bind_def; [by apply get_def|]. intros c Hc.
  repeat (apply orM_def; [|intros _]); apply guard_def; intros Hk.
  - apply anyM_def. intros d _. by apply king_step_is_free_def.
  - apply Z.eqb_eq in Hk as ->. by apply pawn_is_free_def.
  - apply anyM_def. intros d _. by apply step_is_free_def.
  - by apply slider_is_free_def.
  - by apply slider_is_free_def.
  - by apply slider_is_free_def.
Qed.

Lemma is_stalemate_def s : is_Some (is_stalemate p s).
Proof using Hwf Hrank.
  unfold is_stalemate.
  apply bind_def; [apply king_is_in_check_def, board_length|]. intros [] _; [done|].
  apply notM_def, anyM_def.
  intros [m n] Hin%elem_of_squares. by apply square_is_free_def.
Qed.

Lemma game_is_over_def : is_Some (game_is_over p).
Proof using Hwf Hrank.
  unfold game_is_over.
  repeat (apply orM_def; [|intros _]);
    first [apply is_checkmate_def | apply is_stalemate_def].
Qed.
End DefinedPosition.

Lemma incr_at_def (l : list Z) (j : Z) :
  length l = 8%nat → in_file j = true → is_Some (incr_at l j).
Proof.
  intros Hlen Hin. unfold incr_at.
  destruct (count_at_def l j Hlen Hin) as [c ->]. by eexists.
Qed.

Lemma incr_at_length (l l' : list Z) (j : Z) :
  incr_at l j = Some l' → length l' = length l.
Proof.
  unfold incr_at. intros (c & _ & [= <-])%bind_Some. by rewrite length_insert.
Qed.

Section DefinedMobility.
Variable b : list Z.
Hypothesis Hlen : length b = 64%nat.

Lemma step_mobility_def ok m n d : is_Some (step_mobility b ok m n d).
Proof using Hlen.
  unfold step_mobility. destruct (in_board _ _) eqn:Hin; [|done].
  apply bind_def; [by apply get_def|]. by eexists.
Qed.

Lemma king_step_mobility_def ok attacker m n d :
  is_Some (king_step_mobility b ok attacker m n d).
Proof using Hlen.
  unfold king_step_mobility. destruct (in_board _ _) eqn:Hin; [|done].
  apply tally_def, andM_def.
  - apply bind_def; [by apply get_def|]. by eexists.
  - intros _. apply notM_def. by apply under_control_def.
Qed.

Lemma slide_mobility_def ok d fuel i j :
  is_Some (slide_mobility b ok d fuel i j).
Proof using Hlen.
  revert i j. induction fuel as [|fuel IH]; intros i j; simpl; [done|].
  destruct (in_board i j) eqn:Hin; [|done].
  apply bind_def; [by apply get_def|]. intros c _.
  apply bind_def; [|by eexists].
  destruct (negb _); [done|apply IH].
Qed.

Lemma slider_mobility_def dirs ok m n :
  is_Some (slider_mobility dirs b ok m n).
Proof using Hlen. apply sumM_def. intros d _. apply slide_mobility_def. Qed.
End DefinedMobility.

Section DefinedEvaluation.
Variable p : board_state.
Hypothesis Hwf : well_formed p.
Hypothesis Hrank : no_pawn_on_last_rank p.

Lemma white_pawn_mobility_def m n :
  get (board p) m n = Some WHITE_PAWN → is_Some (white_pawn_mobility p m n).
Proof using Hwf Hrank.
  intros Hc. pose proof (get_Some_in_board _ _ _ _ Hc) as Hin.
  pose proof (pawn_row_ahead p Hrank WHITE m n Hc) as Hrow. simpl in Hrow.
  destruct Hwf as (Hlen & _ & Hfb & Hfw). clear Hc.
  unfold white_pawn_mobility. repeat def_step.
Qed.

Lemma black_pawn_mobility_def m n :
  get (board p) m n = Some BLACK_PAWN → is_Some (black_pawn_mobility p m n).
Proof using Hwf Hrank.
  intros Hc. pose proof (get_Some_in_board _ _ _ _ Hc) as Hin.
  pose proof (pawn_row_ahead p Hrank BLACK m n Hc) as Hrow. simpl in Hrow.
  destruct Hwf as (Hlen & _ & Hfb & Hfw). clear Hc.
  unfold black_pawn_mobility. repeat def_step.
Qed.

Lemma eval_square_def a m n :
  in_board m n = true → acc_ok a → is_Some (eval_square p a m n).
Proof using Hwf Hrank.
  intros Hin (Hw & Hb & _ & _). pose proof (board_length p Hwf) as Hlen.
  unfold eval_square.
  apply bind_def; [by apply get_def|]. intros c Hc.
  repeat match goal with
  | |- is_Some (if ?t then _ else _) =>
    let E := fresh "E" in destruct t eqn:E; [apply Z.eqb_eq in E; subst c|clear E]
  end;
  repeat first
    [ apply incr_at_def; [done|in_range]
    | by apply white_pawn_mobility_def
    | by apply black_pawn_mobility_def
    | by apply slider_mobility_def
    | apply sumM_def; intros ? _;
      first [by apply step_mobility_def | by apply king_step_mobility_def]
    | def_step ].
Qed.

Lemma eval_square_ok a m n a' :
  eval_square p a m n = Some a' → in_board m n = true → acc_ok a → acc_ok a'.
Proof.
  intros H Hin (Hw & Hb & Hwk & Hbk). unfold eval_square in H.
  apply bind_Some in H as (c & _ & H).
  repeat match type of H with
  | (if ?t then _ else _) = _ => destruct t
  end;
  invert_binds H; injection H as <-;
  unfold acc_ok, add_white, add_black; simpl;
  repeat match goal with
  | H : incr_at _ _ = Some _ |- _ => apply incr_at_length in H
  end;
  repeat split; congruence.
Qed.

Lemma eval_scan_def sq a :
  Forall (λ '(m, n), in_board m n = true) sq → acc_ok a →
  ∃ a', eval_scan p a sq = Some a' ∧ acc_ok a'.
Proof using Hwf Hrank.
  intros Hsq. revert a. induction Hsq as [|[m n] sq Hin _ IH]; intros a Ha.
  - by exists a.
  - change (eval_scan p a ((m, n) :: sq))
      with (a' ← eval_square p a m n; eval_scan p a' sq).
    destruct (eval_square_def a m n Hin Ha) as [a1 H1]. rewrite H1.
    apply IH. by eapply eval_square_ok.
Qed.
End DefinedEvaluation.

Lemma pawn_file_def wf bf a i :
  length wf = 8%nat → length bf = 8%nat → 0 <= i < 8 →
  is_Some (pawn_file wf bf a i).
Proof.
  intros Hw Hb Hi. unfold pawn_file.
  apply bind_def; [apply count_at_def; [done|in_range]|]. intros w _.
  apply bind_def; [apply count_at_def; [done|in_range]|]. intros k _.
  destruct ((0 <? w) && negb (white_pawn_island_flag a));
    destruct ((0 <? k) && negb (black_pawn_island_flag a));
    (apply bind_def; [|by eexists]);
    (destruct (negb (i =? 0) && negb (i =? 7)) eqn:E; [|done]);
    repeat def_step.
Qed.

Lemma pawn_files_def wf bf l a :
  length wf = 8%nat → length bf = 8%nat → (∀ i, i ∈ l → 0 <= i < 8) →
  is_Some (pawn_files wf bf a l).
Proof.
  intros Hw Hb. revert a. induction l as [|i l IH]; intros a Hl; simpl; [done|].
  apply bind_def.
  - apply pawn_file_def; [done..|]. apply Hl. by left.
  - intros a' _. apply IH. intros ? ?. apply Hl. by right.
Qed.

Lemma squares_in_board : Forall (λ '(m, n), in_board m n = true) squares.
Proof. apply Forall_forall. intros [m n]. apply elem_of_squares. Qed.

Lemma acc0_ok : acc_ok acc0.
Proof. by repeat split. Qed.

Lemma evaluate_def p depth :
  well_formed p → no_pawn_on_last_rank p → is_Some (evaluate p depth).
Proof.
  intros Hwf Hrank. unfold evaluate.
  apply bind_def.
  { apply orM_def; [|intros _]; by apply is_stalemate_def. }
  intros [] _; [done|].
  apply bind_def; [by apply is_checkmate_def|]. intros [] _; [done|].
  apply bind_def; [by apply is_checkmate_def|]. intros [] _; [done|].
  destruct (eval_scan_def p Hwf Hrank squares acc0 squares_in_board acc0_ok)
    as (a & -> & Hw & Hb & Hwk & Hbk).
  cbn [mbind option_bind].
  apply bind_def.
  { match goal with |- context [if ?c then KING_END_TABLE_WHITE else _] =>
      destruct c end; by apply get_def. }
  intros kw _. apply bind_def.
  { match goal with |- context [if ?c then KING_END_TABLE_BLACK else _] =>
      destruct c end; by apply get_def. }
  intros kb _. apply bind_def; [|by eexists].
  apply pawn_files_def; [done..|]. apply elem_of_range8.
Qed.

Lemma no_pawn_on_last_rank_b_true p :
  no_pawn_on_last_rank_b p = true → no_pawn_on_last_rank p.
Proof.
  unfold no_pawn_on_last_rank_b. intros H j.
  destruct (decide (0 <= j < 8)) as [Hj|Hj].
  - assert (Hin : j ∈ range8).
    { unfold range8.
      assert (j = 0 ∨ j = 1 ∨ j = 2 ∨ j = 3 ∨ j = 4 ∨ j = 5 ∨ j = 6 ∨ j = 7)
        as Hc by lia.
      repeat (destruct Hc as [->|Hc]; [in_list|]). subst j. in_list. }
    rewrite forallb_forall in H. apply list_elem_of_In in Hin.
    specialize (H j Hin). apply andb_true_iff in H as [H0 H7].
    split.
    + destruct (get (board p) 0 j) as [c|]; [|done].
      intros [= ->]. done.
    + destruct (get (board p) 7 j) as [c|]; [|done].
      intros [= ->]. done.
  - assert (in_board 0 j = false ∧ in_board 7 j = false) as [E0 E7].
    { unfold in_board. split.
      - destruct (Z.leb_spec 0 j), (Z.ltb_spec j 8); simpl; try done; lia.
      - destruct (Z.leb_spec 0 j), (Z.ltb_spec j 8); simpl; try done; lia. }
    unfold get. by rewrite E0, E7.
Qed.

(** C8 (amended). On every structurally well-formed position on which no
    pawn stands on the rank it promotes on, reachable from a legal game
    or not and with or without kings, [Evaluation::evaluate],
    [Board::is_checkmate], [Board::is_stalemate], [Board::king_is_in_check]
    and [game_is_over] run to a result: no access leaves its array. *)
Theorem well_formed_positions_are_read_in_bounds p :
  well_formed p → no_pawn_on_last_rank p →
  (∀ depth, is_Some (evaluate p depth))
  ∧ (∀ s, is_Some (is_checkmate p s))
  ∧ (∀ s, is_Some (is_stalemate p s))
  ∧ (∀ s, is_Some (king_is_in_check (board p) s))
  ∧ is_Some (game_is_over p).
Proof.
  intros Hwf Hrank. split; [|split; [|split; [|split]]].
  - intros depth. by apply evaluate_def.
  - intros s. by apply is_checkmate_def.
  - intros s. by apply is_stalemate_def.
  - intros s. apply king_is_in_check_def, Hwf.
  - by apply game_is_over_def.
Qed.

Lemma well_formed_positions_are_read_in_bounds_witness :
  well_formed kingless_position
  ∧ no_pawn_on_last_rank kingless_position
  ∧ is_Some (evaluate kingless_position 0)
  ∧ is_Some (is_checkmate kingless_position BLACK).
Proof.
  assert (Hwf : well_formed kingless_position)
    by (repeat split; vm_compute; reflexivity).
  assert (Hrank : no_pawn_on_last_rank kingless_position)
    by (apply no_pawn_on_last_rank_b_true; vm_compute; reflexivity).
  split; [exact Hwf|]. split; [exact Hrank|].
  destruct (well_formed_positions_are_read_in_bounds _ Hwf Hrank)
    as (He & Hc & _).
  split; [apply He | apply Hc].
Defined.

(** * Further properties of the code *)

(** ** Cells under assignment *)

Lemma cell_index_inj i j i' j' :
  in_board i j = true → in_board i' j' = true →
  cell_index i j = cell_index i' j' → i = i' ∧ j = j'.
Proof. unfold cell_index. intros H H' E. bool_facts. lia. Qed.

Lemma get_put_eq b b' i j v :
  put b i j v = Some b' → get b' i j = Some v.
Proof.
  intros (Hin & Hlt & ->)%put_Some. unfold get. rewrite Hin.
  by apply list_lookup_insert_eq.
Qed.

Lemma get_put_ne b b' i j v i' j' :
  put b i j v = Some b' → (i', j') ≠ (i, j) → get b' i' j' = get b i' j'.
Proof.
  intros (Hin & Hlt & ->)%put_Some Hne. unfold get.
  destruct (in_board i' j') eqn:Hin'; [|done].
  apply list_lookup_insert_ne. intros E.
  apply cell_index_inj in E as [-> ->]; done.
Qed.

Lemma put_valid b b' i j v :
  put b i j v = Some b' → valid_cell v = true →
  forallb valid_cell b = true → forallb valid_cell b' = true.
Proof.
  intros (_ & _ & ->)%put_Some Hv Hb.
  rewrite forallb_forall in *. intros x Hx%list_elem_of_In.
  apply list_elem_of_lookup in Hx as [k Hk].
  destruct (decide (k = cell_index i j)) as [->|Hne].
  - apply list_lookup_insert_Some in Hk as [(_ & <- & _)|[? _]]; done.
  - rewrite list_lookup_insert_ne in Hk by done.
    apply Hb, list_elem_of_In. by eapply list_elem_of_lookup_2.
Qed.

Lemma puts_valid edits b b' :
  puts b edits = Some b' →
  Forall (λ e : Z * Z * Z, valid_cell e.2 = true) edits →
  forallb valid_cell b = true → forallb valid_cell b' = true.
Proof.
  revert b. induction edits as [|[[i j] v] edits IH]; intros b; simpl.
  - by intros [= <-].
  - intros (b1 & H1 & H)%bind_Some He Hb.
    apply Forall_cons in He as [Hv He].
    eapply IH; [done..|]. by eapply put_valid.
Qed.

Lemma get_valid b i j c :
  forallb valid_cell b = true → get b i j = Some c → valid_cell c = true.
Proof.
  intros Hb Hc. rewrite forallb_forall in Hb.
  apply Hb, list_elem_of_In. by eapply get_elem_of.
Qed.

(** ** The evaluator's range *)

(** X1.  For a depth between 0 and [INT_MAX - 109860] the score of
    [Evaluation::evaluate] lies between -109860 - depth and
    109860 + depth, and with that inside the range of [int]. *)
Theorem evaluate_score_is_bounded position depth v :
  0 <= depth <= INT_MAX - 109860 →
  evaluate position depth = Some v →
  -109860 - depth <= v <= 109860 + depth
  ∧ INT_MIN <= v <= INT_MAX.
Proof.
  intros [Hd Hmax] Hv. apply evaluate_range in Hv; [|done].
  unfold INT_MIN, INT_MAX in *. lia.
Qed.

Lemma evaluate_score_is_bounded_witness :
  evaluate kingless_position 3 = Some 60
  ∧ -109860 - 3 <= 60 <= 109860 + 3
  ∧ INT_MIN <= 60 <= INT_MAX.
Proof.
  assert (H : evaluate kingless_position 3 = Some 60) by (vm_compute; reflexivity).
  split; [exact H|].
  apply (evaluate_score_is_bounded kingless_position 3 60);
    [unfold INT_MAX; lia|exact H].
Defined.

(** ** What the engine plays *)

(** X2.  The move [make_white_move] / [make_black_move] returns starts on
    a square holding a piece of the mover, and in the position it leaves
    behind the mover's king is not attacked. *)
Theorem engine_move_is_own_and_safe below s p em p' :
  make_move below s p = Some (em, p') →
  (∃ c, get (board p) (em_from_i em) (em_from_j em) = Some c
        ∧ own_piece s c = true)
  ∧ king_is_in_check (board p') s = Some false.
Proof.
  intros (pp & Hin & Hk & Hp')%make_move_Some.
  apply engine_items_shape in Hin as (c & edits & b & Hc & Ho & _).
  simpl in Hc. destruct (reset_en_passant_fields p s) as (Eb & _).
  rewrite Eb in Hc. split; [by exists c|].
  destruct Hp' as [->| ->]; [done|]. by destruct s.
Qed.

Lemma engine_move_is_own_and_safe_witness :
  ∃ em p',
    make_move 1 WHITE king_pawn_position = Some (em, p')
    ∧ king_is_in_check (board p') WHITE = Some false.
Proof.
  eexists _, _. split; [vm_compute; reflexivity|].
  eapply (engine_move_is_own_and_safe 1 WHITE king_pawn_position).
  vm_compute. reflexivity.
Defined.

Lemma adv_minimax_position_when depth p mx alpha beta v p' :
  adv_minimax depth p mx alpha beta = Some (v, p') →
  ((depth = 0%nat ∨ game_is_over p = Some true) ∧ p' = p)
  ∨ (depth ≠ 0%nat ∧ game_is_over p = Some false
     ∧ p' = reset_en_passant p (side_to_move mx)).
Proof.
  destruct depth as [|d].
  - rewrite adv_minimax_0. intros (x & _ & [= _ <-])%bind_Some. left. auto.
  - rewrite adv_minimax_S. intros (x & _ & H)%bind_Some.
    apply bind_Some in H as ([] & Hg & H).
    + injection H as _ <-. left. auto.
    + apply bind_Some in H as (r & _ & [= _ <-]). right. done.
Qed.

(** X3.  [Engine::adv_minimax] takes its position by reference and
    writes to it nothing but the en-passant flags of the side to move:
    cells, castling rights and the other side's flags are the caller's.
    At a leaf (depth 0) and when the game is over the position comes
    back as it went in; at every other node the flags of the side to
    move come back cleared. *)
Theorem adv_minimax_frame depth p mx alpha beta v p' :
  adv_minimax depth p mx alpha beta = Some (v, p') →
  board p' = board p
  ∧ can_castle_white p' = can_castle_white p
  ∧ can_castle_black p' = can_castle_black p
  ∧ own_flags (opponent_of (side_to_move mx)) p'
    = own_flags (opponent_of (side_to_move mx)) p
  ∧ (depth = 0%nat ∨ game_is_over p = Some true → p' = p)
  ∧ (depth ≠ 0%nat → game_is_over p = Some false →
     own_flags (side_to_move mx) p' = replicate 8 false).
Proof.
  intros [[Hleaf ->]|(Hd & Hg & ->)]%adv_minimax_position_when.
  - repeat split; try done.
    intros Hd Hg. destruct Hleaf as [->|Ho]; [done|congruence].
  - destruct (reset_en_passant_fields p (side_to_move mx)) as (? & ? & ? & ? & ?).
    repeat split; try done.
    intros [->|Ho]; [done|congruence].
Qed.

Lemma adv_minimax_frame_witness :
  own_flags WHITE flagged_position
    = [false; false; false; false; true; false; false; false]
  ∧ game_is_over flagged_position = Some false
  ∧ (∃ v p',
       adv_minimax 1 flagged_position true INT_MIN INT_MAX = Some (v, p')
       ∧ board p' = board flagged_position
       ∧ own_flags BLACK p' = own_flags BLACK flagged_position
       ∧ own_flags WHITE p' = replicate 8 false)
  ∧ (∃ v p',
       adv_minimax 0 flagged_position true INT_MIN INT_MAX = Some (v, p')
       ∧ p' = flagged_position).
Proof.
  assert (Hg : game_is_over flagged_position = Some false)
    by (vm_compute; reflexivity).
  split; [reflexivity|]. split; [exact Hg|]. split.
  - eexists _, _. split; [vm_compute; reflexivity|].
    edestruct (adv_minimax_frame 1 flagged_position true INT_MIN INT_MAX)
      as (Hb & _ & _ & Ho & _ & Hc); [vm_compute; reflexivity|].
    split; [exact Hb|]. split; [exact Ho|]. apply Hc; [done|exact Hg].
  - eexists _, _. split; [vm_compute; reflexivity|].
    edestruct (adv_minimax_frame 0 flagged_position true INT_MIN INT_MAX)
      as (_ & _ & _ & _ & Hl & _); [vm_compute; reflexivity|].
    apply Hl. by left.
Defined.

(** X4.  With any proper window [alpha < beta], [Engine::adv_minimax]
    returns the unpruned minimax value whenever its result falls
    strictly inside the window; a result at or below [alpha] means the
    true value is at most [alpha], a result at or above [beta] that it is
    at least [beta]. *)
Theorem adv_minimax_respects_window depth p mx x alpha beta :
  Z.of_nat depth <= 1000000 →
  minimax depth p mx = Some x →
  INT_MIN <= alpha → alpha < beta → beta <= INT_MAX →
  ∃ v p',
    adv_minimax depth p mx alpha beta = Some (v, p')
    ∧ (v <= alpha → x <= alpha)
    ∧ (alpha < v < beta → x = v)
    ∧ (beta <= v → beta <= x).
Proof.
  intros Hd Hx Ha Hab Hb.
  destruct (adv_minimax_within_window depth p mx x Hd Hx alpha beta)
    as (v & p' & Hr & _ & Hw).
  exists v, p'. split; [done|]. by apply Hw.
Qed.

Lemma adv_minimax_respects_window_witness :
  minimax 2 king_pawn_position true = Some 50
  ∧ ∃ v p',
      adv_minimax 2 king_pawn_position true 60 100 = Some (v, p')
      ∧ (v <= 60 → 50 <= 60).
Proof.
  assert (H : minimax 2 king_pawn_position true = Some 50)
    by (vm_compute; reflexivity).
  split; [exact H|].
  destruct (adv_minimax_respects_window 2 king_pawn_position true 50 60 100)
    as (v & p' & Hr & Hlo & _);
    [simpl; lia | exact H | unfold INT_MIN; lia | lia | unfold INT_MAX; lia |].
  exists v, p'. split; [exact Hr | exact Hlo].
Defined.

(** ** Well-formedness is kept *)

Lemma set_flag_length f j v f' :
  set_flag f j v = Some f' → length f' = length f.
Proof.
  unfold set_flag. destruct (_ && _); [|done]. intros [= <-].
  by rewrite length_insert.
Qed.

Lemma apply_post_well_formed s k q pp :
  apply_post s k q = Some pp → well_formed q → well_formed pp.
Proof.
  intros H (Hl & Hv & Hb & Hw). destruct k as [|m n| |n]; simpl in H.
  - by injection H as <-.
  - unfold rook_post in H.
    destruct s; injection H as <-;
      repeat match goal with |- context [if ?c then _ else _] => destruct c end;
      done.
  - unfold king_post in H. destruct s; by injection H as <-.
  - destruct s; apply bind_Some in H as (f & Hf%set_flag_length & [= <-]);
      repeat split; simpl; congruence.
Qed.

(** X5.  Every candidate position the engine builds from a structurally
    well-formed position, at the root or inside the search, is again
    structurally well-formed, and so is the position [make_white_move] /
    [make_black_move] leaves behind. *)
Theorem engine_keeps_positions_well_formed :
  (∀ inner s p mv pp,
     well_formed p →
     Some (mv, pp) ∈ candidates (engine_items inner s p) →
     well_formed pp)
  ∧ (∀ below s p em p',
     well_formed p → make_move below s p = Some (em, p') → well_formed p').
Proof.
  assert (Hc : ∀ inner s p mv pp,
             well_formed p →
             Some (mv, pp) ∈ candidates (engine_items inner s p) →
             well_formed pp).
  { intros inner s p mv pp Hwf Hin.
    apply engine_items_shape in Hin as (c & edits & b & _ & _ & He & Hb & Hpp).
    eapply apply_post_well_formed; [exact Hpp|].
    destruct Hwf as (Hl & Hv & Hfb & Hfw).
    repeat split; simpl; try done.
    - by rewrite (puts_length _ _ _ Hb).
    - by eapply puts_valid. }
  split; [exact Hc|].
  intros below s p em p' Hwf (pp & Hin & _ & Hp')%make_move_Some.
  assert (Hr : ∀ q t, well_formed q → well_formed (reset_en_passant q t)).
  { intros q t (? & ? & ? & ?). by destruct t. }
  apply Hc in Hin; [|by apply Hr].
  destruct Hp' as [->| ->]; [done|by apply Hr].
Qed.

Lemma engine_keeps_positions_well_formed_witness :
  ∃ em p',
    make_move 1 BLACK king_pawn_position = Some (em, p') ∧ well_formed p'.
Proof.
  eexists _, _. split; [vm_compute; reflexivity|].
  eapply (proj2 engine_keeps_positions_well_formed 1%nat BLACK king_pawn_position);
    [repeat split; vm_compute; reflexivity | vm_compute; reflexivity].
Defined.

(** ** The empty notation *)

Lemma append_empty (s1 s2 : string) :
  (s1 +:+ s2)%string = ""%string → s1 = ""%string ∧ s2 = ""%string.
Proof.
  destruct s1 as [|a s1].
  - intros H. split; [done|exact H].
  - intros H. change (String a (s1 +:+ s2) = ""%string) in H. discriminate H.
Qed.

Lemma generate_move_notation_nonempty position fi fj ti tj player text :
  generate_move_notation position fi fj ti tj player = Some text →
  text ≠ ""%string.
Proof.
  unfold generate_move_notation.
  intros (c & _ & (t & _ & H)%bind_Some)%bind_Some.
  destruct (_ && _ && _); [by injection H as <-|].
  destruct (_ && _ && _); [by injection H as <-|].
  apply bind_Some in H as (tb & _ & H).
  apply bind_Some in H as (chk & _ & H).
  apply bind_Some in H as (mate & _ & [= <-]).
  intros (E & _)%append_empty.
  apply append_empty in E as (_ & E).
  apply append_empty in E as (_ & E).
  apply append_empty in E as (_ & E).
  by apply append_empty in E as (E & _).
Qed.

(** X6.  The empty notation is an unambiguous answer of
    [Board::handle_white_move] and [Human::handle_black_move]: an
    accepted move never has it, and when it is returned the position is
    exactly the one the call started from. *)
Theorem empty_notation_means_untouched :
  (∀ p answer si sj ti tj p',
     handle_white_move p answer si sj ti tj = Some (""%string, p') → p' = p)
  ∧ (∀ p answer si sj ti tj p',
     handle_black_move p answer si sj ti tj = Some (""%string, p') → p' = p).
Proof.
  split.
  - intros p answer si sj ti tj p' H.
    apply handle_white_move_Some in H as [[_ ->]|(? & ? & ? & ? & _ & _ & Hn & _)];
      [done|].
    by apply generate_move_notation_nonempty in Hn.
  - intros p answer si sj ti tj p' H.
    apply handle_black_move_Some in H as [[_ ->]|(? & ? & ? & _ & _ & Hn & _)];
      [done|].
    by apply generate_move_notation_nonempty in Hn.
Qed.

Lemma empty_notation_means_untouched_witness :
  ∃ p',
    handle_white_move initial_position "q"%char 7 0 5 0 = Some (""%string, p')
    ∧ p' = initial_position.
Proof.
  eexists. split; [vm_compute; reflexivity|].
  eapply (proj1 empty_notation_means_untouched initial_position "q"%char 7 0 5 0).
  vm_compute. reflexivity.
Defined.

(** ** [Board::move_piece] *)

(** X7.  [Board::move_piece] empties the origin, puts the piece that
    stood there on the destination (when the two squares differ), leaves
    every other cell as it was and touches neither the en-passant flags
    nor the castling rights. *)
Theorem move_piece_effect p si sj di dj pp :
  move_piece p si sj di dj = Some pp →
  ∃ c,
    get (board p) si sj = Some c
    ∧ get (board pp) si sj = Some 0
    ∧ ((di, dj) ≠ (si, sj) → get (board pp) di dj = Some c)
    ∧ (∀ i j, (i, j) ≠ (si, sj) → (i, j) ≠ (di, dj) →
              get (board pp) i j = get (board p) i j)
    ∧ pawn_two_squares_black pp = pawn_two_squares_black p
    ∧ pawn_two_squares_white pp = pawn_two_squares_white p
    ∧ can_castle_white pp = can_castle_white p
    ∧ can_castle_black pp = can_castle_black p.
Proof.
  intros H. pose proof (move_piece_fields _ _ _ _ _ _ H) as (F1 & F2 & F3 & F4).
  apply move_piece_Some in H as (c & b & Hc & Hb & ->). simpl in *.
  apply bind_Some in Hb as (b1 & H1 & Hb).
  apply bind_Some in Hb as (b2 & H2 & [= <-]).
  exists c. split; [done|]. split; [by eapply get_put_eq|]. split.
  { intros Hne. rewrite (get_put_ne _ _ _ _ _ _ _ H2 Hne). by eapply get_put_eq. }
  split; [|done].
  intros i j Hs Hd.
  rewrite (get_put_ne _ _ _ _ _ _ _ H2 Hs). by rewrite (get_put_ne _ _ _ _ _ _ _ H1 Hd).
Qed.

Lemma move_piece_effect_witness :
  ∃ pp c,
    move_piece initial_position 6 4 4 4 = Some pp
    ∧ get (board initial_position) 6 4 = Some c
    ∧ get (board pp) 6 4 = Some 0.
Proof.
  eexists _. 
  edestruct (move_piece_effect initial_position 6 4 4 4) as (c & Hc & H0 & _);
    [vm_compute; reflexivity|].
  exists c. split; [reflexivity|]. split; [exact Hc | exact H0].
Defined.

(** ** puzzle.cpp: letters and moves *)

(** X8.  [piece_char_to_int] returns a piece code between -6 and 6; a
    positive code comes from an upper-case letter only, a negative code
    from a lower-case letter only, and no two characters share a
    non-zero code. *)
Theorem piece_char_to_int_codes c :
  valid_cell (piece_char_to_int c) = true
  ∧ (0 < piece_char_to_int c → 65 <= char_code c <= 90)
  ∧ (piece_char_to_int c < 0 → 97 <= char_code c <= 122)
  ∧ (∀ c', piece_char_to_int c' = piece_char_to_int c →
           piece_char_to_int c ≠ 0 → c' = c).
Proof.
  destruct c as [[] [] [] [] [] [] [] []];
    (split; [reflexivity|]);
    (split; [vm_compute; intros ?; first [done|split; discriminate]|]);
    (split; [vm_compute; intros ?; first [done|split; discriminate]|]);
    intros c' H N; vm_compute in N; try done; clear N;
    destruct c' as [[] [] [] [] [] [] [] []]; vm_compute in H;
    first [discriminate H | reflexivity].
Qed.

(** X9.  [play_move] of puzzle.cpp never changes a castling right.  When
    it changes the position at all, it clears every en-passant flag of
    both sides, empties the origin square named by the move string and
    leaves every cell other than origin and destination as it was: a
    castling move moves the king alone.  The piece it puts on the
    destination has the colour of the piece moved and is that piece
    unless a pawn is promoted. *)
Theorem play_move_effect position move_str position' :
  play_move position move_str = Some position' →
  let fj := char_at move_str 0 - char_code "a" in
  let fi := char_code "8" - char_at move_str 1 in
  let tj := char_at move_str 2 - char_code "a" in
  let ti := char_code "8" - char_at move_str 3 in
  can_castle_white position' = can_castle_white position
  ∧ can_castle_black position' = can_castle_black position
  ∧ (position' = position
     ∨ (pawn_two_squares_white position' = replicate 8 false
        ∧ pawn_two_squares_black position' = replicate 8 false
        ∧ get (board position') fi fj = Some 0
        ∧ (∀ i j, (i, j) ≠ (fi, fj) → (i, j) ≠ (ti, tj) →
                  get (board position') i j = get (board position) i j)
        ∧ ∃ piece placed,
            get (board position) fi fj = Some piece
            ∧ ((ti, tj) ≠ (fi, fj) → get (board position') ti tj = Some placed)
            ∧ (0 < placed ↔ 0 < piece)
            ∧ (placed = piece ∨ (Z.abs piece = 1 ∧ 2 <= Z.abs placed <= 5)))).
Proof.
  intros H fj fi tj ti. unfold play_move in H.
  destruct (String.length move_str <? 4)%nat; [by injection H as <-; auto|].
  apply bind_Some in H as (piece & Hp & H). fold fi fj in Hp.
  destruct (Z.eqb_spec piece 0) as [->|Hnz]; [by injection H as <-; auto|].
  apply bind_Some in H as (b & Hb & [= <-]). simpl.
  fold fi fj ti tj in Hb.
  split; [done|]. split; [done|]. right.
  split; [done|]. split; [done|].
  apply bind_Some in Hb as (b1 & H1 & Hb).
  apply bind_Some in Hb as (b2 & H2 & [= <-]).
  split; [by eapply get_put_eq|]. split.
  { intros i j Hs Hd.
    rewrite (get_put_ne _ _ _ _ _ _ _ H2 Hs).
    by rewrite (get_put_ne _ _ _ _ _ _ _ H1 Hd). }
  eexists piece, _. split; [done|]. split.
  { intros Hne. rewrite (get_put_ne _ _ _ _ _ _ _ H2 Hne). by eapply get_put_eq. }
  destruct ((String.length move_str =? 5)%nat && (Z.abs piece =? 1)) eqn:E.
  - apply andb_true_iff in E as [_ E%Z.eqb_eq].
    unfold promotion_of.
    destruct (Z.ltb_spec 0 piece);
      repeat match goal with |- context [if ?c then _ else _] => destruct c end;
      (split; [lia|right; lia]).
  - split; [done|by left].
Qed.

Lemma play_move_effect_witness :
  ∃ position',
    play_move initial_position "e1g1" = Some position'
    ∧ can_castle_white position' = can_castle_white initial_position
    ∧ get (board position') 7 7 = get (board initial_position) 7 7.
Proof.
  eexists. split; [vm_compute; reflexivity|].
  edestruct (play_move_effect initial_position "e1g1") as (Hw & _ & [E|H]);
    [vm_compute; reflexivity| |].
  - discriminate E.
  - split; [exact Hw|]. destruct H as (_ & _ & _ & Hf & _).
    apply Hf; vm_compute; discriminate.
Defined.

(** ** Well-formedness under the move handlers *)

Lemma with_board_well_formed p b :
  well_formed p → length b = 64%nat → forallb valid_cell b = true →
  well_formed (with_board p b).
Proof. intros (_ & _ & ? & ?) ? ?. by repeat split. Qed.

Lemma puts_well_formed p edits b :
  well_formed p → puts (board p) edits = Some b →
  Forall (λ e : Z * Z * Z, valid_cell e.2 = true) edits →
  well_formed (with_board p b).
Proof.
  intros Hwf Hb He. pose proof Hwf as (Hl & Hv & _).
  apply with_board_well_formed; [done| |by eapply puts_valid].
  by rewrite (puts_length _ _ _ Hb).
Qed.

Lemma move_piece_well_formed p si sj ti tj pp :
  well_formed p → move_piece p si sj ti tj = Some pp → well_formed pp.
Proof.
  intros Hwf (c & b & Hc & Hb & ->)%move_piece_Some.
  eapply puts_well_formed; [done..|].
  repeat constructor. simpl. eapply get_valid; [apply Hwf|done].
Qed.

Lemma flags_well_formed p q :
  well_formed p → board q = board p →
  length (pawn_two_squares_black q) = 8%nat →
  length (pawn_two_squares_white q) = 8%nat →
  well_formed q.
Proof. intros (? & ? & _) E ? ?. repeat split; by rewrite ?E. Qed.

Lemma castle_well_formed possible k pb rook edits :
  well_formed possible →
  valid_cell k = true → valid_cell rook = true →
  (∃ ti tj si sj r c c',
     edits = [(ti, tj, k); (si, sj, 0); (r, c, 0); (r, c', rook)]) →
  puts (board possible) edits = Some pb →
  well_formed (with_board possible pb).
Proof.
  intros Hwf Hk Hr (ti & tj & si & sj & r & c & c' & ->) Hb.
  eapply puts_well_formed; [done..|]. by repeat constructor.
Qed.

Ltac castle_wf H :=
  apply bind_Some in H as ([] & _ & H); [|done];
  let k := fresh "k" in let Hk := fresh "Hk" in
  let pb := fresh "pb" in let Hpb := fresh "Hpb" in
  apply bind_Some in H as (k & Hk & H);
  apply bind_Some in H as (pb & Hpb & H);
  injection H as <-;
  match goal with
  | Hwf : well_formed ?q |- _ =>
    eapply (flags_well_formed (with_board q pb));
      [ eapply (castle_well_formed q k pb); [exact Hwf| | |by repeat eexists|exact Hpb];
        [eapply get_valid; [apply Hwf|exact Hk]|done]
      | done | apply Hwf | apply Hwf ]
  end.

Lemma white_castle_kingside_wf position possible si sj ti tj pp :
  well_formed possible →
  white_castle_kingside position possible si sj ti tj = Some (Some pp) →
  well_formed pp.
Proof. intros Hwf H. unfold white_castle_kingside in H. castle_wf H. Qed.

Lemma white_castle_queenside_wf position possible si sj ti tj pp :
  well_formed possible →
  white_castle_queenside position possible si sj ti tj = Some (Some pp) →
  well_formed pp.
Proof. intros Hwf H. unfold white_castle_queenside in H. castle_wf H. Qed.

Lemma black_castle_kingside_wf position possible si sj ti tj pp :
  well_formed possible →
  black_castle_kingside position possible si sj ti tj = Some (Some pp) →
  well_formed pp.
Proof. intros Hwf H. unfold black_castle_kingside in H. castle_wf H. Qed.

Lemma black_castle_queenside_wf position possible si sj ti tj pp :
  well_formed possible →
  black_castle_queenside position possible si sj ti tj = Some (Some pp) →
  well_formed pp.
Proof. intros Hwf H. unfold black_castle_queenside in H. castle_wf H. Qed.

Lemma castle_flags_well_formed p :
  well_formed p →
  (∀ c, well_formed (with_castle_white p c))
  ∧ (∀ c, well_formed (with_castle_black p c)).
Proof. intros (? & ? & ? & ?). by split; intros c; repeat split. Qed.

Lemma white_candidate_wf p si sj ti tj possible v :
  well_formed p →
  white_candidate p si sj ti tj = Some (Some (possible, v)) →
  well_formed possible.
Proof.
  intros Hwf. unfold white_candidate. intros (c & Hc & H)%bind_Some.
  assert (Hmove : ∀ pp, move_piece p si sj ti tj = Some pp → well_formed pp)
    by (intros pp; by apply move_piece_well_formed).
  destruct (c =? WHITE_PAWN).
  { apply bind_Some in H as (v' & _ & H). destruct (pawn_ok v'); [|done].
    apply bind_Some in H as (pp & Hpp%Hmove & H).
    apply bind_Some in H as ([] & _ & H).
    - apply bind_Some in H as (pb & Hpb & [= <- _]).
      eapply (puts_well_formed pp [(si, tj, 0)]); [done| |by repeat constructor].
      simpl. by rewrite Hpb.
    - by injection H as <- _. }
  destruct (c =? WHITE_KNIGHT).
  { destruct (under_knight_control _ _ _ _); [|done].
    apply bind_Some in H as (pp & Hpp%Hmove & [= <- _]). done. }
  destruct (c =? WHITE_BISHOP).
  { apply bind_Some in H as ([] & _ & H); [|done].
    apply bind_Some in H as (pp & Hpp%Hmove & [= <- _]). done. }
  destruct (c =? WHITE_ROOK).
  { apply bind_Some in H as ([] & _ & H); [|done].
    apply bind_Some in H as (pp & Hpp%Hmove & [= <- _]).
    destruct Hpp as (? & ? & ? & ?).
    by destruct ((si =? 7) && (sj =? 0)), ((si =? 7) && (sj =? 7)). }
  destruct (c =? WHITE_QUEEN).
  { apply bind_Some in H as ([] & _ & H); [|done].
    apply bind_Some in H as (pp & Hpp%Hmove & [= <- _]). done. }
  destruct (c =? WHITE_KING); [|done].
  apply bind_Some in H as (r1 & H1 & H).
  apply bind_Some in H as (r2 & H2 & H).
  apply bind_Some in H as (r3 & H3 & H).
  assert (Hr1 : ∀ pp, r1 = Some pp → well_formed pp).
  { intros pp ->. destruct (under_king_control _ _ _ _); [|done].
    apply bind_Some in H1 as (pp' & Hpp%Hmove & [= <-]).
    by apply castle_flags_well_formed. }
  assert (Hposs : well_formed (default p r1)).
  { destruct r1 as [pp|]; simpl; [by apply Hr1|done]. }
  assert (Hk2 : ∀ p2, r2 = Some p2 → well_formed p2).
  { intros p2 ->. by eapply white_castle_kingside_wf. }
  assert (Hk3 : ∀ p3, r3 = Some p3 → well_formed p3).
  { intros p3 ->. eapply white_castle_queenside_wf; [|exact H3].
    destruct r2 as [p2|]; simpl; [by apply Hk2|done]. }
  destruct r3 as [p3|], r2 as [p2|], r1 as [p1|]; simpl in H; try done;
    injection H as <- _; first [by apply Hk3 | by apply Hk2 | by apply Hr1].
Qed.

Lemma black_pawn_candidate_wf p si sj ti tj possible ep :
  well_formed p →
  black_pawn_candidate p si sj ti tj = Some (Some (possible, ep)) →
  well_formed possible.
Proof.
  intros Hwf. unfold black_pawn_candidate.
  assert (Hmove : ∀ pp, move_piece p si sj ti tj = Some pp → well_formed pp)
    by (intros pp; by apply move_piece_well_formed).
  destruct (_ && _).
  { intros (c & _ & H)%bind_Some. destruct (c =? 0); [|done].
    by apply bind_Some in H as (pp & Hpp%Hmove & [= <- _]). }
  destruct (_ && _ && _).
  { intros ([] & _ & H)%bind_Some; [|done].
    apply bind_Some in H as (pp & Hpp & H).
    apply bind_Some in H as (f & Hf%set_flag_length & [= <- _]).
    apply move_piece_well_formed in Hpp.
    - destruct Hpp as (? & ? & ? & ?). repeat split; simpl; congruence.
    - destruct Hwf as (? & ? & ? & ?). by repeat split. }
  intros (e & _ & H)%bind_Some. destruct e.
  { apply bind_Some in H as (pp & Hpp%Hmove & H).
    apply bind_Some in H as (pb & Hpb & [= <- _]).
    eapply (puts_well_formed pp [(4, tj, 0)]); [done| |by repeat constructor].
    simpl. by rewrite Hpb. }
  apply bind_Some in H as ([] & _ & H); [|done].
  by apply bind_Some in H as (pp & Hpp%Hmove & [= <- _]).
Qed.

Lemma black_candidate_wf p si sj ti tj possible ep :
  well_formed p →
  black_candidate p si sj ti tj = Some (Some (possible, ep)) →
  well_formed possible.
Proof.
  intros Hwf. unfold black_candidate. intros (c & Hc & H)%bind_Some.
  assert (Hmove : ∀ pp, move_piece p si sj ti tj = Some pp → well_formed pp)
    by (intros pp; by apply move_piece_well_formed).
  destruct (c =? BLACK_PAWN); [by eapply black_pawn_candidate_wf|].
  destruct (c =? BLACK_KNIGHT).
  { destruct (under_knight_control _ _ _ _); [|done].
    apply bind_Some in H as (pp & Hpp%Hmove & [= <- _]). done. }
  destruct (c =? BLACK_BISHOP).
  { apply bind_Some in H as ([] & _ & H); [|done].
    apply bind_Some in H as (pp & Hpp%Hmove & [= <- _]). done. }
  destruct (c =? BLACK_ROOK).
  { apply bind_Some in H as ([] & _ & H); [|done].
    apply bind_Some in H as (pp & Hpp%Hmove & [= <- _]).
    destruct Hpp as (? & ? & ? & ?).
    by destruct ((si =? 0) && (sj =? 0)), ((si =? 0) && (sj =? 7)). }
  destruct (c =? BLACK_QUEEN).
  { apply bind_Some in H as ([] & _ & H); [|done].
    apply bind_Some in H as (pp & Hpp%Hmove & [= <- _]). done. }
  destruct (c =? BLACK_KING); [|done].
  apply bind_Some in H as (r1 & H1 & H).
  apply bind_Some in H as (r2 & H2 & H).
  apply bind_Some in H as (r3 & H3 & H).
  assert (Hr1 : ∀ pp, r1 = Some pp → well_formed pp).
  { intros pp ->. destruct (under_king_control _ _ _ _); [|done].
    apply bind_Some in H1 as (pp' & Hpp%Hmove & [= <-]).
    by apply castle_flags_well_formed. }
  assert (Hposs : well_formed (default p r1)).
  { destruct r1 as [pp|]; simpl; [by apply Hr1|done]. }
  assert (Hk2 : ∀ p2, r2 = Some p2 → well_formed p2).
  { intros p2 ->. by eapply black_castle_kingside_wf. }
  assert (Hk3 : ∀ p3, r3 = Some p3 → well_formed p3).
  { intros p3 ->. destruct r2 as [p2|]; [done|].
    by eapply black_castle_queenside_wf. }
  destruct r3 as [p3|], r2 as [p2|], r1 as [p1|]; simpl in H; try done;
    injection H as <- _; first [by apply Hk3 | by apply Hk2 | by apply Hr1].
Qed.

Lemma promoted_piece_valid s answer : valid_cell (promoted_piece s answer) = true.
Proof.
  unfold promoted_piece.
  by destruct s; repeat match goal with |- context [if ?c then _ else _] =>
                          destruct c end.
Qed.

(** X10.  Structural well-formedness is an invariant of the three
    move-applying entry points: whatever [Board::handle_white_move],
    [Human::handle_black_move] and [play_move] leave behind on a
    well-formed position, accepted move or not, has 64 cells holding
    piece codes and eight flags per side. *)
Theorem handlers_keep_positions_well_formed p :
  well_formed p →
  (∀ answer si sj ti tj text p',
     handle_white_move p answer si sj ti tj = Some (text, p') → well_formed p')
  ∧ (∀ answer si sj ti tj text p',
     handle_black_move p answer si sj ti tj = Some (text, p') → well_formed p')
  ∧ (∀ move_str p', play_move p move_str = Some p' → well_formed p').
Proof.
  intros Hwf. split; [|split].
  - intros answer si sj ti tj text p'. unfold handle_white_move.
    intros (t & _ & H)%bind_Some.
    destruct (0 <? t); [by injection H as _ <-|].
    apply bind_Some in H as (cand & Hc & H).
    destruct cand as [[possible v]|]; [|by injection H as _ <-].
    apply white_candidate_wf in Hc; [|done].
    apply bind_Some in H as ([] & _ & H); [by injection H as _ <-|].
    apply bind_Some in H as (text' & _ & H).
    apply bind_Some in H as (white & Hw & H).
    apply bind_Some in H as (b & Hb & [= _ <-]).
    assert (length white = 8%nat).
    { destruct (_ =? _); [by injection Hw as <-|].
      by apply set_flag_length in Hw. }
    assert (well_formed (with_board possible b)) as (? & ? & ? & ?).
    { destruct (promote_pawn v).
      - eapply (puts_well_formed possible [(ti, tj, _)]); [done|simpl; by rewrite Hb|].
        repeat constructor. apply promoted_piece_valid.
      - injection Hb as <-. by destruct possible. }
    by repeat split.
  - intros answer fx fy tx ty text p'. unfold handle_black_move.
    intros (ms & _ & H)%bind_Some.
    apply bind_Some in H as (t & _ & H).
    destruct (t <? 0); [by injection H as _ <-|].
    apply bind_Some in H as ([[legal p1] possible] & Hl & H).
    unfold is_black_move_legal in Hl.
    apply bind_Some in Hl as (cand & Hc & Hl).
    destruct cand as [[possible' ep]|];
      [|injection Hl as <- <- <-; by injection H as _ <-].
    apply black_candidate_wf in Hc; [|done].
    apply bind_Some in Hl as ([] & Hk & Hl);
      [injection Hl as <- <- <-; by injection H as _ <-|].
    apply bind_Some in Hl as (white & Hw & [= <- <- <-]).
    cbn [negb] in H. rewrite Hk in H. cbn [mbind option_bind] in H.
    apply bind_Some in H as (c & _ & H).
    apply bind_Some in H as (b & Hb & [= _ <-]).
    destruct ((c =? BLACK_PAWN) && (tx =? 7)).
    + eapply (puts_well_formed possible' [(tx, ty, _)]);
        [done|simpl; by rewrite Hb|].
      repeat constructor. apply promoted_piece_valid.
    + injection Hb as <-. by destruct possible'.
  - intros move_str p'. unfold play_move.
    destruct (String.length move_str <? 4)%nat; [by intros [= <-]|].
    intros (piece & Hp & H)%bind_Some.
    destruct (piece =? 0); [by injection H as <-|].
    apply bind_Some in H as (b & Hb & [= <-]).
    assert (Hv : valid_cell piece = true) by (eapply get_valid; [apply Hwf|done]).
    assert (well_formed (with_board p b)) as (? & ? & ? & ?); [|by repeat split].
    eapply puts_well_formed; [done..|].
    repeat constructor; simpl.
    destruct (_ && _); [|done].
    unfold promotion_of.
    by repeat match goal with |- context [if ?c then _ else _] => destruct c end.
Qed.

Lemma handlers_keep_positions_well_formed_witness :
  well_formed initial_position
  ∧ ∃ text p',
      handle_white_move initial_position "q"%char 6 4 4 4 = Some (text, p')
      ∧ well_formed p'.
Proof.
  assert (Hwf : well_formed initial_position)
    by (repeat split; vm_compute; reflexivity).
  split; [exact Hwf|].
  eexists _, _. split; [vm_compute; reflexivity|].
  eapply (proj1 (handlers_keep_positions_well_formed initial_position Hwf)
                "q"%char 6 4 4 4).
  vm_compute. reflexivity.
Defined.

(** ** The move generator stays on the board *)

Lemma no_abort_nil : no_abort [].
Proof. unfold no_abort, candidates. simpl. apply not_elem_of_nil. Qed.

Lemma no_abort_app l1 l2 : no_abort l1 → no_abort l2 → no_abort (l1 ++ l2).
Proof.
  unfold no_abort. rewrite candidates_app, elem_of_app. tauto.
Qed.

Lemma no_abort_cons i l : no_abort [i] → no_abort l → no_abort (i :: l).
Proof. apply (no_abort_app [i] l). Qed.

Lemma no_abort_Loop body : no_abort body → no_abort [Loop body].
Proof.
  unfold no_abort. rewrite candidates_cons. simpl. by rewrite app_nil_r.
Qed.

Lemma no_abort_flat_map {A} (f : A → list item) (xs : list A) :
  (∀ x, x ∈ xs → no_abort (f x)) → no_abort (flat_map f xs).
Proof.
  induction xs as [|x xs IH]; intros H; simpl.
  - apply no_abort_nil.
  - apply no_abort_app; [apply H; left|].
    apply IH. intros y Hy. apply H. by right.
Qed.

Lemma no_abort_map {A} (f : A → item) (xs : list A) :
  (∀ x, x ∈ xs → no_abort [f x]) → no_abort (map f xs).
Proof.
  induction xs as [|x xs IH]; intros H; simpl.
  - apply no_abort_nil.
  - apply no_abort_cons; [apply H; left|].
    apply IH. intros y Hy. apply H. by right.
Qed.

Lemma no_abort_when (c : option bool) (its : list item) :
  is_Some c → (c = Some true → no_abort its) → no_abort (when c its).
Proof. intros [[] ->] H; [by apply H|apply no_abort_nil]. Qed.

Lemma no_abort_reading {A} (x : option A) (k : A → list item) :
  is_Some x → (∀ c, x = Some c → no_abort (k c)) → no_abort (reading x k).
Proof. intros [c ->] H. by apply H. Qed.

Lemma no_abort_cand mv p edits post :
  length (board p) = 64%nat →
  Forall (λ e : Z * Z * Z, in_board e.1.1 e.1.2 = true) edits →
  (∀ b, is_Some (post (with_board p b))) →
  no_abort [cand mv p edits post].
Proof.
  intros Hlen He Hpost. unfold no_abort, cand. rewrite candidates_cons.
  destruct (puts_def edits (board p) Hlen He) as (b & -> & _). simpl.
  destruct (Hpost b) as [pp ->]. simpl.
  intros [[=]|H%elem_of_nil]%elem_of_cons. done.
Qed.

Lemma set_flag_def (f : list bool) (j : Z) (v : bool) :
  length f = 8%nat → in_file j = true → is_Some (set_flag f j v).
Proof.
  intros Hlen Hin. unfold set_flag. rewrite Hin.
  assert ((Z.to_nat j <? length f)%nat = true) as ->; [|by eexists].
  apply Nat.ltb_lt. rewrite Hlen. in_range.
Qed.

(** One step through a generator, by the shape of the items. *)
Ltac abort_step :=
  lazymatch goal with
  | |- no_abort [] => apply no_abort_nil
  | |- no_abort [Loop _] => apply no_abort_Loop
  | |- no_abort (_ ++ _) => apply no_abort_app
  | |- no_abort (map _ _) => apply no_abort_map; intros ? _
  | |- no_abort [cand _ _ _ _] =>
    apply no_abort_cand; [done|repeat constructor; in_range|intros ?]
  | |- no_abort (_ :: _ :: _) => apply no_abort_cons
  | |- no_abort (if ?c then _ else _) =>
    let E := fresh "E" in destruct c eqn:E
  | |- no_abort _ =>
    first [ simple apply no_abort_when;
            [|let H := fresh "H" in intros H; keep_guard H]
          | simple apply no_abort_reading; [|intros ? ?] ]
  | |- is_Some (under_control _ _ _ _) => by apply under_control_def
  | |- is_Some (set_flag _ _ _) => apply set_flag_def; [done|in_range]
  | |- is_Some (empty_at _ _ _) => unfold empty_at
  | |- is_Some (piece_at _ _ _ _) => unfold piece_at
  | |- is_Some _ => def_step
  end.

Section Generator.
Context (s : side) (p : board_state).
Hypothesis Hwf : well_formed p.
Hypothesis Hrank : no_pawn_on_last_rank p.

Lemma no_abort_step_items piece ctl post m n offsets :
  in_board m n = true →
  (∀ q, is_Some (post q)) →
  no_abort [step_items s p piece ctl post m n offsets].
Proof using Hwf.
  intros Hin Hpost. pose proof (board_length p Hwf) as Hlen.
  unfold step_items. apply no_abort_Loop, no_abort_flat_map. intros d _.
  cbv zeta. destruct (in_board (m + d.1) (n + d.2)) eqn:Hd; [|apply no_abort_nil].
  simple apply no_abort_when.
  - apply guard_def. intros _.
    apply bind_def; [by apply get_def|]. by eexists.
  - intros _. apply no_abort_cand; [done| |intros b; apply Hpost].
    by repeat constructor.
Qed.

Lemma no_abort_slide_items piece ctl post m n d fuel i j :
  in_board m n = true →
  (∀ q, is_Some (post q)) →
  (∀ i j, is_Some (ctl (board p) m n i j)) →
  no_abort (slide_items s p piece ctl post m n d fuel i j).
Proof using Hwf.
  intros Hin Hpost Hctl. pose proof (board_length p Hwf) as Hlen. revert i j.
  induction fuel as [|fuel IH]; intros i j; simpl; [apply no_abort_nil|].
  destruct (in_board i j) eqn:Hd; [|apply no_abort_nil].
  apply no_abort_app.
  - simple apply no_abort_when.
    + apply andM_def; [apply Hctl|]. intros _.
      apply bind_def; [by apply get_def|]. by eexists.
    + intros _. apply no_abort_cand; [done| |intros b; apply Hpost].
      by repeat constructor.
  - simple apply no_abort_reading; [by apply get_def|]. intros c _.
    destruct (negb (c =? 0)); [apply no_abort_nil|apply IH].
Qed.

Lemma no_abort_slider_items piece ctl post m n dirs :
  in_board m n = true →
  (∀ q, is_Some (post q)) →
  (∀ i j, is_Some (ctl (board p) m n i j)) →
  no_abort (slider_items s p piece ctl post m n dirs).
Proof using Hwf.
  intros Hin Hpost Hctl. unfold slider_items. apply no_abort_map. intros d _.
  apply no_abort_Loop. by apply no_abort_slide_items.
Qed.

Lemma no_abort_castle_items inner m n :
  no_abort (castle_items inner s p m n).
Proof using Hwf.
  pose proof (board_length p Hwf) as Hlen.
  unfold castle_items. cbv zeta.
  destruct s, inner; repeat abort_step; unfold king_post; by eexists.
Qed.
End Generator.

Lemma no_abort_white_pawn_items inner p m n :
  well_formed p → no_pawn_on_last_rank p →
  get (board p) m n = Some WHITE_PAWN →
  no_abort (white_pawn_items inner p m n).
Proof.
  intros Hwf Hrank Hc. pose proof (get_Some_in_board _ _ _ _ Hc) as Hin.
  pose proof (pawn_row_ahead p Hrank WHITE m n Hc) as Hrow. simpl in Hrow.
  destruct Hwf as (Hlen & _ & Hfb & Hfw). clear Hc.
  unfold white_pawn_items. cbv zeta.
  destruct inner; repeat abort_step.
Qed.

Lemma no_abort_black_pawn_items p m n :
  well_formed p → no_pawn_on_last_rank p →
  get (board p) m n = Some BLACK_PAWN →
  no_abort (black_pawn_items p m n).
Proof.
  intros Hwf Hrank Hc. pose proof (get_Some_in_board _ _ _ _ Hc) as Hin.
  pose proof (pawn_row_ahead p Hrank BLACK m n Hc) as Hrow. simpl in Hrow.
  destruct Hwf as (Hlen & _ & Hfb & Hfw). clear Hc.
  unfold black_pawn_items. cbv zeta.
  repeat abort_step.
Qed.

Lemma no_abort_square_items inner s p m n :
  well_formed p → no_pawn_on_last_rank p → in_board m n = true →
  no_abort (square_items inner s p m n).
Proof.
  intros Hwf Hrank Hin. pose proof (board_length p Hwf) as Hlen.
  unfold square_items. cbv zeta.
  simple apply no_abort_reading; [by apply get_def|]. intros c Hc.
  destruct (match s with WHITE => 0 <? c | BLACK => c <? 0 end);
    [|apply no_abort_nil].
  repeat apply no_abort_app;
    match goal with |- no_abort (if ?t then _ else _) =>
      let E := fresh "E" in destruct t eqn:E; [|apply no_abort_nil] end.
  - apply Z.eqb_eq in E. subst c.
    destruct s; [by apply no_abort_white_pawn_items|by apply no_abort_black_pawn_items].
  - apply no_abort_step_items; [done..|]. by eexists.
  - apply no_abort_slider_items; [done..|by eexists|].
    intros i j. by apply slides_to_def.
  - apply no_abort_slider_items; [done..| |].
    + intros q. unfold rook_post. destruct s; by eexists.
    + intros i j. by apply slides_to_def.
  - apply no_abort_slider_items; [done..|by eexists|].
    intros i j. by apply slides_to_def.
  - apply no_abort_cons.
    + apply no_abort_step_items; [done..|]. intros q. unfold king_post. by eexists.
    + by apply no_abort_castle_items.
Qed.

(** X11.  On a structurally well-formed position on which no pawn stands
    on the rank it promotes on, the loop nest shared by
    [make_white_move], [make_black_move], [get_best_white_moves] and
    [adv_minimax] builds every candidate position without reading or
    writing outside the board or the flag arrays. *)
Theorem move_generation_stays_on_the_board inner s p :
  well_formed p → no_pawn_on_last_rank p →
  no_abort (engine_items inner s p).
Proof.
  intros Hwf Hrank. unfold engine_items.
  apply no_abort_map. intros m Hm%elem_of_range8.
  apply no_abort_Loop, no_abort_flat_map. intros n Hn%elem_of_range8.
  apply no_abort_square_items; [done..|]. in_range.
Qed.

Lemma move_generation_stays_on_the_board_witness :
  well_formed kingless_position
  ∧ no_pawn_on_last_rank kingless_position
  ∧ no_abort (engine_items true BLACK kingless_position).
Proof.
  assert (Hwf : well_formed kingless_position)
    by (repeat split; vm_compute; reflexivity).
  assert (Hrank : no_pawn_on_last_rank kingless_position)
    by (apply no_pawn_on_last_rank_b_true; vm_compute; reflexivity).
  split; [exact Hwf|]. split; [exact Hrank|].
  apply (move_generation_stays_on_the_board true BLACK kingless_position Hwf Hrank).
Defined.

(** ** The piece-square tables *)

(** X12.  The piece-square tables of black are those of white with the
    rows in reverse order: on every square, black's bonus for a piece is
    white's bonus for the same piece on the square mirrored across the
    middle of the board. *)
Theorem black_tables_mirror_white i j :
  in_board i j = true →
  get PAWN_TABLE_BLACK i j = get PAWN_TABLE_WHITE (7 - i) j
  ∧ get KNIGHT_TABLE_BLACK i j = get KNIGHT_TABLE_WHITE (7 - i) j
  ∧ get BISHOP_TABLE_BLACK i j = get BISHOP_TABLE_WHITE (7 - i) j
  ∧ get ROOK_TABLE_BLACK i j = get ROOK_TABLE_WHITE (7 - i) j
  ∧ get QUEEN_TABLE_BLACK i j = get QUEEN_TABLE_WHITE (7 - i) j
  ∧ get KING_MIDDLE_TABLE_BLACK i j = get KING_MIDDLE_TABLE_WHITE (7 - i) j
  ∧ get KING_END_TABLE_BLACK i j = get KING_END_TABLE_WHITE (7 - i) j.
Proof.
  intros Hin.
  assert (Hi : i = 0 ∨ i = 1 ∨ i = 2 ∨ i = 3 ∨ i = 4 ∨ i = 5 ∨ i = 6 ∨ i = 7)
    by in_range.
  assert (Hj : j = 0 ∨ j = 1 ∨ j = 2 ∨ j = 3 ∨ j = 4 ∨ j = 5 ∨ j = 6 ∨ j = 7)
    by in_range.
  clear Hin.
  repeat (destruct Hi as [->|Hi]); subst;
    repeat (destruct Hj as [->|Hj]); subst;
    repeat split; reflexivity.
Qed.

Lemma black_tables_mirror_white_witness :
  get PAWN_TABLE_BLACK 1 3 = get PAWN_TABLE_WHITE (7 - 1) 3.
Proof.
  apply (black_tables_mirror_white 1 3). reflexivity.
Defined.
